(** * The data module: store registry, listener bus and component adapters

    A shallow embedding of [src/data/index.js].  The module keeps four
    module-level registries ([stores], [selectors], [actions], [listeners])
    and exports functions that read and update them; three higher-order
    components ([withSelect], [withDispatch], [withData]) keep per-instance
    state and hook into the listener bus.

    Conventions of the embedding:
    - module-level variables and component instances live in a [World] that is
      threaded through every call;
    - a call returns a result ([Ok] or [Throw]), the new world and the tree of
      calls it made ([Event]s), so that "how often was X invoked" is a
      statement about the returned trace;
    - functions supplied by the client whose bodies may call back into the
      module (bus listeners, selector effects) are referred to by number and
      run by [ext], a variable of the model;
    - JavaScript objects used as maps are finite maps or association lists
      of their own properties; reading a property that is not an own one
      finds the member of [Object.prototype] of that name, if there is one.
      Where the program goes on in such a member the model stops: the call
      ends with [Native], and the properties say nothing about it.  Setting
      the property [__proto__] of a registry replaces its prototype; the
      properties that depend on it assume nothing is registered under that
      name;
    - numbers are integers, so [===] is reflexive. *)

From stdpp Require Import gmap strings list fin_maps.
From Stdlib Require Import ZArith FunctionalExtensionality Ascii.

#[local] Set Warnings "-register-all".

(** ** JavaScript values and the library helpers the module imports *)

Module JS.

(** An object value carries the address it was allocated at; [===] on
    objects compares addresses only. *)
Inductive Value : Type :=
| VUndefined
| VNull
| VBool (b : bool)
| VNum (n : Z)
| VStr (s : string)
| VObj (addr : nat) (fields : list (string * Value)).

(** [a === b].  Numbers are integers: [NaN], the one value that is not
    [===] to itself, is not a value of the model. *)
Definition strict_eq (a b : Value) : bool :=
  match a, b with
  | VUndefined, VUndefined => true
  | VNull, VNull => true
  | VBool x, VBool y => bool_decide (x = y)
  | VNum x, VNum y => bool_decide (x = y)
  | VStr x, VStr y => bool_decide (x = y)
  | VObj x _, VObj y _ => bool_decide (x = y)
  | _, _ => false
  end.

(** A plain object used as a record of props: own enumerable keys in
    insertion order. *)
Abbreviation Dict A := (list (string * A)) (only parsing).
Abbreviation Obj := (list (string * Value)) (only parsing).

(** [o[k]] *)
Fixpoint get {A} (o : Dict A) (k : string) : option A :=
  match o with
  | [] => None
  | (k', v) :: o' => if bool_decide (k' = k) then Some v else get o' k
  end.

(** [Object.prototype.hasOwnProperty] applied to [o] and [k]. *)
Definition hasOwnProperty {A} (o : Dict A) (k : string) : bool :=
  match get o k with Some _ => true | None => false end.

(** The names every plain object inherits from [Object.prototype]. *)
Definition objectPrototype : list string :=
  ["constructor"; "hasOwnProperty"; "isPrototypeOf"; "propertyIsEnumerable";
   "toLocaleString"; "toString"; "valueOf"; "__proto__";
   "__defineGetter__"; "__defineSetter__"; "__lookupGetter__";
   "__lookupSetter__"].

Definition inherited (name : string) : bool :=
  bool_decide (name ∈ objectPrototype).

(** What [o[ name ]] finds on a plain object: an own property, else the
    member of [Object.prototype] called [name], else [undefined]. *)
Inductive Property (A : Type) : Type :=
| Own (a : A)
| Inherited (member : string)
| Undefined.
Arguments Own {A} a.
Arguments Inherited {A} member.
Arguments Undefined {A}.

(** [o[ name ]], given the own property of that name if [o] has one. *)
Definition getProperty {A} (own : option A) (name : string) : Property A :=
  match own with
  | Some a => Own a
  | None => if inherited name then Inherited name else Undefined
  end.

Definition keys {A} (o : Dict A) : list string := o.*1.

(** [{ ...a, ...b }]: the keys of [a] keep their position and take the value
    of [b] where [b] has them, the other keys of [b] follow. *)
Definition spread {A} (a b : Dict A) : Dict A :=
  map (fun kv => (kv.1, default kv.2 (get b kv.1))) a
  ++ filter (fun kv => hasOwnProperty a kv.1 = false) b.

(** [state.value] and the like: property read on a value.  Reading a
    property of [undefined] or [null] is a TypeError ([None] here). *)
Definition prop (v : Value) (k : string) : option Value :=
  match v with
  | VUndefined | VNull => None
  | VObj _ fs => Some (default VUndefined (get fs k))
  | _ => Some VUndefined
  end.

(** lodash [mapValues( o, f )], [f] receiving value and key. *)
Definition mapValues {A B} (f : A → string → B) (o : Dict A) : Dict B :=
  map (fun kv => (kv.1, f kv.2 kv.1)) o.

(** lodash [omitBy( o, p )]. *)
Definition omitBy {A} (p : A → string → bool) (o : Dict A) : Dict A :=
  filter (fun kv => p kv.2 kv.1 = false) o.

(** lodash [without( array, value )] *)
Definition without {A} `{EqDecision A} (l : list A) (x : A) : list A :=
  filter (fun y => y ≠ x) l.

(** [shallowequal] on two argument arrays: same length and [===] at every
    index. *)
Fixpoint isShallowEqualArgs (a b : list Value) : bool :=
  match a, b with
  | [], [] => true
  | x :: a', y :: b' => strict_eq x y && isShallowEqualArgs a' b'
  | _, _ => false
  end.

(** [shallowequal] on two plain objects: same number of keys, and every key
    of [a] is a key of [b] with a [===] value. *)
Definition isShallowEqual (a b : Obj) : bool :=
  bool_decide (length a = length b)
  && forallb (fun kv => match get b kv.1 with
                        | Some v => strict_eq kv.2 v
                        | None => false
                        end) a.

(** [isShallowEqual( next, prev )] where [prev] may still be [undefined]. *)
Definition isShallowEqualOpt (a : Obj) (b : option Obj) : bool :=
  match b with Some b => isShallowEqual a b | None => false end.

End JS.
Export JS.

(** ** Results, actions, stores *)

(** How a call ends when it does not return: with an exception — a
    [TypeError] of the runtime or a value thrown by client code — or, for
    [Native], by going on in a member of [Object.prototype] (say
    [select( key ).toString()]), where the model does not follow it: what
    such a call returns or throws is the runtime's. *)
Inductive Exn : Type :=
| TypeError (msg : string)
| Thrown (v : Value)
| Native (member : string) (args : list Value).

Inductive Result (A : Type) : Type :=
| Ok (a : A)
| Throw (e : Exn).
Arguments Ok {A} a.
Arguments Throw {A} e.

(** A Redux action: a plain object with a [type]. *)
Record Action : Type := mkAction { atype : string; afields : Obj }.

Definition initAction : Action := mkAction "@@redux/INIT" [].

(** A Redux store as [registerReducer] leaves it: the reducer and current
    state are the store's own, [st_lastState] is the [lastState] variable
    captured by the one subscriber [registerReducer] installs. *)
Record Store : Type := mkStore {
  st_reducer : Value → Action → Value;
  st_state : Value;
  st_lastState : Value
}.

(** [createStateSelector( selector )]: a closure over the [store] constant of
    the [registerSelectors] call (undefined when no store was registered
    under the key) and the client's selector. *)
Record BoundSelect : Type := mkBoundSelect {
  bs_store : option nat;
  bs_selector : Value → list Value → Result Value
}.

(** An entry of [selectors[ reducerKey ]]: [{ select, effect? }]. *)
Record SelectorEntry : Type := mkSelectorEntry {
  se_select : BoundSelect;
  se_effect : option nat
}.

(** What a client passes for one selector: a function, or an object with a
    [select] function and possibly an [effect]. *)
Inductive SelectorSpec : Type :=
| SelFunction (f : Value → list Value → Result Value)
| SelObject (select : Value → list Value → Result Value) (effect : option nat).

(** An entry of [actions[ reducerKey ]]: [createBoundAction( action )], a
    closure over the [store] constant of the [registerActions] call. *)
Record ActionEntry : Type := mkActionEntry {
  ae_store : option nat;
  ae_creator : list Value → Result Action
}.

(** Functions that can sit on the listener bus, compared by identity:
    a client function, or the bound [runSelection] of a component
    instance. *)
Inductive fn : Type :=
| FExt (n : nat)
| FSelectRun (c : nat)
| FDataRun (c : nat).

Global Instance fn_eq_dec : EqDecision fn.
Proof. solve_decision. Defined.

(** ** Component instances *)

(** [select( reducerKey )[ name ]( ...args )] as seen by a mapping
    function. *)
Definition SelectFn : Type := string → string → list Value → Result Value.

(** The record a resolver function returns. *)
Record Resolver : Type := mkResolver {
  r_args : list Value;
  r_key : string;
  r_reducerKey : string
}.

(** [resolve( reducerKey )[ key ]( ...args )] as seen by a mapping
    function of [withData]. *)
Definition ResolveFn : Type := string → string → list Value → Result Resolver.

Record SelectInst : Type := mkSelectInst {
  si_mapStateToProps : SelectFn → Obj → Result (option Obj);
  si_props : Obj;
  si_mergeProps : option Obj;      (* this.state.mergeProps *)
  si_unsubscribe : option fn;      (* this.unsubscribe, by the listener it removes *)
  si_isUnmounting : bool;
  si_unmounted : bool              (* the renderer has unmounted the instance *)
}.

Record DataInst : Type := mkDataInst {
  di_mapStateToProps : ResolveFn → Obj → Result (Dict Resolver);
  di_props : Obj;
  di_state : Obj;
  di_resolvers : Dict Resolver;
  di_unsubscribe : option fn;
  di_unmounted : bool
}.

(** ** The world: module-level variables and the instances alive *)

Record World : Type := mkWorld {
  heap : list Store;                                   (* store objects by address *)
  stores : gmap string nat;
  selectors : gmap string (gmap string SelectorEntry);
  actions : gmap string (gmap string ActionEntry);
  listeners : list fn;
  selectInsts : list SelectInst;
  dataInsts : list DataInst
}.

Definition emptyWorld : World := mkWorld [] ∅ ∅ ∅ [] [] [].

(** ** Call trees *)

Inductive Event : Type :=
| EvGlobalListener (sub : list Event)
| EvListener (f : fn) (sub : list Event)
| EvEffect (reducerKey key : string) (args : list Value) (sub : list Event)
| EvSetStateSelect (c : nat) (unmounted : bool) (mergeProps : Obj)
| EvSetStateData (c : nat) (unmounted : bool) (newState : Obj).

(** ** The monad of module code: state, exceptions and the trace *)

Definition M (A : Type) : Type := World → Result A * World * list Event.

Definition ret {A} (a : A) : M A := fun w => (Ok a, w, []).

Definition bind {A B} (m : M A) (f : A → M B) : M B := fun w =>
  match m w with
  | (Ok a, w1, t1) => let '(r, w2, t2) := f a w1 in (r, w2, t1 ++ t2)
  | (Throw e, w1, t1) => (Throw e, w1, t1)
  end.

Definition throw {A} (e : Exn) : M A := fun w => (Throw e, w, []).

(** [p( ...args )] for a property [p] read from a plain object: [call] is
    what calling an own property does. *)
Definition callProperty {A B} (p : Property A) (call : A → M B)
    (args : list Value) : M B :=
  match p with
  | Own a => call a
  | Inherited member => throw (Native member args)
  | Undefined => throw (TypeError "not a function")
  end.
Definition emit (ev : Event) : M unit := fun w => (Ok tt, w, [ev]).
Definition getW : M World := fun w => (Ok w, w, []).
Definition modifyW (f : World → World) : M unit := fun w => (Ok tt, f w, []).
Definition liftR {A} (r : Result A) : M A := fun w => (r, w, []).

(** Run [m] as the body of a call that is recorded as one event. *)
Definition traced {A} (node : list Event → Event) (m : M A) : M A := fun w =>
  let '(r, w', t) := m w in (r, w', [node t]).

Declare Scope m_scope.
Delimit Scope m_scope with M.
Notation "'let*' x ':=' m 'in' k" := (bind m (fun x => k))
  (at level 10, x binder, m at level 100, k at level 200) : m_scope.
Local Open Scope m_scope.

Definition result_of {A} (x : Result A * World * list Event) : Result A := x.1.1.
Definition world_of {A} (x : Result A * World * list Event) : World := x.1.2.
Definition trace_of {A} (x : Result A * World * list Event) : list Event := x.2.

(** [array.forEach( f )] over the elements present at the start; a throw
    ends the loop. *)
Fixpoint forEach {A} (l : list A) (f : A → M unit) : M unit :=
  match l with
  | [] => ret tt
  | x :: l' => let* _ := f x in forEach l' f
  end.

(** [mapValues] with an iteratee that may throw or touch the world. *)
Fixpoint mapValuesM {A B} (o : Dict A) (f : A → string → M B) : M (Dict B) :=
  match o with
  | [] => ret []
  | (k, a) :: o' =>
      let* b := f a k in
      let* rest := mapValuesM o' f in
      ret ((k, b) :: rest)
  end.

(** ** The module's functions

    [ext n args] runs the client function number [n] on [args]: a listener
    put on the bus ([args] empty) or the [effect] of a selector. *)

(** The closure [subscribe] returns: it remembers the listener. *)
Inductive Unsubscribe : Type := UnsubscribeOf (listener : fn).

(** [options] of [registerStore]; an absent (falsy) member is [None]. *)
Record StoreOptions : Type := mkStoreOptions {
  opt_reducer : option (Value → Action → Value);
  opt_actions : option (gmap string (list Value → Result Action));
  opt_selectors : option (gmap string SelectorSpec)
}.

Definition set_heap (f : list Store → list Store) (w : World) : World :=
  mkWorld (f (heap w)) (stores w) (selectors w) (actions w) (listeners w)
          (selectInsts w) (dataInsts w).
Definition set_stores (f : gmap string nat → gmap string nat) (w : World) : World :=
  mkWorld (heap w) (f (stores w)) (selectors w) (actions w) (listeners w)
          (selectInsts w) (dataInsts w).
Definition set_selectors (f : gmap string (gmap string SelectorEntry) →
                              gmap string (gmap string SelectorEntry))
    (w : World) : World :=
  mkWorld (heap w) (stores w) (f (selectors w)) (actions w) (listeners w)
          (selectInsts w) (dataInsts w).
Definition set_actions (f : gmap string (gmap string ActionEntry) →
                            gmap string (gmap string ActionEntry))
    (w : World) : World :=
  mkWorld (heap w) (stores w) (selectors w) (f (actions w)) (listeners w)
          (selectInsts w) (dataInsts w).
Definition set_listeners (f : list fn → list fn) (w : World) : World :=
  mkWorld (heap w) (stores w) (selectors w) (actions w) (f (listeners w))
          (selectInsts w) (dataInsts w).
Definition set_selectInsts (f : list SelectInst → list SelectInst) (w : World) : World :=
  mkWorld (heap w) (stores w) (selectors w) (actions w) (listeners w)
          (f (selectInsts w)) (dataInsts w).
Definition set_dataInsts (f : list DataInst → list DataInst) (w : World) : World :=
  mkWorld (heap w) (stores w) (selectors w) (actions w) (listeners w)
          (selectInsts w) (f (dataInsts w)).

Section Model.

Variable ext : nat → list Value → M unit.

(** *** Store objects (Redux [createStore], without enhancer) *)

Definition getStore (l : nat) : M Store := fun w =>
  match heap w !! l with
  | Some s => ret s w
  | None => throw (TypeError "not a store") w
  end.

Definition setStore (l : nat) (s : Store) : M unit :=
  modifyW (set_heap (fun h => <[l:=s]> h)).

(** [store.getState()] *)
Definition getState (l : nat) : M Value :=
  let* s := getStore l in ret (st_state s).

(** *** The listener bus *)

(** [subscribe( listener )] *)
Definition subscribe (listener : fn) : M Unsubscribe :=
  let* _ := modifyW (set_listeners (fun ls => ls ++ [listener])) in
  ret (UnsubscribeOf listener).

(** Calling the closure returned by [subscribe]. *)
Definition unsubscribe (u : Unsubscribe) : M unit :=
  let 'UnsubscribeOf listener := u in
  modifyW (set_listeners (fun ls => without ls listener)).

(** *** Reading the registries *)

(** Calling a state-bound selector: [selector( store.getState(), ...args )]. *)
Definition callSelect (b : BoundSelect) (args : list Value) : M Value :=
  match bs_store b with
  | None => throw (TypeError "store is undefined")
  | Some l => let* state := getState l in liftR (bs_selector b state args)
  end.

(** [select( reducerKey )]: the own properties of the object [mapValues]
    returns.  Where [selectors[ reducerKey ]] is undefined or a member of
    [Object.prototype] there is no enumerable property to map, and the
    result is empty. *)
Definition select (reducerKey : string) (w : World) : gmap string BoundSelect :=
  se_select <$> default ∅ (selectors w !! reducerKey).

(** [dispatch( reducerKey )]: [actions[ reducerKey ]], [actions] being a
    plain object. *)
Definition dispatch (reducerKey : string) (w : World)
    : Property (gmap string ActionEntry) :=
  getProperty (actions w !! reducerKey) reducerKey.

(** [select( reducerKey )[ name ]( ...args )], the way a mapping function
    uses [select]. *)
Definition selectFn (w : World) : SelectFn := fun reducerKey name args =>
  result_of (callProperty (getProperty (select reducerKey w !! name) name)
                          (fun b => callSelect b args) args w).

(** [selectors[ reducerKey ][ key ]] *)
Definition selectorEntry (reducerKey key : string) : M SelectorEntry := fun w =>
  match selectors w !! reducerKey with
  | None => throw (TypeError "selectors[ reducerKey ] is undefined") w
  | Some m =>
      match m !! key with
      | None => throw (TypeError "selector is undefined") w
      | Some e => ret e w
      end
  end.

(** *** withSelect *)

Definition getSelectInst (c : nat) : M SelectInst := fun w =>
  match selectInsts w !! c with
  | Some i => ret i w
  | None => throw (TypeError "not an instance") w
  end.

Definition updSelectInst (c : nat) (f : SelectInst → SelectInst) : M unit :=
  modifyW (set_selectInsts (fun l => alter f c l)).

(** [constructor()]: a fresh instance with [state = {}]. *)
Definition Select_constructor
    (mapStateToProps : SelectFn → Obj → Result (option Obj)) (props : Obj)
    : M nat :=
  let* w := getW in
  let* _ := modifyW (set_selectInsts (fun l =>
              l ++ [mkSelectInst mapStateToProps props None None false false])) in
  ret (length (selectInsts w)).

(** [this.setState( { mergeProps } )].  The renderer drops an update on an
    instance it has unmounted; the call is recorded either way. *)
Definition Select_setState (c : nat) (mergeProps : Obj) : M unit :=
  let* i := getSelectInst c in
  let* _ := emit (EvSetStateSelect c (si_unmounted i) mergeProps) in
  if si_unmounted i then ret tt
  else updSelectInst c (fun i =>
         mkSelectInst (si_mapStateToProps i) (si_props i) (Some mergeProps)
                      (si_unsubscribe i) (si_isUnmounting i) (si_unmounted i)).

(** [runSelection( props = this.props )] *)
Definition Select_runSelection (c : nat) (props : option Obj) : M unit :=
  let* i := getSelectInst c in
  if si_isUnmounting i then ret tt
  else
    let props := default (si_props i) props in
    let mergeProps := si_mergeProps i in
    let* w := getW in
    let* r := liftR (si_mapStateToProps i (selectFn w) props) in
    let nextMergeProps := default [] r in
    if negb (isShallowEqualOpt nextMergeProps mergeProps)
    then Select_setState c nextMergeProps
    else ret tt.

(** [subscribe()] of the instance *)
Definition Select_subscribe (c : nat) : M unit :=
  let* u := subscribe (FSelectRun c) in
  let 'UnsubscribeOf f := u in
  updSelectInst c (fun i =>
    mkSelectInst (si_mapStateToProps i) (si_props i) (si_mergeProps i)
                 (Some f) (si_isUnmounting i) (si_unmounted i)).

Definition Select_componentWillMount (c : nat) : M unit :=
  let* _ := Select_subscribe c in
  Select_runSelection c None.

Definition Select_componentWillReceiveProps (c : nat) (nextProps : Obj) : M unit :=
  let* i := getSelectInst c in
  if negb (isShallowEqual nextProps (si_props i))
  then Select_runSelection c (Some nextProps)
  else ret tt.

Definition Select_componentWillUnmount (c : nat) : M unit :=
  let* i := getSelectInst c in
  let* _ := match si_unsubscribe i with
            | Some f => unsubscribe (UnsubscribeOf f)
            | None => throw (TypeError "this.unsubscribe is not a function")
            end in
  updSelectInst c (fun i =>
    mkSelectInst (si_mapStateToProps i) (si_props i) (si_mergeProps i)
                 (si_unsubscribe i) true (si_unmounted i)).

(** *** withData *)

Definition getDataInst (c : nat) : M DataInst := fun w =>
  match dataInsts w !! c with
  | Some i => ret i w
  | None => throw (TypeError "not an instance") w
  end.

Definition updDataInst (c : nat) (f : DataInst → DataInst) : M unit :=
  modifyW (set_dataInsts (fun l => alter f c l)).

(** [constructor()]: [state = {}], [resolvers = {}]. *)
Definition Data_constructor
    (mapStateToProps : ResolveFn → Obj → Result (Dict Resolver)) (props : Obj)
    : M nat :=
  let* w := getW in
  let* _ := modifyW (set_dataInsts (fun l =>
              l ++ [mkDataInst mapStateToProps props [] [] None false])) in
  ret (length (dataInsts w)).

(** [this.setState( newState )]: the update is merged into the state.  The
    state is written at once, as for a call made from a notification; the
    renderer holds back an update made during [componentWillMount] or
    [componentWillReceiveProps] until that call returns, which shows only
    when the instance selects twice within one such call (an effect that
    dispatches). *)
Definition Data_setState (c : nat) (newState : Obj) : M unit :=
  let* i := getDataInst c in
  let* _ := emit (EvSetStateData c (di_unmounted i) newState) in
  if di_unmounted i then ret tt
  else updDataInst c (fun i =>
         mkDataInst (di_mapStateToProps i) (di_props i)
                    (spread (di_state i) newState) (di_resolvers i)
                    (di_unsubscribe i) (di_unmounted i)).

(** [runSelection()] *)
Definition Data_runSelection (c : nat) : M unit :=
  let* i := getDataInst c in
  let* newState := mapValuesM (di_resolvers i) (fun r _ =>
                     let* selector := selectorEntry (r_reducerKey r) (r_key r) in
                     callSelect (se_select selector) (r_args r)) in
  let* i := getDataInst c in
  if negb (isShallowEqual newState (di_state i))
  then Data_setState c newState
  else ret tt.

Definition Data_subscribe (c : nat) : M unit :=
  let* u := subscribe (FDataRun c) in
  let 'UnsubscribeOf f := u in
  updDataInst c (fun i =>
    mkDataInst (di_mapStateToProps i) (di_props i) (di_state i)
               (di_resolvers i) (Some f) (di_unmounted i)).

(** The local [resolve] of [resolve( props )], the way a mapping function
    uses it: [resolve( reducerKey )[ key ]( ...args )]. *)
Definition resolveFn (w : World) : ResolveFn := fun reducerKey key args =>
  match getProperty (default ∅ (selectors w !! reducerKey) !! key) key with
  | Own _ => Ok (mkResolver args key reducerKey)
  | Inherited member => Throw (Native member args)
  | Undefined => Throw (TypeError "not a function")
  end.

(** [resolve( props )] *)
Definition Data_resolve (c : nat) (props : Obj) : M (Dict Resolver) :=
  let* i := getDataInst c in
  let* w := getW in
  liftR (di_mapStateToProps i (resolveFn w) props).

(** The predicate given to [omitBy] in [runResolvers]. *)
Definition sameResolver (previous : Dict Resolver) (resolver : Resolver)
    (key : string) : bool :=
  match get previous key with
  | None => false
  | Some previousResolver =>
      bool_decide (r_key previousResolver = r_key resolver)
      && isShallowEqualArgs (r_args previousResolver) (r_args resolver)
  end.

(** [runSideEffects( resolvers )] *)
Definition Data_runSideEffects (resolvers : Dict Resolver) : M unit :=
  forEach resolvers (fun kr =>
    let r := kr.2 in
    let* selector := selectorEntry (r_reducerKey r) (r_key r) in
    match se_effect selector with
    | Some n => traced (EvEffect (r_reducerKey r) (r_key r) (r_args r))
                       (ext n (r_args r))
    | None => ret tt
    end).

(** [runResolvers( props = this.props )] *)
Definition Data_runResolvers (c : nat) (props : option Obj) : M unit :=
  let* i := getDataInst c in
  let props := default (di_props i) props in
  let* resolvers := Data_resolve c props in
  let* i := getDataInst c in
  let newResolvers := omitBy (sameResolver (di_resolvers i)) resolvers in
  let* _ := updDataInst c (fun i =>
              mkDataInst (di_mapStateToProps i) (di_props i) (di_state i)
                         resolvers (di_unsubscribe i) (di_unmounted i)) in
  let* _ := Data_runSideEffects newResolvers in
  Data_runSelection c.

Definition Data_componentWillMount (c : nat) : M unit :=
  let* _ := Data_subscribe c in
  Data_runResolvers c None.

Definition Data_componentWillReceiveProps (c : nat) (nextProps : Obj) : M unit :=
  let* i := getDataInst c in
  if negb (isShallowEqual nextProps (di_props i))
  then Data_runResolvers c (Some nextProps)
  else ret tt.

Definition Data_componentWillUnmount (c : nat) : M unit :=
  let* i := getDataInst c in
  match di_unsubscribe i with
  | Some f => unsubscribe (UnsubscribeOf f)
  | None => throw (TypeError "this.unsubscribe is not a function")
  end.

(** *** Notification *)

(** One listener of the bus being called. *)
Definition callListener (listener : fn) : M unit :=
  traced (EvListener listener)
    match listener with
    | FExt n => ext n []
    | FSelectRun c => Select_runSelection c None
    | FDataRun c => Data_runSelection c
    end.

(** [globalListener()].  [forEach] walks the array that [listeners] names
    when the call starts, up to the length it has then; [subscribe] only
    appends to that array and the unsubscribe closure rebinds [listeners] to
    a new array, so the elements walked are those present at the start. *)
Definition globalListener : M unit :=
  traced EvGlobalListener
    (let* w := getW in forEach (listeners w) callListener).

(** *** Stores *)

(** The subscriber [registerReducer] adds to the store. *)
Definition storeSubscriber (l : nat) : M unit :=
  let* s := getStore l in
  let state := st_state s in
  let hasChanged := negb (strict_eq state (st_lastState s)) in
  let* _ := setStore l (mkStore (st_reducer s) (st_state s) state) in
  if hasChanged then globalListener else ret tt.

(** [store.dispatch( action )]: the reducer computes the next state, then
    the store's subscribers run. *)
Definition store_dispatch (l : nat) (action : Action) : M Action :=
  let* s := getStore l in
  let* _ := setStore l (mkStore (st_reducer s)
                                (st_reducer s (st_state s) action)
                                (st_lastState s)) in
  let* _ := storeSubscriber l in
  ret action.

(** [registerReducer( reducerKey, reducer )], in a host without the
    devtools extension.  [createStore] sends the reducer its init action. *)
Definition registerReducer (reducerKey : string)
    (reducer : Value → Action → Value) : M nat :=
  let* w := getW in
  let store := length (heap w) in
  let state := reducer VUndefined initAction in
  let* _ := modifyW (set_heap (fun h => h ++ [mkStore reducer state state])) in
  let* _ := modifyW (set_stores (fun m => <[reducerKey:=store]> m)) in
  ret store.

(** [registerSelectors( reducerKey, newSelectors )] *)
Definition registerSelectors (reducerKey : string)
    (newSelectors : gmap string SelectorSpec) : M unit :=
  let* w := getW in
  let store := stores w !! reducerKey in
  let createStateSelector selector := mkBoundSelect store selector in
  modifyW (set_selectors (fun m =>
    <[reducerKey := (fun selector =>
        match selector with
        | SelFunction f => mkSelectorEntry (createStateSelector f) None
        | SelObject f effect => mkSelectorEntry (createStateSelector f) effect
        end) <$> newSelectors]> m)).

(** [registerActions( reducerKey, newActions )] *)
Definition registerActions (reducerKey : string)
    (newActions : gmap string (list Value → Result Action)) : M unit :=
  let* w := getW in
  let store := stores w !! reducerKey in
  modifyW (set_actions (fun m =>
    <[reducerKey := mkActionEntry store <$> newActions]> m)).

(** [registerStore( reducerKey, options )] *)
Definition registerStore (reducerKey : string) (options : StoreOptions) : M nat :=
  match opt_reducer options with
  | None => throw (TypeError "Must specify store reducer")
  | Some reducer =>
      let* store := registerReducer reducerKey reducer in
      let* _ := match opt_actions options with
                | Some newActions => registerActions reducerKey newActions
                | None => ret tt
                end in
      let* _ := match opt_selectors options with
                | Some newSelectors => registerSelectors reducerKey newSelectors
                | None => ret tt
                end in
      ret store
  end.

(** Calling a bound action: [store.dispatch( action( ...args ) )].  The
    method is read from the store before the arguments are evaluated, so
    with no store the creator is not called. *)
Definition callAction (e : ActionEntry) (args : list Value) : M Action :=
  match ae_store e with
  | None => throw (TypeError "store is undefined")
  | Some l =>
      let* action := liftR (ae_creator e args) in
      store_dispatch l action
  end.

(** [dispatch( reducerKey )[ name ]( ...args )] *)
Definition dispatchAction (reducerKey name : string) (args : list Value)
    : M Action :=
  let* w := getW in
  match dispatch reducerKey w with
  | Undefined => throw (TypeError "dispatch( reducerKey ) is undefined")
  | Inherited member => throw (Native member [VStr name])
  | Own m =>
      callProperty (getProperty (m !! name) name)
                   (fun e => callAction e args) args
  end.

(** [select( reducerKey )[ name ]( ...args )] *)
Definition selectValue (reducerKey name : string) (args : list Value)
    : M Value :=
  let* w := getW in
  callProperty (getProperty (select reducerKey w !! name) name)
               (fun b => callSelect b args) args.

(** *** What the renderer does with an instance *)

Definition Select_mount
    (mapStateToProps : SelectFn → Obj → Result (option Obj)) (props : Obj)
    : M nat :=
  let* c := Select_constructor mapStateToProps props in
  let* _ := Select_componentWillMount c in
  ret c.

Definition Select_update (c : nat) (nextProps : Obj) : M unit :=
  let* _ := Select_componentWillReceiveProps c nextProps in
  updSelectInst c (fun i =>
    mkSelectInst (si_mapStateToProps i) nextProps (si_mergeProps i)
                 (si_unsubscribe i) (si_isUnmounting i) (si_unmounted i)).

Definition Select_unmount (c : nat) : M unit :=
  let* _ := Select_componentWillUnmount c in
  updSelectInst c (fun i =>
    mkSelectInst (si_mapStateToProps i) (si_props i) (si_mergeProps i)
                 (si_unsubscribe i) (si_isUnmounting i) true).

Definition Data_mount
    (mapStateToProps : ResolveFn → Obj → Result (Dict Resolver)) (props : Obj)
    : M nat :=
  let* c := Data_constructor mapStateToProps props in
  let* _ := Data_componentWillMount c in
  ret c.

Definition Data_update (c : nat) (nextProps : Obj) : M unit :=
  let* _ := Data_componentWillReceiveProps c nextProps in
  updDataInst c (fun i =>
    mkDataInst (di_mapStateToProps i) nextProps (di_state i)
               (di_resolvers i) (di_unsubscribe i) (di_unmounted i)).

Definition Data_unmount (c : nat) : M unit :=
  let* _ := Data_componentWillUnmount c in
  updDataInst c (fun i =>
    mkDataInst (di_mapStateToProps i) (di_props i) (di_state i)
               (di_resolvers i) (di_unsubscribe i) true).

End Model.

(** *** withDispatch

    An instance keeps [proxyProps], a map from prop name to a function made
    by [this.proxyDispatch.bind( this, propName )].  Bound functions are
    compared by identity: [dp_bound] lists the ones the instance has made,
    each with the prop name it was bound with, and a function is referred to
    by its position in that list. *)

(** A dispatcher as a mapping function returns it. *)
Definition Dispatcher : Type := list Value → M unit.

(** [dispatch( reducerKey )] as seen by a mapping function. *)
Definition DispatchFn : Type := string → Property (gmap string ActionEntry).

Record DispatchInst : Type := mkDispatchInst {
  dp_props : Obj;
  dp_proxyProps : Dict nat;
  dp_bound : list string
}.

Section WithDispatch.

Variable mapDispatchToProps : DispatchFn → Obj → Result (Dict Dispatcher).

Definition dispatchFn (w : World) : DispatchFn := fun reducerKey =>
  dispatch reducerKey w.

(** [constructor()] *)
Definition Dispatch_constructor (props : Obj) : DispatchInst :=
  mkDispatchInst props [] [].

(** [proxyDispatch( propName, ...args )]; it returns nothing. *)
Definition Dispatch_proxyDispatch (i : DispatchInst) (propName : string)
    (args : list Value) : M unit :=
  let* w := getW in
  let* propsToDispatchers := liftR (mapDispatchToProps (dispatchFn w) (dp_props i)) in
  callProperty (getProperty (get propsToDispatchers propName) propName)
               (fun dispatcher : Dispatcher => dispatcher args) args.

(** Calling a bound function of the instance. *)
Definition Dispatch_callProxy (i : DispatchInst) (f : nat) (args : list Value)
    : M unit :=
  match dp_bound i !! f with
  | Some propName => Dispatch_proxyDispatch i propName args
  | None => throw (TypeError "not a function")
  end.

(** [this.proxyProps.hasOwnProperty( propName )].  The method is looked up
    on [proxyProps] itself: it is the one of [Object.prototype] unless
    [proxyProps] has a callback under the name [hasOwnProperty], and then
    that callback is what is called, with the prop name as its argument; a
    callback returns [undefined]. *)
Definition Dispatch_hasOwnProperty (i : DispatchInst) (propName : string)
    : M bool :=
  match get (dp_proxyProps i) "hasOwnProperty" with
  | None => ret (hasOwnProperty (dp_proxyProps i) propName)
  | Some f =>
      let* _ := Dispatch_callProxy i f [VStr propName] in
      ret false
  end.

(** The [mapValues] of [setProxyProps], its iteratee run over the prop
    names in order.  [i] is the instance during the loop ([this.proxyProps]
    is assigned once the loop is over), [bound] the functions made so far. *)
Fixpoint Dispatch_bindProxies (i : DispatchInst) (propNames : list string)
    (bound : list string) : M (Dict nat * list string) :=
  match propNames with
  | [] => ret ([], bound)
  | propName :: rest =>
      let* has := Dispatch_hasOwnProperty i propName in
      match (if has then get (dp_proxyProps i) propName else None) with
      | Some f =>
          let* rb := Dispatch_bindProxies i rest bound in
          ret ((propName, f) :: rb.1, rb.2)
      | None =>
          let* rb := Dispatch_bindProxies i rest (bound ++ [propName]) in
          ret ((propName, length bound) :: rb.1, rb.2)
      end
  end.

(** [setProxyProps( props )] *)
Definition Dispatch_setProxyProps (props : Obj) (i : DispatchInst)
    : M DispatchInst :=
  let* w := getW in
  let* propsToDispatchers := liftR (mapDispatchToProps (dispatchFn w) props) in
  let* rb := Dispatch_bindProxies i (keys propsToDispatchers) (dp_bound i) in
  ret (mkDispatchInst (dp_props i) rb.1 rb.2).

Definition Dispatch_componentWillMount (i : DispatchInst) : M DispatchInst :=
  Dispatch_setProxyProps (dp_props i) i.

Definition Dispatch_componentWillUpdate (nextProps : Obj) (i : DispatchInst)
    : M DispatchInst :=
  Dispatch_setProxyProps nextProps i.

(** The props [render()] hands to the wrapped component:
    [{ ...this.props, ...this.proxyProps }]. *)
Definition Dispatch_render (i : DispatchInst) : Dict (Value + nat) :=
  spread (mapValues (fun v _ => inl v) (dp_props i))
         (mapValues (fun f _ => inr f) (dp_proxyProps i)).

(** The renderer mounting the component, and re-rendering it with new props
    ([componentWillUpdate] runs before [this.props] is replaced). *)
Definition Dispatch_mount (props : Obj) : M DispatchInst :=
  Dispatch_componentWillMount (Dispatch_constructor props).

Definition Dispatch_update (nextProps : Obj) (i : DispatchInst)
    : M DispatchInst :=
  let* i' := Dispatch_componentWillUpdate nextProps i in
  ret (mkDispatchInst nextProps (dp_proxyProps i') (dp_bound i')).

End WithDispatch.

(** * Vocabulary of the properties *)

(** ** Reading traces *)

(** The listeners a notification called, in the order of the calls. *)
Definition calledListeners (t : list Event) : list fn :=
  omap (fun e => match e with EvListener f _ => Some f | _ => None end) t.

(** How many times [globalListener] was entered directly by the call whose
    trace is [t] (calls nested in a listener are inside the event). *)
Definition firings (t : list Event) : nat :=
  length (omap (fun e => match e with EvGlobalListener _ => Some tt | _ => None end) t).

(** The effects a call invoked directly, in order. *)
Definition effectCalls (t : list Event) : list (string * string * list Value) :=
  omap (fun e => match e with
                 | EvEffect reducerKey key args _ => Some (reducerKey, key, args)
                 | _ => None
                 end) t.

(** The state updates a call applied, at any depth, to [withData] instance
    [c] after the renderer had unmounted it. *)
Fixpoint staleDataUpdates (c : nat) (e : Event) : nat :=
  match e with
  | EvGlobalListener sub | EvListener _ sub | EvEffect _ _ _ sub =>
      (fix go (l : list Event) : nat :=
         match l with [] => 0 | x :: l' => staleDataUpdates c x + go l' end) sub
  | EvSetStateData c' unmounted _ =>
      if bool_decide (c' = c) && unmounted then 1 else 0
  | EvSetStateSelect _ _ _ => 0
  end.

(** Likewise for [withSelect] instance [c]. *)
Fixpoint staleSelectUpdates (c : nat) (e : Event) : nat :=
  match e with
  | EvGlobalListener sub | EvListener _ sub | EvEffect _ _ _ sub =>
      (fix go (l : list Event) : nat :=
         match l with [] => 0 | x :: l' => staleSelectUpdates c x + go l' end) sub
  | EvSetStateSelect c' unmounted _ =>
      if bool_decide (c' = c) && unmounted then 1 else 0
  | EvSetStateData _ _ _ => 0
  end.

(** The same for a trace. *)
Definition staleDataUpdatesIn (c : nat) (t : list Event) : nat :=
  sum_list_with (staleDataUpdates c) t.

Definition staleSelectUpdatesIn (c : nat) (t : list Event) : nat :=
  sum_list_with (staleSelectUpdates c) t.

(** ** Predicates on worlds and calls *)

(** The registries and the store objects, without the bus and the
    component instances. *)
Definition registry (w : World) :=
  (heap w, stores w, selectors w, actions w).

(** The call [m] keeps [P]. *)
Definition preserves {A} (P : World → Prop) (m : M A) : Prop :=
  ∀ w, P w → P (world_of (m w)).

(** [P] looks at the registries and store objects only. *)
Definition registry_only (P : World → Prop) : Prop :=
  ∀ w w', registry w = registry w' → P w → P w'.

(** Between two dispatches the [lastState] of every subscriber is the state
    of its store. *)
Definition settled (w : World) : Prop :=
  ∀ l s, heap w !! l = Some s → st_lastState s = st_state s.

(** The store at [l] exists and the world is settled. *)
Definition registered (l : nat) (w : World) : Prop :=
  settled w ∧ l < length (heap w).

(** A series of actions dispatched to the store at [l].  For each dispatch:
    the state before it, the state its reducer returned, and how many times
    the dispatch entered [globalListener]. *)
Fixpoint dispatchSeq (ext : nat → list Value → M unit) (l : nat)
    (actions : list Action) (w : World) : list (Value * Value * nat) :=
  match actions with
  | [] => []
  | action :: rest =>
      match heap w !! l with
      | None => []
      | Some s =>
          let r := store_dispatch ext l action w in
          (st_state s, st_reducer s (st_state s) action, firings (trace_of r))
          :: dispatchSeq ext l rest (world_of r)
      end
  end.

(** ** The store of the running example *)

(** The store of the example: [getValue] reads [state.value], [setValue]
    makes a [SET] action. *)
Definition getValue : Value → list Value → Result Value := fun state _ =>
  match prop state "value" with
  | Some v => Ok v
  | None => Throw (TypeError "cannot read property of undefined")
  end.

Definition setValue : list Value → Result Action := fun args =>
  Ok (mkAction "SET" [("value", default VUndefined (args !! 0))]).

Definition addrOf (v : Value) : nat :=
  match v with VObj a _ => a | _ => 0 end.

(** [( state = {}, action ) => action.type === 'SET' ?
      { value: action.value } : state]; the object made for a [SET] gets an
    address no earlier state had. *)
Definition valueReducer (state : Value) (action : Action) : Value :=
  if bool_decide (atype action = "SET")
  then VObj (S (addrOf state))
            [("value", default VUndefined (get (afields action) "value"))]
  else match state with VUndefined => VObj 0 [] | _ => state end.

Definition valueStore (reducer : Value → Action → Value) : StoreOptions :=
  mkStoreOptions (Some reducer)
                 (Some {["setValue" := setValue]})
                 (Some {["getValue" := SelFunction getValue]}).

(** Client functions that leave store objects and registries alone. *)
Definition quiet (ext : nat → list Value → M unit) : Prop :=
  ∀ n args w, registry (world_of (ext n args w)) = registry w.

(** ** Histories of calls *)

(** A call a client can make: the module's exported functions, the closures
    it hands out, the store objects [registerReducer] returns, and what the
    renderer does with wrapped components. *)
Inductive Op : Type :=
| OpRegisterStore (reducerKey : string) (options : StoreOptions)
| OpRegisterReducer (reducerKey : string) (reducer : Value → Action → Value)
| OpRegisterSelectors (reducerKey : string) (newSelectors : gmap string SelectorSpec)
| OpRegisterActions (reducerKey : string)
    (newActions : gmap string (list Value → Result Action))
| OpSubscribe (listener : fn)
| OpUnsubscribe (u : Unsubscribe)
| OpSelect (reducerKey name : string) (args : list Value)
| OpDispatch (reducerKey name : string) (args : list Value)
| OpStoreDispatch (store : nat) (action : Action)
| OpGlobalListener
| OpSelectMount (mapStateToProps : SelectFn → Obj → Result (option Obj)) (props : Obj)
| OpSelectUpdate (c : nat) (nextProps : Obj)
| OpSelectUnmount (c : nat)
| OpDataMount (mapStateToProps : ResolveFn → Obj → Result (Dict Resolver)) (props : Obj)
| OpDataUpdate (c : nat) (nextProps : Obj)
| OpDataUnmount (c : nat).

Definition discard {A} (m : M A) : M unit := let* _ := m in ret tt.

Definition runOp (ext : nat → list Value → M unit) (op : Op) : M unit :=
  match op with
  | OpRegisterStore reducerKey options => discard (registerStore reducerKey options)
  | OpRegisterReducer reducerKey reducer => discard (registerReducer reducerKey reducer)
  | OpRegisterSelectors reducerKey newSelectors =>
      registerSelectors reducerKey newSelectors
  | OpRegisterActions reducerKey newActions => registerActions reducerKey newActions
  | OpSubscribe listener => discard (subscribe listener)
  | OpUnsubscribe u => unsubscribe u
  | OpSelect reducerKey name args => discard (selectValue reducerKey name args)
  | OpDispatch reducerKey name args => discard (dispatchAction ext reducerKey name args)
  | OpStoreDispatch store action => discard (store_dispatch ext store action)
  | OpGlobalListener => globalListener ext
  | OpSelectMount mapStateToProps props => discard (Select_mount mapStateToProps props)
  | OpSelectUpdate c nextProps => Select_update c nextProps
  | OpSelectUnmount c => Select_unmount c
  | OpDataMount mapStateToProps props => discard (Data_mount ext mapStateToProps props)
  | OpDataUpdate c nextProps => Data_update ext c nextProps
  | OpDataUnmount c => Data_unmount c
  end.

(** The world after a history of calls, each caller going on after an
    exception. *)
Fixpoint runOps (ext : nat → list Value → M unit) (ops : list Op) (w : World)
    : World :=
  match ops with
  | [] => w
  | op :: rest => runOps ext rest (world_of (runOp ext op w))
  end.

(** Client functions given by a table: function [n], called with [args] in
    the world [w], makes the calls [table n args w] one after the other, an
    exception ending it.  These calls may notify listeners, which are client
    functions again; [clientFn table k] follows this nesting [k] deep, the
    functions below that depth doing nothing. *)
Fixpoint clientFn (table : nat → list Value → World → list Op) (k : nat)
    : nat → list Value → M unit :=
  match k with
  | 0 => fun _ _ => ret tt
  | S k' => fun n args w =>
      forEach (table n args w) (runOp (clientFn table k')) w
  end.

(** The call registers selectors under [reducerKey]. *)
Definition registersSelectors (reducerKey : string) (op : Op) : bool :=
  match op with
  | OpRegisterSelectors k _ => bool_decide (k = reducerKey)
  | OpRegisterStore k options =>
      bool_decide (k = reducerKey)
      && match opt_reducer options, opt_selectors options with
         | Some _, Some _ => true
         | _, _ => false
         end
  | _ => false
  end.

(** The call registers actions under [reducerKey]. *)
Definition registersActions (reducerKey : string) (op : Op) : bool :=
  match op with
  | OpRegisterActions k _ => bool_decide (k = reducerKey)
  | OpRegisterStore k options =>
      bool_decide (k = reducerKey)
      && match opt_reducer options, opt_actions options with
         | Some _, Some _ => true
         | _, _ => false
         end
  | _ => false
  end.

Definition noSelectors (reducerKey : string) (w : World) : Prop :=
  selectors w !! reducerKey = None.

Definition noActions (reducerKey : string) (w : World) : Prop :=
  actions w !! reducerKey = None.

(** [P] looks at the selector and action registries only. *)
Definition bindings_only (P : World → Prop) : Prop :=
  ∀ w w', selectors w = selectors w' → actions w = actions w' → P w → P w'.

(** What the loop of [setProxyProps] computes as long as [proxyProps] has
    no callback named [hasOwnProperty]: a name that [old] has keeps its
    function, every other name gets a new one. *)
Fixpoint bindProxies (old : Dict nat) (propNames : list string)
    (bound : list string) : Dict nat * list string :=
  match propNames with
  | [] => ([], bound)
  | propName :: rest =>
      match get old propName with
      | Some f =>
          let '(r, b) := bindProxies old rest bound in ((propName, f) :: r, b)
      | None =>
          let '(r, b) := bindProxies old rest (bound ++ [propName]) in
          ((propName, length bound) :: r, b)
      end
  end.

(** A series of re-renders, each in the world of its time. *)
Fixpoint Dispatch_updates
    (mapDispatchToProps : DispatchFn → Obj → Result (Dict Dispatcher))
    (us : list (World * Obj)) (i : DispatchInst) : Result DispatchInst :=
  match us with
  | [] => Ok i
  | (w, nextProps) :: us' =>
      match result_of (Dispatch_update mapDispatchToProps nextProps i w) with
      | Throw e => Throw e
      | Ok i' => Dispatch_updates mapDispatchToProps us' i'
      end
  end.

(** The resolvers kept by the [withData] instance [c] are [rs]. *)
Definition resolversAt (c : nat) (rs : Dict Resolver) (w : World) : Prop :=
  ∃ i, dataInsts w !! c = Some i ∧ di_resolvers i = rs.

(** Every callback in [proxyProps] was bound with the name it is under. *)
Definition proxiesBound (i : DispatchInst) : Prop :=
  ∀ k f, get (dp_proxyProps i) k = Some f → dp_bound i !! f = Some k.

(** The callbacks of [i] are under names of [K] only, those of the names in
    [K] are the ones of [i0], and all are well bound. *)
Definition sameCallbacks (K : list string) (i0 i : DispatchInst) : Prop :=
  proxiesBound i
  ∧ (∀ k, k ∈ keys (dp_proxyProps i) → k ∈ K)
  ∧ ∀ k, k ∈ K →
      ∃ f, get (dp_proxyProps i0) k = Some f ∧ get (dp_proxyProps i) k = Some f.

(** The effect calls [runSideEffects] makes for the resolvers [rs], given
    the selector registry: one for each resolver whose selector has an
    effect, in the order of the prop keys. *)
Definition effectsOf (sels : gmap string (gmap string SelectorEntry))
    (rs : Dict Resolver) : list (string * string * list Value) :=
  omap (fun kr : string * Resolver =>
          let r := kr.2 in
          match sels !! r_reducerKey r with
          | None => None
          | Some m =>
              match m !! r_key r with
              | None => None
              | Some selector =>
                  match se_effect selector with
                  | Some _ => Some (r_reducerKey r, r_key r, r_args r)
                  | None => None
                  end
              end
          end) rs.

(** A call that records nothing. *)
Definition silent {A} (m : M A) : Prop := ∀ w, trace_of (m w) = [].

(** ** Example clients and scenes *)

(** Client functions that do nothing. *)
Definition extIdle : nat → list Value → M unit := fun _ _ => ret tt.

(** A store under ["k"] whose selector [getX] has an effect. *)
Definition effectStore : StoreOptions :=
  mkStoreOptions (Some valueReducer) None
                 (Some {["getX" := SelObject getValue (Some 7)]}).

Definition effectWorld : World :=
  world_of (registerStore "k" effectStore emptyWorld).

(** [( resolve ) => ( { a: resolve( 'k' ).getX( 1 ), b: resolve( 'k' ).getX( 1 ) } )] *)
Definition twoProps : ResolveFn → Obj → Result (Dict Resolver) :=
  fun resolve _ =>
    match resolve "k" "getX" [VNum 1], resolve "k" "getX" [VNum 1] with
    | Ok a, Ok b => Ok [("a", a); ("b", b)]
    | Throw e, _ | _, Throw e => Throw e
    end.

(** C2 read literally, at mount: no (selector key, arguments) pair has its
    effect called twice. *)
Definition effect_once_per_pair : Prop :=
  ∀ ext mapStateToProps props w,
    NoDup (map (fun call : string * string * list Value => (call.1.2, call.2))
               (effectCalls (trace_of (Data_mount ext mapStateToProps props w)))).

(** The scene of an unmount during a notification: a store under ["key"],
    a listener subscribed first (a parent), then a mounted component reading
    [getValue]; the first listener, when notified, has the renderer unmount
    the component. *)
Definition readValue : ResolveFn → Obj → Result (Dict Resolver) :=
  fun resolve _ =>
    match resolve "key" "getValue" [] with
    | Ok r => Ok [("value", r)]
    | Throw e => Throw e
    end.

Definition selectValueProp : SelectFn → Obj → Result (option Obj) :=
  fun select _ =>
    match select "key" "getValue" [] with
    | Ok v => Ok (Some [("value", v)])
    | Throw e => Throw e
    end.

Definition extUnmountData : nat → list Value → M unit := fun n _ =>
  match n with
  | 0 => Data_unmount 0
  | _ => ret tt
  end.

Definition extUnmountSelect : nat → list Value → M unit := fun n _ =>
  match n with
  | 0 => Select_unmount 0
  | _ => ret tt
  end.

Definition dataScene : World :=
  runOps extUnmountData
    [OpRegisterStore "key" (valueStore valueReducer);
     OpSubscribe (FExt 0);
     OpDataMount readValue []]
    emptyWorld.

Definition selectScene : World :=
  runOps extUnmountSelect
    [OpRegisterStore "key" (valueStore valueReducer);
     OpSubscribe (FExt 0);
     OpSelectMount selectValueProp []]
    emptyWorld.

(** A store under ["key"] with [getValue] and [setValue], nothing else. *)
Definition valueWorld : World :=
  world_of (registerStore "key" (valueStore valueReducer) emptyWorld).

Definition setAction (n : Z) : Action := mkAction "SET" [("value", VNum n)].
Definition otherAction : Action := mkAction "OTHER" [].

(** A listener that answers a state holding 1 by dispatching
    [setValue( 2 )], and the store with that listener subscribed. *)
Definition answerTable : nat → list Value → World → list Op := fun n _ w =>
  match n, heap w !! 0 with
  | 0, Some s =>
      match prop (st_state s) "value" with
      | Some (VNum 1) => [OpDispatch "key" "setValue" [VNum 2]]
      | _ => []
      end
  | _, _ => []
  end.

Definition extAnswer : nat → list Value → M unit := clientFn answerTable 3.

Definition answerWorld : World :=
  runOps extAnswer
    [OpRegisterStore "key" (valueStore valueReducer); OpSubscribe (FExt 0)]
    emptyWorld.

(** A bus of three listeners, the second of which throws. *)
Definition extThrow : nat → list Value → M unit := fun n _ =>
  match n with
  | 1 => throw (Thrown (VStr "boom"))
  | _ => ret tt
  end.

Definition busWorld : World :=
  runOps extThrow
    [OpRegisterReducer "key" valueReducer;
     OpSubscribe (FExt 0); OpSubscribe (FExt 1); OpSubscribe (FExt 2)]
    emptyWorld.

(** [busWorld] right after the reducer of its store has handled
    [setAction 5], before the subscriber of the store runs. *)
Definition busWorldReduced : World :=
  let s := mkStore valueReducer (VObj 0 []) (VObj 0 []) in
  let next := st_reducer s (st_state s) (setAction 5) in
  set_heap (fun h => <[0:=mkStore (st_reducer s) next next]> h)
    (set_heap (fun h => <[0:=mkStore (st_reducer s) next (st_lastState s)]> h)
       busWorld).

(** [( dispatch ) => ( { onChange: dispatch( 'key' ).setValue } )] *)
Definition onChangeProps : DispatchFn → Obj → Result (Dict Dispatcher) :=
  fun dispatch _ =>
    match dispatch "key" with
    | Own m =>
        match m !! "setValue" with
        | None => Throw (TypeError "not a function")
        | Some e => Ok [("onChange", fun args => discard (callAction extIdle e args))]
        end
    | _ => Throw (TypeError "dispatch( reducerKey ) is undefined")
    end.

(** [() => ( { hasOwnProperty: noop, onChange: noop } )]: a mapping
    function one of whose prop names is [hasOwnProperty]. *)
Definition shadowProps : DispatchFn → Obj → Result (Dict Dispatcher) :=
  fun _ _ => Ok [("hasOwnProperty", fun _ => ret tt); ("onChange", fun _ => ret tt)].

(** [( resolve, props ) => ( { x: resolve( 'k' ).getX( props.id ) } )] *)
Definition idProps : ResolveFn → Obj → Result (Dict Resolver) :=
  fun resolve props =>
    match resolve "k" "getX" [default VUndefined (get props "id")] with
    | Ok r => Ok [("x", r)]
    | Throw e => Throw e
    end.

(** ** Vocabulary of the further properties *)

(** [isFunction( selector ) ? selector : selector.select] *)
Definition selectorOf (spec : SelectorSpec) : Value → list Value → Result Value :=
  match spec with
  | SelFunction f => f
  | SelObject f _ => f
  end.

(** The selectors (actions) registered under [reducerKey] are [m]. *)
Definition selectorsAt (reducerKey : string) (m : gmap string SelectorEntry)
    (w : World) : Prop :=
  selectors w !! reducerKey = Some m.

Definition actionsAt (reducerKey : string) (m : gmap string ActionEntry)
    (w : World) : Prop :=
  actions w !! reducerKey = Some m.

(** [render()] of [withSelect]: the props handed to the wrapped component,
    [{ ...this.props, ...this.state.mergeProps }]. *)
Definition Select_render (i : SelectInst) : Obj :=
  spread (si_props i) (default [] (si_mergeProps i)).

(** [render()] of [withData]: [{ ...this.props, ...this.state }]. *)
Definition Data_render (i : DataInst) : Obj :=
  spread (di_props i) (di_state i).

(** The [withSelect] instance [c] has run [componentWillUnmount]. *)
Definition unmounting (c : nat) (w : World) : Prop :=
  ∃ i, selectInsts w !! c = Some i ∧ si_isUnmounting i = true.

(** Client functions that return without having done anything yet (an
    effect that only starts a request, say). *)
Definition inert (ext : nat → list Value → M unit) : Prop :=
  ∀ n args w, ext n args w = (Ok tt, w, []).

(** The values [runSelection] of [withData] selects for the resolvers
    [rs]: the [mapValues] of its first statement. *)
Definition selectAll (rs : Dict Resolver) : M (Dict Value) :=
  mapValuesM rs (fun r _ =>
    let* selector := selectorEntry (r_reducerKey r) (r_key r) in
    callSelect (se_select selector) (r_args r)).

(** The state of the [withData] instance [c] holds a key that none of its
    resolvers has (a prop key the mapping function no longer returns). *)
Definition staleKey (c : nat) (w : World) : Prop :=
  ∃ i k, dataInsts w !! c = Some i
       ∧ di_unmounted i = false
       ∧ NoDup (keys (di_state i))
       ∧ NoDup (keys (di_resolvers i))
       ∧ k ∈ keys (di_state i)
       ∧ k ∉ keys (di_resolvers i).

(** ** The lint configuration: versions about to be released

    The configuration of the linter builds, from the [version] of the
    package, the source of a regular expression for the versions with the
    same major and minor number. *)

(** [\d] *)
Definition isDigit (c : Ascii.ascii) : bool :=
  (48 <=? Ascii.nat_of_ascii c) && (Ascii.nat_of_ascii c <=? 57).

Fixpoint allDigits (s : string) : bool :=
  match s with
  | EmptyString => true
  | String c s' => isDigit c && allDigits s'
  end.

(** [\d+$] matches all of [s]. *)
Definition digitsToEnd (s : string) : bool :=
  match s with
  | EmptyString => false
  | String _ _ => allDigits s
  end.

(** [version.replace( /\.\d+$/, '' )]: at the first dot followed by
    digits up to the end, the dot and the digits are dropped. *)
Fixpoint stripPatch (s : string) : string :=
  match s with
  | EmptyString => EmptyString
  | String c s' =>
      if Ascii.eqb c "."%char && digitsToEnd s' then EmptyString
      else String c (stripPatch s')
  end.

(** The characters lodash [escapeRegExp] escapes. *)
Definition isRegExpChar (c : Ascii.ascii) : bool :=
  existsb (Ascii.eqb c)
    ["\"; "^"; "$"; "."; "*"; "+"; "?"; "("; ")"; "["; "]"; "{"; "}"; "|"]%char.

(** lodash [escapeRegExp( string )] *)
Fixpoint escapeRegExp (s : string) : string :=
  match s with
  | EmptyString => EmptyString
  | String c s' =>
      if isRegExpChar c then String "\"%char (String c (escapeRegExp s'))
      else String c (escapeRegExp s')
  end.

(** [majorMinorRegExp] *)
Definition majorMinorRegExp (version : string) : string :=
  escapeRegExp (stripPatch version) +:+ "(\.\d+)?".

(** ** Scenes of the further properties *)

(** A mapping function of [withData] that asks for [value] always and for
    [extra] as long as the component has a prop [wide]. *)
Definition widthProps : ResolveFn → Obj → Result (Dict Resolver) :=
  fun resolve props =>
    match resolve "key" "getValue" [] with
    | Throw e => Throw e
    | Ok r =>
        match get props "wide" with
        | Some _ => Ok [("value", r); ("extra", r)]
        | None => Ok [("value", r)]
        end
    end.

(** The component mounted wide, then re-rendered without the prop. *)
Definition narrowedScene : World :=
  runOps extIdle
    [OpRegisterStore "key" (valueStore valueReducer);
     OpDataMount widthProps [("wide", VBool true)];
     OpDataUpdate 0 []]
    emptyWorld.

(** A [withSelect] component reading [getValue], mounted on [valueWorld]. *)
Definition selectMounted : World :=
  world_of (Select_mount selectValueProp [] valueWorld).

(** Selectors and actions registered with no store under the key, then the
    reducer. *)
Definition lateReducerOps : list Op :=
  [OpRegisterReducer "late" valueReducer; OpSubscribe (FExt 0)].

(** [( dispatch, props ) => props.readOnly ? {} :
      { onChange: dispatch( 'key' ).setValue }] *)
Definition guardedProps : DispatchFn → Obj → Result (Dict Dispatcher) :=
  fun dispatch props =>
    match get props "readOnly" with
    | Some _ => Ok []
    | None => onChangeProps dispatch props
    end.

(** * Properties *)

(** ** Properties of the listener bus *)

Lemma without_not_elem {A} `{EqDecision A} (l : list A) (x : A) :
  x ∉ without l x.
Proof.
  unfold without. intros [Hx _]%list_elem_of_filter. by apply Hx.
Qed.

Lemma without_idemp {A} `{EqDecision A} (l : list A) (x : A) :
  without (without l x) x = without l x.
Proof.
  unfold without. induction l as [|y l IH]; [done|].
  rewrite filter_cons. case_decide; [|done].
  rewrite filter_cons. by case_decide; [f_equal|].
Qed.

Lemma without_app {A} `{EqDecision A} (l k : list A) (x : A) :
  without (l ++ k) x = without l x ++ without k x.
Proof. unfold without. apply filter_app. Qed.

Lemma without_self {A} `{EqDecision A} (x : A) : without [x] x = [].
Proof. unfold without. rewrite filter_cons. by case_decide. Qed.

Lemma without_count_other {A} `{EqDecision A} (l : list A) (x y : A) :
  y ≠ x →
  length (filter (fun h => h = y) (without l x)) = length (filter (fun h => h = y) l).
Proof.
  intros Hne. unfold without. induction l as [|h l IH]; [done|].
  rewrite !filter_cons. case_decide as Hh.
  - rewrite filter_cons. case_decide; simpl; by rewrite IH.
  - case_decide; [congruence|]. apply IH.
Qed.

Lemma subscribe_spec (listener : fn) (w : World) :
  subscribe listener w
  = (Ok (UnsubscribeOf listener),
     set_listeners (fun ls => ls ++ [listener]) w, []).
Proof. reflexivity. Qed.

Lemma unsubscribe_spec (listener : fn) (w : World) :
  unsubscribe (UnsubscribeOf listener) w
  = (Ok tt, set_listeners (fun ls => without ls listener) w, []).
Proof. reflexivity. Qed.

(** C5.  [subscribe( listener )] followed by the returned unsubscribe
    leaves the bus without [listener] and with every other listener where it
    was; calling the same unsubscribe again, in whatever world, does not
    throw, leaves [listener] off the bus, and removes nothing but
    occurrences of [listener] (the listeners kept are exactly the others, in
    their order and number); a second call right after the first changes
    nothing. *)
Theorem subscribe_unsubscribe (listener : fn) (w : World) :
  let r1 := subscribe listener w in
  ∃ u, result_of r1 = Ok u
    ∧ listeners (world_of r1) = listeners w ++ [listener]
    ∧ (∀ w', result_of (unsubscribe u w') = Ok tt
           ∧ listeners (world_of (unsubscribe u w'))
             = filter (fun g => g ≠ listener) (listeners w')
           ∧ (listener ∉ listeners (world_of (unsubscribe u w')))
           ∧ (∀ g, g ≠ listener →
                length (filter (fun h => h = g)
                               (listeners (world_of (unsubscribe u w'))))
                = length (filter (fun h => h = g) (listeners w'))))
    ∧ listeners (world_of (unsubscribe u (world_of r1)))
      = filter (fun g => g ≠ listener) (listeners w)
    ∧ world_of (unsubscribe u (world_of (unsubscribe u (world_of r1))))
      = world_of (unsubscribe u (world_of r1)).
Proof.
  intros r1. subst r1. rewrite subscribe_spec.
  exists (UnsubscribeOf listener). unfold result_of, world_of. 
  split; [done|]. split; [done|]. split; [|split].
  - intros w'. rewrite unsubscribe_spec. simpl.
    split; [done|]. split; [done|]. split.
    + apply without_not_elem.
    + intros g Hg. by apply without_count_other.
  - rewrite unsubscribe_spec. simpl.
    by rewrite without_app, without_self, app_nil_r.
  - rewrite !unsubscribe_spec. simpl. unfold set_listeners. simpl.
    by rewrite without_idemp.
Qed.

(** ** Reasoning about what a call leaves unchanged *)

Section Preservation.

Context {A B : Type} (P : World → Prop).

Lemma preserves_ret (a : A) : preserves P (ret a).
Proof. by intros w. Qed.

Lemma preserves_throw (e : Exn) : preserves P (@throw A e).
Proof. by intros w. Qed.

Lemma preserves_liftR (r : Result A) : preserves P (liftR r).
Proof. by intros w. Qed.

Lemma preserves_emit (ev : Event) : preserves P (emit ev).
Proof. by intros w. Qed.

Lemma preserves_getW : preserves P getW.
Proof. by intros w. Qed.

Lemma preserves_modifyW (f : World → World) :
  (∀ w, P w → P (f w)) → preserves P (modifyW f).
Proof. intros Hf w Hw. by apply Hf. Qed.

Lemma preserves_bind (m : M A) (f : A → M B) :
  preserves P m → (∀ a, preserves P (f a)) → preserves P (bind m f).
Proof.
  intros Hm Hf w Hw. unfold bind, world_of.
  specialize (Hm w Hw). unfold world_of in Hm.
  destruct (m w) as [[[a|e] w1] t1]; simpl in *; [|done].
  specialize (Hf a w1 Hm). unfold world_of in Hf.
  by destruct (f a w1) as [[r w2] t2].
Qed.

Lemma preserves_traced (node : list Event → Event) (m : M A) :
  preserves P m → preserves P (traced node m).
Proof.
  intros Hm w Hw. specialize (Hm w Hw). unfold traced, world_of in *.
  by destruct (m w) as [[r w1] t1].
Qed.

End Preservation.

Lemma preserves_forEach {A} (P : World → Prop) (l : list A) (f : A → M unit) :
  (∀ x, preserves P (f x)) → preserves P (forEach l f).
Proof.
  intros Hf. induction l as [|x l IH]; simpl.
  - apply preserves_ret.
  - apply preserves_bind; [apply Hf | by intros _].
Qed.

Lemma preserves_mapValuesM {A B} (P : World → Prop) (o : Dict A)
    (f : A → string → M B) :
  (∀ a k, preserves P (f a k)) → preserves P (mapValuesM o f).
Proof.
  intros Hf. induction o as [|[k a] o IH]; simpl.
  - apply preserves_ret.
  - apply preserves_bind; [apply Hf | intros b].
    apply preserves_bind; [apply IH | intros rest]. apply preserves_ret.
Qed.

Lemma preserves_callProperty {A B} (P : World → Prop) (p : Property A)
    (call : A → M B) (args : list Value) :
  (∀ a, preserves P (call a)) → preserves P (callProperty p call args).
Proof. intros Hcall. destruct p; [apply Hcall|by intros w..]. Qed.

Lemma preserves_getStore (P : World → Prop) (l : nat) : preserves P (getStore l).
Proof. intros w Hw. unfold getStore. by destruct (heap w !! l). Qed.

Lemma preserves_getSelectInst (P : World → Prop) (c : nat) :
  preserves P (getSelectInst c).
Proof. intros w Hw. unfold getSelectInst. by destruct (selectInsts w !! c). Qed.

Lemma preserves_getDataInst (P : World → Prop) (c : nat) :
  preserves P (getDataInst c).
Proof. intros w Hw. unfold getDataInst. by destruct (dataInsts w !! c). Qed.

Lemma preserves_selectorEntry (P : World → Prop) (reducerKey key : string) :
  preserves P (selectorEntry reducerKey key).
Proof.
  intros w Hw. unfold selectorEntry.
  destruct (selectors w !! reducerKey) as [m|]; [|done]. by destruct (m !! key).
Qed.

Lemma preserves_ui (P : World → Prop) (f : World → World) :
  registry_only P → (∀ w, registry (f w) = registry w) → preserves P (modifyW f).
Proof.
  intros HP Hf. apply preserves_modifyW. intros w Hw.
  apply (HP w); [symmetry; apply Hf | done].
Qed.

Create HintDb pres discriminated.

#[export] Hint Resolve preserves_ret preserves_throw preserves_liftR
  preserves_emit preserves_getW preserves_traced preserves_getStore
  preserves_getSelectInst preserves_getDataInst preserves_selectorEntry : pres.

(** Walk through monadic code, leaving the calls that are not known to
    preserve the predicate. *)
Ltac pres_step :=
  lazymatch goal with
  | |- preserves _ (bind _ _) => apply preserves_bind; [|intros ?]
  | |- preserves _ (forEach _ _) => apply preserves_forEach; intros ?
  | |- preserves _ (mapValuesM _ _) => apply preserves_mapValuesM; intros ? ?
  | |- preserves _ (traced _ _) => apply preserves_traced
  | |- preserves _ (callProperty _ _ _) => apply preserves_callProperty; intros ?
  | |- preserves _ (match ?x with _ => _ end) => destruct x
  | |- preserves _ (modifyW _) =>
      first [ apply preserves_ui; [assumption | by intros []] ]
  | |- _ => solve [auto with pres]
  end.
Ltac pres := repeat pres_step.

Section Notification.

Variable ext : nat → list Value → M unit.
Variable P : World → Prop.
Hypothesis P_registry : registry_only P.
Hypothesis ext_preserves : ∀ n args, preserves P (ext n args).

Lemma preserves_callSelect (b : BoundSelect) (args : list Value) :
  preserves P (callSelect b args).
Proof. unfold callSelect, getState. pres. Qed.

Lemma preserves_Select_setState (c : nat) (mergeProps : Obj) :
  preserves P (Select_setState c mergeProps).
Proof. unfold Select_setState, updSelectInst. pres. Qed.

Lemma preserves_Select_runSelection (c : nat) (props : option Obj) :
  preserves P (Select_runSelection c props).
Proof.
  unfold Select_runSelection. pres. apply preserves_Select_setState.
Qed.

Lemma preserves_Data_setState (c : nat) (newState : Obj) :
  preserves P (Data_setState c newState).
Proof. unfold Data_setState, updDataInst. pres. Qed.

Lemma preserves_Data_runSelection (c : nat) :
  preserves P (Data_runSelection c).
Proof.
  unfold Data_runSelection. pres.
  - apply preserves_callSelect.
  - apply preserves_Data_setState.
Qed.

Lemma preserves_callListener (f : fn) : preserves P (callListener ext f).
Proof.
  unfold callListener. pres.
  - apply preserves_Select_runSelection.
  - apply preserves_Data_runSelection.
Qed.

Lemma preserves_globalListener : preserves P (globalListener ext).
Proof. unfold globalListener. pres. apply preserves_callListener. Qed.

Lemma preserves_Data_runSideEffects (resolvers : Dict Resolver) :
  preserves P (Data_runSideEffects ext resolvers).
Proof. unfold Data_runSideEffects. pres. Qed.

Lemma preserves_selectValue (reducerKey name : string) (args : list Value) :
  preserves P (selectValue reducerKey name args).
Proof. unfold selectValue. pres. apply preserves_callSelect. Qed.

Lemma preserves_subscribe (listener : fn) : preserves P (subscribe listener).
Proof. unfold subscribe. pres. Qed.

Lemma preserves_unsubscribe (u : Unsubscribe) : preserves P (unsubscribe u).
Proof. unfold unsubscribe. pres. Qed.

Lemma preserves_Select_mount mapStateToProps (props : Obj) :
  preserves P (Select_mount mapStateToProps props).
Proof.
  unfold Select_mount, Select_constructor, Select_componentWillMount,
    Select_subscribe, updSelectInst.
  pres; first [apply preserves_subscribe | apply preserves_Select_runSelection].
Qed.

Lemma preserves_Select_update (c : nat) (nextProps : Obj) :
  preserves P (Select_update c nextProps).
Proof.
  unfold Select_update, Select_componentWillReceiveProps, updSelectInst.
  pres. apply preserves_Select_runSelection.
Qed.

Lemma preserves_Select_unmount (c : nat) : preserves P (Select_unmount c).
Proof.
  unfold Select_unmount, Select_componentWillUnmount, updSelectInst.
  pres. apply preserves_unsubscribe.
Qed.

Lemma preserves_Data_runResolvers (c : nat) (props : option Obj) :
  preserves P (Data_runResolvers ext c props).
Proof.
  unfold Data_runResolvers, Data_resolve, updDataInst. pres.
  - apply preserves_Data_runSideEffects.
  - apply preserves_Data_runSelection.
Qed.

Lemma preserves_Data_mount mapStateToProps (props : Obj) :
  preserves P (Data_mount ext mapStateToProps props).
Proof.
  unfold Data_mount, Data_constructor, Data_componentWillMount,
    Data_subscribe, updDataInst.
  pres; first [apply preserves_subscribe | apply preserves_Data_runResolvers].
Qed.

Lemma preserves_Data_update (c : nat) (nextProps : Obj) :
  preserves P (Data_update ext c nextProps).
Proof.
  unfold Data_update, Data_componentWillReceiveProps, updDataInst.
  pres. apply preserves_Data_runResolvers.
Qed.

Lemma preserves_Data_unmount (c : nat) : preserves P (Data_unmount c).
Proof.
  unfold Data_unmount, Data_componentWillUnmount, updDataInst.
  pres. apply preserves_unsubscribe.
Qed.

(** Every call of a history that registers nothing and dispatches nothing
    leaves the registries and the store objects as they are. *)
Lemma preserves_ui_runOp (op : Op) :
  match op with
  | OpRegisterStore _ _ | OpRegisterReducer _ _ | OpRegisterSelectors _ _
  | OpRegisterActions _ _ | OpDispatch _ _ _ | OpStoreDispatch _ _ => False
  | _ => True
  end →
  preserves P (runOp ext op).
Proof.
  intros Hop.
  assert (Hd : ∀ A (m : M A), preserves P m → preserves P (discard m)).
  { intros A m Hm. unfold discard. pres. }
  destruct op; try done; simpl; try apply Hd.
  - apply preserves_subscribe.
  - apply preserves_unsubscribe.
  - apply preserves_selectValue.
  - apply preserves_globalListener.
  - apply preserves_Select_mount.
  - apply preserves_Select_update.
  - apply preserves_Select_unmount.
  - apply preserves_Data_mount.
  - apply preserves_Data_update.
  - apply preserves_Data_unmount.
Qed.

End Notification.

(** ** Stores and the bus *)

Section Dispatch.

Variable ext : nat → list Value → M unit.

(** What [store.dispatch] amounts to. *)
Lemma store_dispatch_unfold (l : nat) (action : Action) (w : World) (s : Store) :
  heap w !! l = Some s →
  let next := st_reducer s (st_state s) action in
  let w1 := set_heap (fun h => <[l:=mkStore (st_reducer s) next next]> h)
              (set_heap (fun h => <[l:=mkStore (st_reducer s) next (st_lastState s)]> h) w) in
  store_dispatch ext l action w
  = if strict_eq next (st_lastState s) then (Ok action, w1, [])
    else match globalListener ext w1 with
         | (Ok _, w2, t) => (Ok action, w2, t ++ [])
         | (Throw e, w2, t) => (Throw e, w2, t)
         end.
Proof.
  intros Hs next w1.
  assert (Hl : l < length (heap w)) by (by eapply lookup_lt_Some).
  unfold store_dispatch, bind at 1, getStore. rewrite Hs. simpl.
  unfold bind at 1, setStore, modifyW. simpl.
  unfold bind at 1, storeSubscriber, bind at 1, getStore. simpl.
  rewrite list_lookup_insert_eq by done. simpl.
  unfold bind at 1. simpl. fold next. fold w1.
  destruct (strict_eq next (st_lastState s)); simpl; [done|].
  destruct (globalListener ext w1) as [[[[]|e] w2] t]; simpl; [|done].
  by rewrite app_nil_r.
Qed.

Lemma globalListener_firings (w : World) :
  firings (trace_of (globalListener ext w)) = 1.
Proof.
  unfold globalListener, traced, trace_of.
  by destruct (bind getW _ w) as [[r w'] t].
Qed.

Lemma registered_registry_only (l0 : nat) : registry_only (registered l0).
Proof.
  intros v v' Hr [Hv Hl]. injection Hr as Hh _ _ _. unfold registered, settled.
  by rewrite <- Hh.
Qed.

Lemma preserves_store_dispatch (l0 l : nat) (action : Action) :
  (∀ n args, preserves (registered l0) (ext n args)) →
  preserves (registered l0) (store_dispatch ext l action).
Proof.
  intros Hext w Hw.
  destruct (heap w !! l) as [s|] eqn:Hs.
  - assert (Hl : l < length (heap w)) by (by eapply lookup_lt_Some).
    rewrite (store_dispatch_unfold l action w s Hs). simpl.
    set (next := st_reducer s (st_state s) action).
    set (w1 := set_heap _ (set_heap _ w)).
    assert (Hw1 : registered l0 w1).
    { destruct Hw as [Hw Hl0]. split.
      - intros l' s'. subst w1. simpl. rewrite list_insert_insert_eq.
        destruct (decide (l' = l)) as [->|Hne].
        + rewrite list_lookup_insert_eq by done. by intros [= <-].
        + rewrite list_lookup_insert_ne by done. apply Hw.
      - subst w1. simpl. by rewrite !length_insert. }
    destruct (strict_eq next (st_lastState s)); [done|].
    assert (Hg : registered l0 (world_of (globalListener ext w1))).
    { apply preserves_globalListener; [|done..]. apply registered_registry_only. }
    unfold world_of in *.
    by destruct (globalListener ext w1) as [[[[]|e] w2] t].
  - unfold store_dispatch, bind, getStore. by rewrite Hs.
Qed.

(** One dispatch.  In a settled world, [store.dispatch] on a registered
    store enters [globalListener] once when the state the reducer returns is
    not [===] to the state before, and not at all when it is. *)
Lemma store_dispatch_firings (l : nat) (action : Action) (w : World) (s : Store) :
  settled w → heap w !! l = Some s →
  firings (trace_of (store_dispatch ext l action w))
  = if strict_eq (st_reducer s (st_state s) action) (st_state s) then 0 else 1.
Proof.
  intros Hw Hs. rewrite (store_dispatch_unfold l action w s Hs). simpl.
  rewrite (Hw l s Hs).
  destruct (strict_eq _ _); [done|].
  match goal with |- context [globalListener ext ?w1] =>
    pose proof (globalListener_firings w1) as Hf;
    destruct (globalListener ext w1) as [[[[]|e] w2] t] end;
  unfold trace_of in *; simpl in *; by rewrite ?app_nil_r.
Qed.


End Dispatch.

(** Every call of the module keeps a registered store registered, whatever
    it is asked to do, when the client functions it calls do. *)
Lemma registered_runOp (ext : nat → list Value → M unit) (l : nat) (op : Op) :
  (∀ n args, preserves (registered l) (ext n args)) →
  preserves (registered l) (runOp ext op).
Proof.
  intros Hext.
  assert (Hd : ∀ A (m : M A), preserves (registered l) m →
                              preserves (registered l) (discard m)).
  { intros A m Hm. unfold discard. pres. }
  assert (Hnew : ∀ k reducer, preserves (registered l) (registerReducer k reducer)).
  { intros k reducer w [Hw Hl]. split.
    - intros l' s. simpl. intros [Hs|[_ Hs]]%lookup_app_Some; [by eapply Hw|].
      destruct (l' - length (heap w)); simpl in Hs; [|done]. by injection Hs as <-.
    - simpl. rewrite length_app. lia. }
  assert (Hsel : ∀ k newSelectors,
            preserves (registered l) (registerSelectors k newSelectors)).
  { by intros k newSelectors w Hw. }
  assert (Hact : ∀ k newActions,
            preserves (registered l) (registerActions k newActions)).
  { by intros k newActions w Hw. }
  destruct op;
    try (apply preserves_ui_runOp;
         [apply registered_registry_only | exact Hext | done]);
    simpl; try apply Hd; auto.
  - unfold registerStore. destruct (opt_reducer options); [|apply preserves_throw].
    pres; auto.
  - unfold dispatchAction, callAction. pres; by apply preserves_store_dispatch.
  - by apply preserves_store_dispatch.
Qed.

(** So do the client functions that act through the module. *)
Lemma clientFn_registered (table : nat → list Value → World → list Op)
    (l k n : nat) (args : list Value) :
  preserves (registered l) (clientFn table k n args).
Proof.
  revert n args. induction k as [|k IH]; intros n args w Hw; [done|].
  simpl. apply preserves_forEach; [|done].
  intros op. by apply registered_runOp.
Qed.

(** ** Registration *)

Lemma registerStore_unfold (reducerKey : string) (reducer : Value → Action → Value)
    (newActions : gmap string (list Value → Result Action))
    (newSelectors : gmap string SelectorSpec) (w : World) :
  let l := length (heap w) in
  let state := reducer VUndefined initAction in
  registerStore reducerKey
    (mkStoreOptions (Some reducer) (Some newActions) (Some newSelectors)) w
  = (Ok l,
     mkWorld (heap w ++ [mkStore reducer state state])
             (<[reducerKey:=l]> (stores w))
             (<[reducerKey:=(fun selector =>
                 match selector with
                 | SelFunction f => mkSelectorEntry (mkBoundSelect (Some l) f) None
                 | SelObject f effect =>
                     mkSelectorEntry (mkBoundSelect (Some l) f) effect
                 end) <$> newSelectors]> (selectors w))
             (<[reducerKey:=mkActionEntry (Some l) <$> newActions]> (actions w))
             (listeners w) (selectInsts w) (dataInsts w),
     []).
Proof.
  intros l state. unfold registerStore. simpl.
  unfold registerReducer, registerActions, registerSelectors, bind. simpl.
  rewrite !lookup_insert_eq. reflexivity.
Qed.

(** C8.  [registerStore] throws a TypeError exactly when [options.reducer]
    is missing, and then it has changed nothing: no store, action or
    selector has been registered and nothing was called. *)
Theorem registerStore_requires_reducer (reducerKey : string)
    (options : StoreOptions) (w : World) :
  ((∃ msg, result_of (registerStore reducerKey options w) = Throw (TypeError msg))
   ↔ opt_reducer options = None)
  ∧ (opt_reducer options = None →
     registerStore reducerKey options w
     = (Throw (TypeError "Must specify store reducer"), w, [])).
Proof.
  assert (Hok : ∀ reducer, opt_reducer options = Some reducer →
                ∃ l, result_of (registerStore reducerKey options w) = Ok l).
  { intros reducer Hr. unfold registerStore. rewrite Hr.
    unfold result_of, bind, registerReducer, registerActions, registerSelectors.
    simpl. destruct (opt_actions options), (opt_selectors options); simpl; eauto. }
  assert (Hthrow : opt_reducer options = None →
                   registerStore reducerKey options w
                   = (Throw (TypeError "Must specify store reducer"), w, [])).
  { intros Hr. unfold registerStore. by rewrite Hr. }
  split; [|done]. split.
  - intros [msg Hmsg]. destruct (opt_reducer options) as [reducer|] eqn:Hr; [|done].
    destruct (Hok reducer eq_refl) as [l Hl]. congruence.
  - intros Hr. rewrite (Hthrow Hr). by eexists.
Qed.

Section Quiet.

Variable ext : nat → list Value → M unit.
Hypothesis ext_quiet : quiet ext.

Lemma globalListener_registry (w : World) :
  registry (world_of (globalListener ext w)) = registry w.
Proof.
  apply (preserves_globalListener ext (fun w' => registry w' = registry w)); [| |done].
  - intros v v' Hr Hv. congruence.
  - intros n args v Hv. by rewrite ext_quiet.
Qed.

(** With quiet listeners a dispatch changes the state of its store and
    nothing else in the registries, whether or not a listener throws. *)
Lemma store_dispatch_registry (l : nat) (action : Action) (w : World) (s : Store) :
  heap w !! l = Some s →
  let next := st_reducer s (st_state s) action in
  registry (world_of (store_dispatch ext l action w))
  = (<[l:=mkStore (st_reducer s) next next]> (heap w),
     stores w, selectors w, actions w).
Proof.
  intros Hs next. rewrite (store_dispatch_unfold ext l action w s Hs). simpl.
  fold next. set (w1 := set_heap _ (set_heap _ w)).
  assert (Hw1 : registry w1
                = (<[l:=mkStore (st_reducer s) next next]> (heap w),
                   stores w, selectors w, actions w)).
  { subst w1. unfold registry. simpl. by rewrite list_insert_insert_eq. }
  destruct (strict_eq next (st_lastState s)); [done|].
  pose proof (globalListener_registry w1) as Hg. unfold world_of in *.
  destruct (globalListener ext w1) as [[[[]|e] w2] t]; simpl in *; congruence.
Qed.

(** C6.  Register a store under a key with selector [getValue = ( state ) =>
    state.value], action [setValue = ( v ) => ( { type: 'SET', value: v } )]
    and a reducer that handles [SET] by storing the value; then, with
    listeners that leave the stores alone, after
    [dispatch( key ).setValue( v )] the call [select( key ).getValue()]
    returns [v]. *)
Theorem select_after_dispatch (reducerKey : string)
    (reducer : Value → Action → Value) (v : Value) (w : World) :
  (∀ state action, atype action = "SET" →
     prop (reducer state action) "value"
     = Some (default VUndefined (get (afields action) "value"))) →
  let w1 := world_of (registerStore reducerKey (valueStore reducer) w) in
  let w2 := world_of (dispatchAction ext reducerKey "setValue" [v] w1) in
  result_of (selectValue reducerKey "getValue" [] w2) = Ok v.
Proof.
  intros Hreducer w1 w2. subst w2 w1.
  unfold valueStore. rewrite registerStore_unfold.
  unfold world_of at 2. simpl fst. simpl snd.
  set (l := length (heap w)).
  set (s0 := mkStore reducer (reducer VUndefined initAction)
                     (reducer VUndefined initAction)).
  set (w1 := mkWorld _ _ _ _ _ _ _).
  set (w2 := world_of _).
  assert (Hs0 : heap w1 !! l = Some s0).
  { subst w1 l. simpl. by rewrite list_lookup_middle. }
  assert (Hw2 : w2 = world_of (store_dispatch ext l
                       (mkAction "SET" [("value", v)]) w1)).
  { subst w2. unfold dispatchAction, bind at 1. simpl. unfold dispatch. simpl.
    rewrite lookup_insert_eq. simpl.
    rewrite lookup_fmap, lookup_singleton_eq. simpl.
    unfold callAction, bind, world_of. simpl.
    by destruct (store_dispatch ext l _ w1) as [[[] ?] ?]. }
  pose proof (store_dispatch_registry l (mkAction "SET" [("value", v)]) w1 s0 Hs0)
    as Hreg.
  rewrite <- Hw2 in Hreg. simpl in Hreg. injection Hreg as Hheap _ Hsel _.
  unfold selectValue, result_of, bind. simpl. unfold select. rewrite Hsel. simpl.
  rewrite lookup_insert_eq. simpl. rewrite !lookup_fmap, lookup_singleton_eq. simpl.
  unfold callSelect, getState, bind, getStore. simpl. rewrite Hheap.
  rewrite list_lookup_insert_eq by (by eapply lookup_lt_Some). simpl.
  unfold liftR, getValue. by rewrite Hreducer.
Qed.

(** C9.  Register a reducer under a key, then selectors and actions, then a
    second reducer under the same key.  The registry now maps the key to the
    second store, a different object; the selectors and actions registered
    before are all still there, each bound to the first store: calling such
    a selector reads the state of the first store, and calling such an
    action dispatches to the first store, whose state becomes what the first
    reducer returns while the second store keeps its state (listeners
    leaving the stores alone). *)
Theorem bindings_outlive_reregistration (reducerKey : string)
    (reducer1 reducer2 : Value → Action → Value)
    (newSelectors : gmap string SelectorSpec)
    (newActions : gmap string (list Value → Result Action)) (w : World) :
  let l1 := length (heap w) in
  let l2 := S l1 in
  let w1 := world_of (registerReducer reducerKey reducer1 w) in
  let w2 := world_of (registerSelectors reducerKey newSelectors w1) in
  let w3 := world_of (registerActions reducerKey newActions w2) in
  let w4 := world_of (registerReducer reducerKey reducer2 w3) in
  let state1 := reducer1 VUndefined initAction in
  let state2 := reducer2 VUndefined initAction in
  result_of (registerReducer reducerKey reducer1 w) = Ok l1
  ∧ result_of (registerReducer reducerKey reducer2 w3) = Ok l2
  ∧ stores w3 !! reducerKey = Some l1
  ∧ stores w4 !! reducerKey = Some l2
  ∧ heap w4 !! l1 = Some (mkStore reducer1 state1 state1)
  ∧ heap w4 !! l2 = Some (mkStore reducer2 state2 state2)
  ∧ (∀ name, is_Some (select reducerKey w4 !! name) ↔ is_Some (newSelectors !! name))
  ∧ (∀ name b args,
       select reducerKey w4 !! name = Some b →
       bs_store b = Some l1
       ∧ result_of (callSelect b args w4) = bs_selector b state1 args)
  ∧ (∃ m, dispatch reducerKey w4 = Own m
        ∧ (∀ name, is_Some (m !! name) ↔ is_Some (newActions !! name))
        ∧ ∀ name e args action,
            m !! name = Some e →
            ae_creator e args = Ok action →
            let w5 := world_of (callAction ext e args w4) in
            ae_store e = Some l1
            ∧ heap w5 !! l1
              = Some (mkStore reducer1 (reducer1 state1 action)
                              (reducer1 state1 action))
            ∧ heap w5 !! l2 = Some (mkStore reducer2 state2 state2)
            ∧ ∀ name' b args',
                select reducerKey w5 !! name' = Some b →
                result_of (callSelect b args' w5)
                = bs_selector b (reducer1 state1 action) args').
Proof.
  intros l1 l2 w1 w2 w3 w4 state1 state2.
  assert (Hw4 : w4 = mkWorld
    ((heap w ++ [mkStore reducer1 state1 state1]) ++ [mkStore reducer2 state2 state2])
    (<[reducerKey:=l2]> (<[reducerKey:=l1]> (stores w)))
    (<[reducerKey:=(fun selector =>
        match selector with
        | SelFunction f => mkSelectorEntry (mkBoundSelect (Some l1) f) None
        | SelObject f effect => mkSelectorEntry (mkBoundSelect (Some l1) f) effect
        end) <$> newSelectors]> (selectors w))
    (<[reducerKey:=mkActionEntry (Some l1) <$> newActions]> (actions w))
    (listeners w) (selectInsts w) (dataInsts w)).
  { subst w4 w3 w2 w1. unfold registerReducer, registerSelectors, registerActions.
    unfold world_of, bind. simpl. rewrite !lookup_insert_eq.
    unfold set_stores, set_heap. simpl. rewrite length_app. simpl.
    subst l2 l1. by rewrite Nat.add_1_r. }
  clearbody w4.
  assert (Hl1 : heap w4 !! l1 = Some (mkStore reducer1 state1 state1)).
  { rewrite Hw4. simpl. rewrite lookup_app_l by (rewrite length_app; simpl; lia).
    by rewrite list_lookup_middle. }
  assert (Hl2 : heap w4 !! l2 = Some (mkStore reducer2 state2 state2)).
  { rewrite Hw4. simpl. apply list_lookup_middle.
    rewrite length_app. simpl. subst l2 l1. lia. }
  assert (Hsel : ∀ name b, select reducerKey w4 !! name = Some b →
                 bs_store b = Some l1).
  { intros name b. rewrite Hw4. unfold select. simpl.
    rewrite lookup_insert_eq. simpl. rewrite !lookup_fmap.
    destruct (newSelectors !! name) as [[f|f effect]|]; simpl; by intros [= <-]. }
  assert (Hread : ∀ w' state b args,
            bs_store b = Some l1 →
            heap w' !! l1 = Some (mkStore reducer1 state state) →
            result_of (callSelect b args w') = bs_selector b state args).
  { intros w' state b args Hb Hh. unfold callSelect. rewrite Hb.
    unfold result_of, getState, bind, getStore. rewrite Hh. simpl.
    unfold liftR. by destruct (bs_selector b state args). }
  split; [done|]. split.
  { subst w3 w2 w1. unfold registerReducer, registerSelectors, registerActions.
    unfold result_of, world_of, bind. simpl. rewrite length_app. simpl.
    subst l2 l1. by rewrite Nat.add_1_r. }
  split.
  { subst w3 w2 w1. unfold registerReducer, registerSelectors, registerActions.
    unfold world_of, bind. simpl. by rewrite lookup_insert_eq. }
  split; [rewrite Hw4; simpl; by rewrite lookup_insert_eq|].
  split; [done|]. split; [done|]. split.
  { intros name. rewrite Hw4. unfold select. simpl.
    rewrite lookup_insert_eq. simpl. rewrite !lookup_fmap.
    destruct (newSelectors !! name); simpl; split; intros [x Hx]; by eauto. }
  split.
  { intros name b args Hb. split; [by eapply Hsel|].
    eapply Hread; [by eapply Hsel | done]. }
  exists (mkActionEntry (Some l1) <$> newActions). split.
  { rewrite Hw4. unfold dispatch. simpl. by rewrite lookup_insert_eq. }
  split.
  { intros name. rewrite lookup_fmap.
    destruct (newActions !! name); simpl; split; intros [x Hx]; by eauto. }
  intros name e args action He Hcreate w5.
  rewrite lookup_fmap in He.
  destruct (newActions !! name) as [creator|]; simpl in He; [|done].
  injection He as <-. simpl in Hcreate.
  assert (Hw5 : w5 = world_of (store_dispatch ext l1 action w4)).
  { subst w5. unfold callAction, bind, liftR, world_of. simpl. rewrite Hcreate.
    simpl. by destruct (store_dispatch ext l1 action w4) as [[[] ?] ?]. }
  pose proof (store_dispatch_registry l1 action w4 _ Hl1) as Hreg.
  rewrite <- Hw5 in Hreg. simpl in Hreg. injection Hreg as Hheap _ Hsels _.
  assert (Hlt : l1 < length (heap w4)) by (by eapply lookup_lt_Some).
  split; [done|]. split; [|split].
  - rewrite Hheap. by rewrite list_lookup_insert_eq.
  - rewrite Hheap. by rewrite list_lookup_insert_ne by (subst l2; lia).
  - intros name' b args' Hb.
    assert (Hb4 : select reducerKey w4 !! name' = Some b).
    { unfold select in *. by rewrite <- Hsels. }
    eapply Hread; [by eapply Hsel|].
    rewrite Hheap. by rewrite list_lookup_insert_eq.
Qed.

End Quiet.

(** ** What histories of calls preserve *)

Lemma bindings_registry_only (P : World → Prop) :
  bindings_only P → registry_only P.
Proof.
  intros HP w w' Hr. injection Hr as _ _ Hs Ha. by apply HP.
Qed.

Section Bindings.

Variable ext : nat → list Value → M unit.
Variable P : World → Prop.
Hypothesis P_bindings : bindings_only P.
Hypothesis ext_preserves : ∀ n args, preserves P (ext n args).

Local Ltac bpres :=
  repeat first
    [ pres_step
    | lazymatch goal with
      | |- preserves _ (modifyW _) =>
          apply preserves_modifyW; intros ? ?;
          eapply P_bindings; [| |eassumption]; reflexivity
      end ].

Local Hint Resolve bindings_registry_only : core.

Lemma bindings_globalListener : preserves P (globalListener ext).
Proof. apply preserves_globalListener; auto. Qed.

Lemma bindings_store_dispatch (l : nat) (action : Action) :
  preserves P (store_dispatch ext l action).
Proof.
  unfold store_dispatch, storeSubscriber, setStore. bpres.
  apply bindings_globalListener.
Qed.

Lemma bindings_dispatchAction (reducerKey name : string) (args : list Value) :
  preserves P (dispatchAction ext reducerKey name args).
Proof.
  unfold dispatchAction, callAction. bpres; apply bindings_store_dispatch.
Qed.

Lemma bindings_registerReducer (reducerKey : string)
    (reducer : Value → Action → Value) :
  preserves P (registerReducer reducerKey reducer).
Proof. unfold registerReducer. bpres. Qed.

End Bindings.

Section Unregistered.

Variable ext : nat → list Value → M unit.
Variable reducerKey : string.

Lemma noSelectors_bindings : bindings_only (noSelectors reducerKey).
Proof. intros w w' Hs _. unfold noSelectors. by rewrite Hs. Qed.

Lemma noActions_bindings : bindings_only (noActions reducerKey).
Proof. intros w w' _ Ha. unfold noActions. by rewrite Ha. Qed.

Lemma discard_world {A} (m : M A) (w : World) :
  world_of (discard m w) = world_of (m w).
Proof.
  unfold discard, bind, world_of. by destruct (m w) as [[[a|e] w1] t1].
Qed.

Lemma registerStore_selectors (k : string) (options : StoreOptions) (w : World) :
  registersSelectors reducerKey (OpRegisterStore k options) = false →
  selectors (world_of (registerStore k options w)) !! reducerKey
  = selectors w !! reducerKey.
Proof.
  unfold registerStore, registerReducer, registerActions, registerSelectors.
  simpl.
  destruct (opt_reducer options), (opt_actions options), (opt_selectors options);
    try reflexivity; rewrite andb_true_r; intros Hk%bool_decide_eq_false;
    unfold world_of, bind; simpl; by rewrite lookup_insert_ne.
Qed.

Lemma registerStore_actions (k : string) (options : StoreOptions) (w : World) :
  registersActions reducerKey (OpRegisterStore k options) = false →
  actions (world_of (registerStore k options w)) !! reducerKey
  = actions w !! reducerKey.
Proof.
  unfold registerStore, registerReducer, registerActions, registerSelectors.
  simpl.
  destruct (opt_reducer options), (opt_actions options), (opt_selectors options);
    try reflexivity; rewrite andb_true_r; intros Hk%bool_decide_eq_false;
    unfold world_of, bind; simpl; by rewrite lookup_insert_ne.
Qed.

Lemma bindings_runOp (P : World → Prop) (op : Op) :
  bindings_only P →
  (∀ n args, preserves P (ext n args)) →
  match op with
  | OpRegisterStore _ _ | OpRegisterSelectors _ _ | OpRegisterActions _ _ => False
  | _ => True
  end →
  preserves P (runOp ext op).
Proof.
  intros HP Hext Hop.
  assert (Hd : ∀ A (m : M A), preserves P m → preserves P (discard m)).
  { intros A m Hm w Hw. rewrite discard_world. by apply Hm. }
  destruct op; try done;
    try (apply preserves_ui_runOp; [by apply bindings_registry_only|done..]);
    simpl; apply Hd.
  - by apply bindings_registerReducer.
  - by apply bindings_dispatchAction.
  - by apply bindings_store_dispatch.
Qed.

Lemma noSelectors_runOp (op : Op) :
  (∀ n args, preserves (noSelectors reducerKey) (ext n args)) →
  registersSelectors reducerKey op = false →
  preserves (noSelectors reducerKey) (runOp ext op).
Proof.
  intros Hext Hop.
  destruct op;
    try (apply bindings_runOp; [apply noSelectors_bindings | done | done]).
  - intros w Hw. simpl. rewrite discard_world. unfold noSelectors.
    by rewrite registerStore_selectors.
  - intros w Hw. simpl in *. apply bool_decide_eq_false in Hop.
    unfold noSelectors. simpl. by rewrite lookup_insert_ne.
  - intros w Hw. exact Hw.
Qed.

Lemma noActions_runOp (op : Op) :
  (∀ n args, preserves (noActions reducerKey) (ext n args)) →
  registersActions reducerKey op = false →
  preserves (noActions reducerKey) (runOp ext op).
Proof.
  intros Hext Hop.
  destruct op;
    try (apply bindings_runOp; [apply noActions_bindings | done | done]).
  - intros w Hw. simpl. rewrite discard_world. unfold noActions.
    by rewrite registerStore_actions.
  - intros w Hw. exact Hw.
  - intros w Hw. simpl in *. apply bool_decide_eq_false in Hop.
    unfold noActions. simpl. by rewrite lookup_insert_ne.
Qed.

Lemma runOps_preserves (P : World → Prop) (ok : Op → bool) (ops : list Op) (w : World) :
  (∀ op, ok op = true → preserves P (runOp ext op)) →
  forallb ok ops = true → P w → P (runOps ext ops w).
Proof.
  intros Hop. revert w. induction ops as [|op ops IH]; intros w Hall Hw; [done|].
  simpl in *. apply andb_prop in Hall as [Hok Hall].
  apply IH; [done|]. by apply Hop.
Qed.

(** C10, as the code has it.  After any history of calls, starting from the
    module as loaded, in which no selectors were registered under a key or
    under [__proto__] (by the history or by the client functions it
    called), [select( key )] is the empty mapping.  If no actions were
    registered under the key or under [__proto__], [dispatch( key )] is
    [undefined] unless the key is the name of a member of
    [Object.prototype], and then it is that member.  Neither call can
    throw: both only read the registries. *)
Theorem select_dispatch_unregistered (ops : list Op) :
  ((∀ n args, preserves (noSelectors reducerKey) (ext n args)) →
   (∀ n args, preserves (noSelectors "__proto__") (ext n args)) →
   forallb (fun op => negb (registersSelectors reducerKey op)
                      && negb (registersSelectors "__proto__" op)) ops = true →
   select reducerKey (runOps ext ops emptyWorld) = ∅)
  ∧ ((∀ n args, preserves (noActions reducerKey) (ext n args)) →
     (∀ n args, preserves (noActions "__proto__") (ext n args)) →
     forallb (fun op => negb (registersActions reducerKey op)
                        && negb (registersActions "__proto__" op)) ops = true →
     dispatch reducerKey (runOps ext ops emptyWorld)
     = if inherited reducerKey then Inherited reducerKey else Undefined).
Proof.
  split; intros Hext _ Hops.
  - assert (H : noSelectors reducerKey (runOps ext ops emptyWorld)).
    { eapply runOps_preserves; [|exact Hops|done].
      intros op [Hop _]%andb_prop. apply noSelectors_runOp; [done|].
      by apply negb_true_iff. }
    unfold select. rewrite H. simpl. apply fmap_empty.
  - assert (H : noActions reducerKey (runOps ext ops emptyWorld)).
    { eapply runOps_preserves; [|exact Hops|done].
      intros op [Hop _]%andb_prop. apply noActions_runOp; [done|].
      by apply negb_true_iff. }
    unfold dispatch. by rewrite H.
Qed.

End Unregistered.

(** ** Notification order and exceptions *)

Section Order.

Variable ext : nat → list Value → M unit.

Lemma callListener_trace (f : fn) (w : World) :
  ∃ sub, trace_of (callListener ext f w) = [EvListener f sub].
Proof.
  unfold callListener, traced, trace_of.
  destruct f as [n|c|c]; simpl;
    [ destruct (ext n [] w) as [[r w'] t]
    | destruct (Select_runSelection c None w) as [[r w'] t]
    | destruct (Data_runSelection c w) as [[r w'] t] ]; by eexists.
Qed.

Lemma forEach_app {A} (pre post : list A) (g : A → M unit) (w : World) :
  forEach (pre ++ post) g w
  = match forEach pre g w with
    | (Ok _, w1, t1) => let '(r, w2, t2) := forEach post g w1 in (r, w2, t1 ++ t2)
    | (Throw e, w1, t1) => (Throw e, w1, t1)
    end.
Proof.
  revert w. induction pre as [|x pre IH]; intros w; simpl.
  - by destruct (forEach post g w) as [[r w2] t2].
  - unfold bind. destruct (g x w) as [[[[]|e] w1] t1]; [|done].
    rewrite IH. destruct (forEach pre g w1) as [[[[]|e] w2] t2]; simpl.
    + destruct (forEach post g w2) as [[r w3] t3]. by rewrite app_assoc.
    + done.
Qed.

(** The listeners called by a walk over [ls] are the first ones of [ls], in
    order; all of them if the walk returns. *)
Lemma forEach_called (ls : list fn) (w : World) :
  calledListeners (trace_of (forEach ls (callListener ext) w)) `prefix_of` ls
  ∧ (∀ u, result_of (forEach ls (callListener ext) w) = Ok u →
          calledListeners (trace_of (forEach ls (callListener ext) w)) = ls).
Proof.
  revert w. induction ls as [|f ls IH]; intros w; simpl.
  - split; [done|]. by intros.
  - unfold bind. destruct (callListener_trace f w) as [sub Hsub].
    unfold trace_of, result_of in *.
    destruct (callListener ext f w) as [[[[]|e] w1] t1]; simpl in *; subst t1.
    + destruct (IH w1) as [Hpre Hall].
      destruct (forEach ls (callListener ext) w1) as [[r w2] t2]; simpl in *.
      split; [by apply prefix_cons|]. intros u ->. f_equal. by eapply Hall.
    + split; [|done]. apply prefix_cons, prefix_nil.
Qed.

Lemma globalListener_unfold (w : World) :
  globalListener ext w
  = let '(r, w', t) := forEach (listeners w) (callListener ext) w in
    (r, w', [EvGlobalListener t]).
Proof.
  unfold globalListener, traced, bind, getW. simpl.
  by destruct (forEach (listeners w) (callListener ext) w) as [[r w'] t].
Qed.

(** C7.  [globalListener()] calls listeners of the bus as it is when the
    call starts, in registration order, whatever the listeners do to the bus
    meanwhile: the listeners called are always the first ones of that list,
    and all of them when the call returns.  When a listener throws after
    the ones before it returned, the call throws the same exception at once,
    the listeners after it are not called, and a [store.dispatch] whose
    state change led to the notification throws that exception to its
    caller. *)
Theorem globalListener_order_no_isolation (w : World) :
  (∃ sub, trace_of (globalListener ext w) = [EvGlobalListener sub]
        ∧ calledListeners sub `prefix_of` listeners w
        ∧ (∀ u, result_of (globalListener ext w) = Ok u →
                calledListeners sub = listeners w))
  ∧ (∀ pre f post e w1 t1 w2 t2,
       listeners w = pre ++ f :: post →
       forEach pre (callListener ext) w = (Ok tt, w1, t1) →
       callListener ext f w1 = (Throw e, w2, t2) →
       globalListener ext w = (Throw e, w2, [EvGlobalListener (t1 ++ t2)])
       ∧ calledListeners (t1 ++ t2) = pre ++ [f])
  ∧ (∀ l action w0 s e,
       heap w0 !! l = Some s →
       let next := st_reducer s (st_state s) action in
       strict_eq next (st_lastState s) = false →
       w = set_heap (fun h => <[l:=mkStore (st_reducer s) next next]> h)
             (set_heap (fun h => <[l:=mkStore (st_reducer s) next (st_lastState s)]> h) w0) →
       result_of (globalListener ext w) = Throw e →
       result_of (store_dispatch ext l action w0) = Throw e).
Proof.
  split; [|split].
  - rewrite globalListener_unfold.
    destruct (forEach_called (listeners w) w) as [Hpre Hall].
    unfold trace_of, result_of in *.
    destruct (forEach (listeners w) (callListener ext) w) as [[r w'] t].
    simpl in *. by exists t.
  - intros pre f post e w1 t1 w2 t2 Hls Hpre Hf.
    rewrite globalListener_unfold, Hls, forEach_app, Hpre. simpl.
    unfold bind. rewrite Hf. split; [done|].
    pose proof (forEach_called pre w) as [_ Hall]. rewrite Hpre in Hall.
    destruct (callListener_trace f w1) as [sub Hsub]. rewrite Hf in Hsub.
    unfold trace_of, result_of in *. simpl in *. subst t2.
    unfold calledListeners in *. rewrite omap_app. simpl.
    by rewrite (Hall tt eq_refl).
  - intros l action w0 s e Hs next Hchanged Hw Hthrow.
    rewrite (store_dispatch_unfold ext l action w0 s Hs). simpl.
    fold next. rewrite Hchanged, <- Hw. unfold result_of in *.
    destruct (globalListener ext w) as [[[[]|e'] w2] t]; simpl in *; congruence.
Qed.

End Order.

(** ** Objects *)

Lemma get_app {A} (a b : Dict A) (k : string) :
  get (a ++ b) k = match get a k with Some v => Some v | None => get b k end.
Proof.
  induction a as [|[k' v] a IH]; simpl; [done|]. by case_bool_decide.
Qed.

Lemma get_mapValues {A B} (f : A → string → B) (o : Dict A) (k : string) :
  get (mapValues f o) k = (fun v => f v k) <$> get o k.
Proof.
  induction o as [|[k' v] o IH]; simpl; [done|].
  case_bool_decide; [by subst|done].
Qed.

Lemma get_filter_absent {A} (a b : Dict A) (k : string) :
  hasOwnProperty a k = false →
  get (filter (fun kv => hasOwnProperty a kv.1 = false) b) k = get b k.
Proof.
  intros Hk. induction b as [|[k' v] b IH]; [done|].
  rewrite filter_cons. simpl. case_decide as Hp; simpl.
  - by rewrite IH.
  - case_bool_decide; [by subst|done].
Qed.

Lemma get_None_keys {A} (o : Dict A) (k : string) :
  get o k = None ↔ k ∉ keys o.
Proof.
  unfold keys. induction o as [|[k' v] o IH]; simpl.
  - split; [intros _; apply not_elem_of_nil | done].
  - rewrite not_elem_of_cons. case_bool_decide as Hk.
    + split; [done|]. by intros [? _].
    + rewrite IH. split; [by intros ?; split; [congruence|] | by intros [_ ?]].
Qed.

Lemma get_Some_keys {A} (o : Dict A) (k : string) :
  is_Some (get o k) ↔ k ∈ keys o.
Proof.
  destruct (get o k) eqn:Hg.
  - split; [intros _|by eauto].
    destruct (decide (k ∈ keys o)) as [|Hn]; [done|].
    apply get_None_keys in Hn. congruence.
  - split; [by intros [? ?]|]. intros Hin. by apply get_None_keys in Hg.
Qed.

(** In [{ ...a, ...b }] a key of [b] has the value of [b], any other key
    the value of [a]. *)
Lemma get_spread {A} (a b : Dict A) (k : string) :
  get (spread a b) k = match get b k with Some v => Some v | None => get a k end.
Proof.
  unfold spread. rewrite get_app.
  assert (Ha : get (map (fun kv => (kv.1, default kv.2 (get b kv.1))) a) k
               = (fun v => default v (get b k)) <$> get a k).
  { induction a as [|[k' v] a IH]; simpl; [done|].
    case_bool_decide; [by subst|done]. }
  rewrite Ha. destruct (get a k) as [v|] eqn:Hk; simpl.
  - by destruct (get b k).
  - rewrite get_filter_absent by (unfold hasOwnProperty; by rewrite Hk).
    by destruct (get b k).
Qed.

(** ** withDispatch: stable callbacks *)

Lemma bindProxies_spec (old : Dict nat) (propNames bound : list string) :
  keys (bindProxies old propNames bound).1 = propNames
  ∧ bound `prefix_of` (bindProxies old propNames bound).2
  ∧ (∀ k f, get old k = Some f → k ∈ propNames →
            get (bindProxies old propNames bound).1 k = Some f)
  ∧ (∀ k f, get (bindProxies old propNames bound).1 k = Some f →
            get old k = Some f
            ∨ (get old k = None ∧ (bindProxies old propNames bound).2 !! f = Some k)).
Proof.
  revert bound. induction propNames as [|p ps IH]; intros bound; simpl.
  - split; [done|]. split; [done|]. split; [by intros ? ? _ ?%elem_of_nil|done].
  - destruct (get old p) as [g|] eqn:Hp.
    + destruct (IH bound) as (Hkeys & Hpre & Hold & Hnew).
      destruct (bindProxies old ps bound) as [r b]. unfold keys in *. simpl in *.
      split; [by f_equal|]. split; [done|]. split.
      * intros k f Hk Hin. case_bool_decide as Hpk; [congruence|].
        apply Hold; [done|]. apply elem_of_cons in Hin as [?|?]; [congruence|done].
      * intros k f. case_bool_decide as Hpk; [|apply Hnew].
        intros [= <-]. left. congruence.
    + destruct (IH (bound ++ [p])) as (Hkeys & Hpre & Hold & Hnew).
      destruct (bindProxies old ps (bound ++ [p])) as [r b].
      unfold keys in *. simpl in *.
      split; [by f_equal|]. split.
      { etrans; [|exact Hpre]. by apply prefix_app_r. }
      split.
      * intros k f Hk Hin. case_bool_decide as Hpk; [congruence|].
        apply Hold; [done|]. apply elem_of_cons in Hin as [?|?]; [congruence|done].
      * intros k f. case_bool_decide as Hpk; [|apply Hnew].
        intros [= <-]. right. subst k. split; [done|].
        eapply prefix_lookup_Some; [|exact Hpre]. by apply list_lookup_middle.
Qed.

Section DispatchProps.

Variable mapDispatchToProps : DispatchFn → Obj → Result (Dict Dispatcher).

(** While [proxyProps] has no callback named [hasOwnProperty], the loop of
    [setProxyProps] calls nothing and computes [bindProxies]. *)
Lemma Dispatch_bindProxies_ordinary (i : DispatchInst)
    (propNames bound : list string) (w : World) :
  get (dp_proxyProps i) "hasOwnProperty" = None →
  Dispatch_bindProxies mapDispatchToProps i propNames bound w
  = (Ok (bindProxies (dp_proxyProps i) propNames bound), w, []).
Proof.
  intros Hown. revert bound.
  induction propNames as [|p ps IH]; intros bound; [done|].
  cbn [Dispatch_bindProxies bindProxies]. unfold Dispatch_hasOwnProperty.
  rewrite Hown. unfold bind at 1, ret at 1, hasOwnProperty. cbn [fst snd].
  destruct (get (dp_proxyProps i) p) as [f|]; unfold bind; rewrite IH;
    by destruct (bindProxies (dp_proxyProps i) ps _) as [r b].
Qed.

(** The functions an instance has made are never forgotten. *)
Lemma Dispatch_bindProxies_bound (i : DispatchInst) (propNames : list string) :
  ∀ bound w rb w' t,
    Dispatch_bindProxies mapDispatchToProps i propNames bound w = (Ok rb, w', t) →
    bound `prefix_of` rb.2.
Proof.
  induction propNames as [|p ps IH]; intros bound w rb w' t.
  - by intros [= <- _ _].
  - cbn [Dispatch_bindProxies]. unfold bind at 1.
    destruct (Dispatch_hasOwnProperty _ i p w) as [[[has|e] w1] t1]; [|done].
    destruct (if has then get (dp_proxyProps i) p else None) as [f|].
    + unfold bind, ret.
      destruct (Dispatch_bindProxies _ i ps bound w1) as [[[rb'|e] w2] t2] eqn:Hrest;
        [|done].
      intros [= <- _ _]. simpl. by eapply IH.
    + unfold bind, ret.
      destruct (Dispatch_bindProxies _ i ps (bound ++ [p]) w1)
        as [[[rb'|e] w2] t2] eqn:Hrest; [|done].
      intros [= <- _ _]. simpl. etrans; [|by eapply IH]. by apply prefix_app_r.
Qed.

Lemma setProxyProps_spec (w : World) (props : Obj) (i : DispatchInst)
    (m : Dict Dispatcher) :
  mapDispatchToProps (dispatchFn w) props = Ok m →
  proxiesBound i →
  get (dp_proxyProps i) "hasOwnProperty" = None →
  ∃ i', Dispatch_setProxyProps mapDispatchToProps props i w = (Ok i', w, [])
      ∧ dp_props i' = dp_props i
      ∧ proxiesBound i'
      ∧ keys (dp_proxyProps i') = keys m
      ∧ (∀ k f, get (dp_proxyProps i) k = Some f → k ∈ keys m →
                get (dp_proxyProps i') k = Some f).
Proof.
  intros Hm Hi Hown. unfold Dispatch_setProxyProps, bind, getW, liftR.
  cbn [fst snd]. rewrite Hm, (Dispatch_bindProxies_ordinary _ _ _ _ Hown).
  destruct (bindProxies_spec (dp_proxyProps i) (keys m) (dp_bound i))
    as (Hkeys & Hpre & Hold & Hnew).
  destruct (bindProxies (dp_proxyProps i) (keys m) (dp_bound i)) as [r b].
  simpl in *. eexists. split; [done|]. simpl.
  split; [done|]. split; [|by split].
  intros k f Hk. simpl in *. destruct (Hnew k f Hk) as [Hold'|[_ Hfresh]]; [|done].
  eapply prefix_lookup_Some; [|exact Hpre]. by apply Hi.
Qed.

Lemma Dispatch_update_same (K : list string) (w : World) (nextProps : Obj)
    (i0 i : DispatchInst) (m : Dict Dispatcher) :
  "hasOwnProperty" ∉ K →
  mapDispatchToProps (dispatchFn w) nextProps = Ok m →
  (∀ k, k ∈ keys m ↔ k ∈ K) →
  sameCallbacks K i0 i →
  ∃ i', Dispatch_update mapDispatchToProps nextProps i w = (Ok i', w, [])
      ∧ dp_props i' = nextProps
      ∧ sameCallbacks K i0 i'.
Proof.
  intros HK0 Hm HK (Hbound & Hnames & Hsame).
  assert (Hown : get (dp_proxyProps i) "hasOwnProperty" = None).
  { apply get_None_keys. intros Hin. by apply HK0, Hnames. }
  destruct (setProxyProps_spec w nextProps i m Hm Hbound Hown)
    as (i' & Hi' & _ & Hbound' & Hkeys & Hkeep).
  unfold Dispatch_update, Dispatch_componentWillUpdate, bind. rewrite Hi'.
  eexists. split; [done|]. split; [done|]. split; [done|]. split.
  - intros k. simpl. rewrite Hkeys. apply HK.
  - intros k Hk. destruct (Hsame k Hk) as (f & Hf0 & Hf). exists f.
    split; [done|]. simpl. apply Hkeep; [done|]. by apply HK.
Qed.

Lemma Dispatch_updates_same (K : list string) (us : list (World * Obj))
    (i0 i : DispatchInst) :
  "hasOwnProperty" ∉ K →
  Forall (fun wp => ∃ m, mapDispatchToProps (dispatchFn wp.1) wp.2 = Ok m
                       ∧ ∀ k, k ∈ keys m ↔ k ∈ K) us →
  sameCallbacks K i0 i →
  ∃ i', Dispatch_updates mapDispatchToProps us i = Ok i'
      ∧ dp_props i' = default (dp_props i) (last us.*2)
      ∧ sameCallbacks K i0 i'.
Proof.
  intros HK0 Hus. revert i.
  induction Hus as [|[w p] us (m & Hm & HK) _ IH]; intros i Hi.
  - by exists i.
  - simpl in Hm, HK.
    destruct (Dispatch_update_same K w p i0 i m HK0 Hm HK Hi)
      as (i1 & Hi1 & Hp1 & Hs1).
    simpl. rewrite Hi1. destruct (IH i1 Hs1) as (i' & Hi' & Hp' & Hs').
    exists i'. split; [done|]. split; [|done].
    rewrite Hp', Hp1, last_cons. set (x := last us.*2).
    change (default p x
            = default (dp_props i) (match x with Some y => Some y | None => Some p end)).
    by destruct x.
Qed.


End DispatchProps.

(** C4.  The callbacks are not kept when one of the prop names is
    [hasOwnProperty].  The mapping function returns the two names
    [hasOwnProperty] and [onChange] at every render.  At mount
    [this.proxyProps] is still empty and the two callbacks are made.  At the
    next render [this.proxyProps.hasOwnProperty] is the callback of that
    name, not the method of [Object.prototype]: it forwards to the
    dispatcher and returns [undefined], so both names are bound anew and
    the wrapped component is handed other functions than at mount, the set
    of names being the same. *)
Theorem callbacks_rebound_under_hasOwnProperty :
  ∃ i0 i1,
    Dispatch_mount shadowProps [("label", VStr "a")] emptyWorld
    = (Ok i0, emptyWorld, [])
    ∧ Dispatch_update shadowProps [("label", VStr "b")] i0 emptyWorld
      = (Ok i1, emptyWorld, [])
    ∧ keys (dp_proxyProps i0) = ["hasOwnProperty"; "onChange"]
    ∧ keys (dp_proxyProps i1) = ["hasOwnProperty"; "onChange"]
    ∧ get (Dispatch_render i0) "onChange" = Some (inr 1)
    ∧ get (Dispatch_render i1) "onChange" = Some (inr 3).
Proof.
  do 2 eexists. split; [reflexivity|]. split; [reflexivity|]. by vm_compute.
Qed.

(** ** withData: when effects run *)

Lemma silent_bind {A B} (m : M A) (f : A → M B) :
  silent m → (∀ a, silent (f a)) → silent (bind m f).
Proof.
  intros Hm Hf w. specialize (Hm w). unfold bind, trace_of in *.
  destruct (m w) as [[[a|e] w1] t1]; simpl in *; [|done].
  specialize (Hf a w1). unfold trace_of in Hf.
  destruct (f a w1) as [[r w2] t2]. simpl in *. by subst.
Qed.

Lemma silent_mapValuesM {A B} (o : Dict A) (f : A → string → M B) :
  (∀ a k, silent (f a k)) → silent (mapValuesM o f).
Proof.
  intros Hf. induction o as [|[k a] o IH]; simpl; [done|].
  apply silent_bind; [apply Hf | intros b].
  apply silent_bind; [apply IH | by intros rest].
Qed.

Lemma silent_getDataInst (c : nat) : silent (getDataInst c).
Proof. intros w. unfold getDataInst. by destruct (dataInsts w !! c). Qed.

Lemma silent_selectorEntry (reducerKey key : string) :
  silent (selectorEntry reducerKey key).
Proof.
  intros w. unfold selectorEntry.
  destruct (selectors w !! reducerKey) as [m|]; [|done]. by destruct (m !! key).
Qed.

Lemma silent_callSelect (b : BoundSelect) (args : list Value) :
  silent (callSelect b args).
Proof.
  unfold callSelect. destruct (bs_store b) as [l|]; [|done].
  apply silent_bind; [|done]. unfold getState. apply silent_bind; [|done].
  intros w. unfold getStore. by destruct (heap w !! l).
Qed.

(** A notification makes a [withData] instance select again; it calls no
    effect. *)
Lemma Data_runSelection_effects (c : nat) (w : World) :
  effectCalls (trace_of (Data_runSelection c w)) = [].
Proof.
  unfold Data_runSelection.
  assert (Hsel : ∀ i : DataInst, silent (mapValuesM (di_resolvers i) (fun r _ =>
            let* selector := selectorEntry (r_reducerKey r) (r_key r) in
            callSelect (se_select selector) (r_args r)))).
  { intros i. apply silent_mapValuesM. intros r _.
    apply silent_bind; [apply silent_selectorEntry | intros e; apply silent_callSelect]. }
  unfold bind at 1. pose proof (silent_getDataInst c w) as H1. unfold trace_of in *.
  destruct (getDataInst c w) as [[[i|e] w1] t1]; simpl in *; subst t1; [|done].
  unfold bind at 1. pose proof (Hsel i w1) as H2. unfold trace_of in *.
  destruct (mapValuesM _ _ w1) as [[[newState|e] w2] t2]; simpl in *; subst t2; [|done].
  unfold bind at 1. pose proof (silent_getDataInst c w2) as H3. unfold trace_of in *.
  destruct (getDataInst c w2) as [[[i'|e] w3] t3]; simpl in *; subst t3; [|done].
  destruct (negb _); [|done].
  unfold Data_setState, bind at 1.
  pose proof (silent_getDataInst c w3) as H4. unfold trace_of in *.
  destruct (getDataInst c w3) as [[[i''|e] w4] t4]; simpl in *; subst t4; [|done].
  unfold bind, emit. simpl. by destruct (di_unmounted i'').
Qed.

Section Effects.

Variable ext : nat → list Value → M unit.

(** Effects that do not register selectors. *)
Hypothesis ext_selectors :
  ∀ n args w, selectors (world_of (ext n args w)) = selectors w.

Lemma Data_runSideEffects_cons (k : string) (r : Resolver) (rs : Dict Resolver)
    (w : World) :
  Data_runSideEffects ext ((k, r) :: rs) w
  = match selectors w !! r_reducerKey r with
    | None => (Throw (TypeError "selectors[ reducerKey ] is undefined"), w, [])
    | Some m =>
        match m !! r_key r with
        | None => (Throw (TypeError "selector is undefined"), w, [])
        | Some selector =>
            match se_effect selector with
            | None => Data_runSideEffects ext rs w
            | Some n =>
                match ext n (r_args r) w with
                | (Ok _, w1, t1) =>
                    let '(r', w2, t2) := Data_runSideEffects ext rs w1 in
                    (r', w2, EvEffect (r_reducerKey r) (r_key r) (r_args r) t1 :: t2)
                | (Throw e, w1, t1) =>
                    (Throw e, w1, [EvEffect (r_reducerKey r) (r_key r) (r_args r) t1])
                end
            end
        end
    end.
Proof.
  unfold Data_runSideEffects. simpl. unfold bind at 1, bind at 1, selectorEntry.
  destruct (selectors w !! r_reducerKey r) as [m|]; simpl; [|done].
  destruct (m !! r_key r) as [selector|]; simpl; [|done].
  destruct (se_effect selector) as [n|]; simpl.
  - unfold traced. destruct (ext n (r_args r) w) as [[[[]|e] w1] t1]; simpl; [|done].
    by destruct (forEach rs _ w1) as [[r' w2] t2].
  - by destruct (forEach rs _ w) as [[r' w2] t2].
Qed.

Lemma Data_runSideEffects_calls (rs : Dict Resolver) (w : World) :
  let r := Data_runSideEffects ext rs w in
  effectCalls (trace_of r) `prefix_of` effectsOf (selectors w) rs
  ∧ (∀ u, result_of r = Ok u → effectCalls (trace_of r) = effectsOf (selectors w) rs)
  ∧ selectors (world_of r) = selectors w.
Proof.
  revert w. induction rs as [|[k r] rs IH]; intros w.
  - split; [apply prefix_nil|]. split; [intros; reflexivity|reflexivity].
  - cbv zeta. rewrite Data_runSideEffects_cons. simpl effectsOf.
    destruct (selectors w !! r_reducerKey r) as [m|] eqn:Hm;
      [|split; [apply prefix_nil|by split]].
    destruct (m !! r_key r) as [selector|] eqn:Hsel;
      [|split; [apply prefix_nil|by split]].
    destruct (se_effect selector) as [n|] eqn:Heff; [|apply IH].
    pose proof (ext_selectors n (r_args r) w) as Hext. unfold world_of in Hext.
    destruct (ext n (r_args r) w) as [[[[]|e] w1] t1]; simpl in Hext.
    + specialize (IH w1). cbv zeta in IH. rewrite Hext in IH.
      destruct IH as (Hpre & Hall & Hsels).
      unfold trace_of, result_of, world_of in *.
      destruct (Data_runSideEffects ext rs w1) as [[r' w2] t2]. simpl in *.
      split; [by apply prefix_cons|]. split; [|done].
      intros u Hu. f_equal. by eapply Hall.
    + split; [apply prefix_cons, prefix_nil|]. by split.
Qed.

Lemma Data_runResolvers_unfold (c : nat) (i : DataInst) (props : option Obj)
    (resolvers : Dict Resolver) (w : World) :
  dataInsts w !! c = Some i →
  di_mapStateToProps i (resolveFn w) (default (di_props i) props) = Ok resolvers →
  let w1 := set_dataInsts (fun l => alter (fun i =>
              mkDataInst (di_mapStateToProps i) (di_props i) (di_state i)
                         resolvers (di_unsubscribe i) (di_unmounted i)) c l) w in
  Data_runResolvers ext c props w
  = match Data_runSideEffects ext
            (omitBy (sameResolver (di_resolvers i)) resolvers) w1 with
    | (Ok _, w2, t2) =>
        let '(r, w3, t3) := Data_runSelection c w2 in (r, w3, t2 ++ t3)
    | (Throw e, w2, t2) => (Throw e, w2, t2)
    end.
Proof.
  intros Hi Hmap w1.
  unfold Data_runResolvers, Data_resolve, updDataInst, bind, getDataInst, getW, liftR.
  simpl in Hmap |- *. repeat (first [rewrite Hi | rewrite Hmap]; simpl).
  fold w1.
  destruct (Data_runSideEffects ext _ w1) as [[[[]|e] w2] t2]; simpl; [|done].
  by destruct (Data_runSelection c w2) as [[r w3] t3].
Qed.

Lemma Data_runResolvers_calls (c : nat) (i : DataInst) (props : option Obj)
    (resolvers : Dict Resolver) (w : World) :
  dataInsts w !! c = Some i →
  di_mapStateToProps i (resolveFn w) (default (di_props i) props) = Ok resolvers →
  let r := Data_runResolvers ext c props w in
  let expected :=
    effectsOf (selectors w) (omitBy (sameResolver (di_resolvers i)) resolvers) in
  effectCalls (trace_of r) `prefix_of` expected
  ∧ (∀ u, result_of r = Ok u → effectCalls (trace_of r) = expected).
Proof.
  intros Hi Hmap. simpl. rewrite (Data_runResolvers_unfold c i props resolvers w Hi Hmap).
  set (w1 := set_dataInsts _ w).
  destruct (Data_runSideEffects_calls
              (omitBy (sameResolver (di_resolvers i)) resolvers) w1)
    as (Hpre & Hall & _).
  change (selectors w1) with (selectors w) in *.
  unfold trace_of, result_of in *.
  destruct (Data_runSideEffects ext _ w1) as [[[[]|e] w2] t2]; simpl in *; [|by split].
  pose proof (Data_runSelection_effects c w2) as Hsel. unfold trace_of in Hsel.
  destruct (Data_runSelection c w2) as [[r w3] t3]. simpl in *.
  unfold effectCalls in *. rewrite omap_app, Hsel, app_nil_r.
  split; [done|]. intros u _. by eapply Hall.
Qed.

Lemma Data_mount_unfold mapStateToProps (props : Obj) (w : World) :
  let c := length (dataInsts w) in
  let w' := set_dataInsts (fun l => alter (fun i =>
              mkDataInst (di_mapStateToProps i) (di_props i) (di_state i)
                         (di_resolvers i) (Some (FDataRun c)) (di_unmounted i)) c l)
            (set_listeners (fun ls => ls ++ [FDataRun c])
            (set_dataInsts (fun l =>
               l ++ [mkDataInst mapStateToProps props [] [] None false]) w)) in
  dataInsts w' !! c
  = Some (mkDataInst mapStateToProps props [] [] (Some (FDataRun c)) false)
  ∧ Data_mount ext mapStateToProps props w
    = match Data_runResolvers ext c None w' with
      | (Ok _, w2, t) => (Ok c, w2, t ++ [])
      | (Throw e, w2, t) => (Throw e, w2, t)
      end.
Proof.
  intros c w'. split.
  - subst w'. simpl. rewrite list_lookup_alter_eq. by rewrite list_lookup_middle.
  - unfold Data_mount, Data_constructor, Data_componentWillMount, Data_subscribe,
      subscribe, updDataInst, bind, getW, modifyW, ret. simpl. fold c. fold w'.
    by destruct (Data_runResolvers ext c None w') as [[[[]|e] w2] t].
Qed.

Lemma omitBy_first_run (resolvers : Dict Resolver) :
  omitBy (sameResolver []) resolvers = resolvers.
Proof.
  unfold omitBy. induction resolvers as [|[k r] rs IH]; [done|].
  rewrite filter_cons. simpl. by rewrite IH.
Qed.

Lemma omitBy_same (previous resolvers : Dict Resolver) (k : string) (r : Resolver) :
  sameResolver previous r k = true →
  (k, r) ∉ omitBy (sameResolver previous) resolvers.
Proof.
  intros Hsame [Hp _]%list_elem_of_filter. simpl in Hp. congruence.
Qed.

(** Effects and notifications leave the resolvers an instance keeps as
    they are, as long as the effects themselves do. *)
Lemma resolversAt_runSideEffects (c : nat) (rs resolvers : Dict Resolver) :
  (∀ n args, preserves (resolversAt c rs) (ext n args)) →
  preserves (resolversAt c rs) (Data_runSideEffects ext resolvers).
Proof.
  intros Hext. unfold Data_runSideEffects. apply preserves_forEach. intros [k r].
  apply preserves_bind; [apply preserves_selectorEntry|]. intros selector.
  destruct (se_effect selector); [apply preserves_traced, Hext|apply preserves_ret].
Qed.

Lemma resolversAt_runSelection (c c' : nat) (rs : Dict Resolver) :
  preserves (resolversAt c rs) (Data_runSelection c').
Proof.
  unfold Data_runSelection, Data_setState, updDataInst, callSelect, getState.
  repeat pres_step.
  apply preserves_modifyW. intros w (i & Hi & Hr). unfold resolversAt. simpl.
  destruct (decide (c' = c)) as [->|Hne].
  - rewrite list_lookup_alter_eq, Hi. simpl. by eexists.
  - rewrite list_lookup_alter_ne by done. by exists i.
Qed.

Lemma resolversAt_runResolvers (c : nat) (i : DataInst) (props : option Obj)
    (resolvers : Dict Resolver) (w : World) :
  dataInsts w !! c = Some i →
  di_mapStateToProps i (resolveFn w) (default (di_props i) props) = Ok resolvers →
  (∀ rs n args, preserves (resolversAt c rs) (ext n args)) →
  resolversAt c resolvers (world_of (Data_runResolvers ext c props w)).
Proof.
  intros Hi Hmap Hext.
  rewrite (Data_runResolvers_unfold c i props resolvers w Hi Hmap).
  set (w1 := set_dataInsts _ w).
  assert (Hw1 : resolversAt c resolvers w1).
  { subst w1. unfold resolversAt. simpl. rewrite list_lookup_alter_eq, Hi. simpl.
    by eexists. }
  pose proof (resolversAt_runSideEffects c resolvers
                (omitBy (sameResolver (di_resolvers i)) resolvers)
                (Hext resolvers) w1 Hw1) as Hw2.
  unfold world_of in *.
  destruct (Data_runSideEffects ext _ w1) as [[[[]|e] w2] t2]; simpl in *; [|done].
  pose proof (resolversAt_runSelection c c resolvers w2 Hw2) as Hw3.
  unfold world_of in Hw3. by destruct (Data_runSelection c w2) as [[r w3] t3].
Qed.


End Effects.

(** ** The examples computed *)

Example twoProps_effects :
  effectCalls (trace_of (Data_mount extIdle twoProps [] effectWorld))
  = [("k", "getX", [VNum 1]); ("k", "getX", [VNum 1])].
Proof. vm_compute. reflexivity. Qed.

Example dataScene_listeners : listeners dataScene = [FExt 0; FDataRun 0].
Proof. vm_compute. reflexivity. Qed.

Example dataScene_dispatch :
  trace_of (dispatchAction extUnmountData "key" "setValue" [VNum 5] dataScene)
  = [EvGlobalListener
       [EvListener (FExt 0) [];
        EvListener (FDataRun 0) [EvSetStateData 0 true [("value", VNum 5)]]]].
Proof. vm_compute. reflexivity. Qed.

Example selectScene_dispatch :
  trace_of (dispatchAction extUnmountSelect "key" "setValue" [VNum 5] selectScene)
  = [EvGlobalListener
       [EvListener (FExt 0) []; EvListener (FSelectRun 0) []]].
Proof. vm_compute. reflexivity. Qed.

(** ** Unmounting during a notification *)

(** [withSelect]: once [componentWillUnmount] has run, [runSelection] does
    nothing at all. *)
Lemma Select_runSelection_unmounting (c : nat) (i : SelectInst)
    (props : option Obj) (w : World) :
  selectInsts w !! c = Some i →
  si_isUnmounting i = true →
  Select_runSelection c props w = (Ok tt, w, []).
Proof.
  intros Hi Hu. unfold Select_runSelection, bind, getSelectInst.
  rewrite Hi. simpl. by rewrite Hu.
Qed.

(** [withSelect]: [componentWillUnmount] takes the listener of the instance
    off the bus and latches [isUnmounting]. *)
Lemma Select_componentWillUnmount_latches (c : nat) (i : SelectInst) (f : fn)
    (w : World) :
  selectInsts w !! c = Some i →
  si_unsubscribe i = Some f →
  ∃ w' i', Select_componentWillUnmount c w = (Ok tt, w', [])
         ∧ listeners w' = without (listeners w) f
         ∧ selectInsts w' !! c = Some i'
         ∧ si_isUnmounting i' = true.
Proof.
  intros Hi Hf. unfold Select_componentWillUnmount, bind, getSelectInst.
  rewrite Hi. simpl. rewrite Hf. simpl.
  eexists _, _. split; [reflexivity|]. split; [reflexivity|]. simpl.
  rewrite list_lookup_alter_eq, Hi. simpl. by split.
Qed.

(** [withData]: [componentWillUnmount] takes the listener off the bus and
    leaves everything else of the instance as it was; there is no flag. *)
Lemma Data_componentWillUnmount_only_unsubscribes (c : nat) (i : DataInst)
    (f : fn) (w : World) :
  dataInsts w !! c = Some i →
  di_unsubscribe i = Some f →
  Data_componentWillUnmount c w
  = (Ok tt, set_listeners (fun ls => without ls f) w, []).
Proof.
  intros Hi Hf. unfold Data_componentWillUnmount, bind, getDataInst.
  rewrite Hi. simpl. by rewrite Hf.
Qed.

(** C3 at its failing input.  A listener subscribed before a [withData]
    component unmounts the component when notified.  The notification that
    follows [dispatch( 'key' ).setValue( 5 )] still calls the [runSelection]
    of the unmounted instance, which calls [setState] on it; nothing throws.
    The same scene with [withSelect] records no such update. *)
Theorem withData_setState_after_unmount :
  let r := dispatchAction extUnmountData "key" "setValue" [VNum 5] dataScene in
  result_of r = Ok (mkAction "SET" [("value", VNum 5)])
  ∧ listeners dataScene = [FExt 0; FDataRun 0]
  ∧ listeners (world_of r) = [FExt 0]
  ∧ di_unmounted <$> dataInsts (world_of r) !! 0 = Some true
  ∧ trace_of r
    = [EvGlobalListener
         [EvListener (FExt 0) [];
          EvListener (FDataRun 0) [EvSetStateData 0 true [("value", VNum 5)]]]]
  ∧ staleDataUpdatesIn 0 (trace_of r) = 1
  ∧ staleSelectUpdatesIn 0
      (trace_of (dispatchAction extUnmountSelect "key" "setValue" [VNum 5]
                                selectScene)) = 0.
Proof. vm_compute. repeat split; reflexivity. Qed.


(** ** The theorems at concrete inputs *)

Lemma extIdle_quiet : quiet extIdle.
Proof. by intros n args w. Qed.

Lemma extIdle_preserves (P : World → Prop) (n : nat) (args : list Value) :
  preserves P (extIdle n args).
Proof. by intros w Hw. Qed.

Example dispatchSeq_valueWorld :
  dispatchSeq extIdle 0 [setAction 1; otherAction; setAction 1] valueWorld
  = [(VObj 0 [], VObj 1 [("value", VNum 1)], 1);
     (VObj 1 [("value", VNum 1)], VObj 1 [("value", VNum 1)], 0);
     (VObj 1 [("value", VNum 1)], VObj 2 [("value", VNum 1)], 1)].
Proof. vm_compute. reflexivity. Qed.

(** With the answering listener the first dispatch is followed by a nested
    one, which notifies inside the first notification. *)
Example answerWorld_dispatch :
  trace_of (store_dispatch extAnswer 0 (setAction 1) answerWorld)
  = [EvGlobalListener
       [EvListener (FExt 0)
          [EvGlobalListener [EvListener (FExt 0) []]]]].
Proof. vm_compute. reflexivity. Qed.

Example dispatchSeq_answerWorld :
  dispatchSeq extAnswer 0 [setAction 1; otherAction; setAction 1] answerWorld
  = [(VObj 0 [], VObj 1 [("value", VNum 1)], 1);
     (VObj 2 [("value", VNum 2)], VObj 2 [("value", VNum 2)], 0);
     (VObj 2 [("value", VNum 2)], VObj 3 [("value", VNum 1)], 1)].
Proof. vm_compute. reflexivity. Qed.


Lemma select_after_dispatch_witness :
  result_of (selectValue "key" "getValue" []
               (world_of (dispatchAction extIdle "key" "setValue" [VNum 5]
                                         valueWorld)))
  = Ok (VNum 5).
Proof.
  apply (select_after_dispatch extIdle extIdle_quiet "key" valueReducer
           (VNum 5) emptyWorld).
  intros state action Hset. unfold valueReducer.
  by rewrite bool_decide_eq_true_2.
Defined.

Example busWorld_notification :
  globalListener extThrow busWorld
  = (Throw (Thrown (VStr "boom")), busWorld,
     [EvGlobalListener [EvListener (FExt 0) []; EvListener (FExt 1) []]]).
Proof. vm_compute. reflexivity. Qed.

Lemma globalListener_order_no_isolation_witness :
  (globalListener extThrow busWorldReduced
   = (Throw (Thrown (VStr "boom")), busWorldReduced,
      [EvGlobalListener ([EvListener (FExt 0) []] ++ [EvListener (FExt 1) []])])
   ∧ calledListeners ([EvListener (FExt 0) []] ++ [EvListener (FExt 1) []])
     = [FExt 0] ++ [FExt 1])
  ∧ result_of (store_dispatch extThrow 0 (setAction 5) busWorld)
    = Throw (Thrown (VStr "boom")).
Proof.
  destruct (globalListener_order_no_isolation extThrow busWorldReduced)
    as (_ & Habort & Hsite).
  split.
  - apply (Habort [FExt 0] (FExt 1) [FExt 2] (Thrown (VStr "boom"))
                  busWorldReduced [EvListener (FExt 0) []]
                  busWorldReduced [EvListener (FExt 1) []]);
      vm_compute; reflexivity.
  - apply (Hsite 0 (setAction 5) busWorld
                 (mkStore valueReducer (VObj 0 []) (VObj 0 [])));
      vm_compute; reflexivity.
Defined.

Lemma bindings_outlive_reregistration_witness :
  let w3 := world_of (registerStore "key" (valueStore valueReducer) emptyWorld) in
  let w4 := world_of (registerReducer "key" valueReducer w3) in
  stores w3 !! "key" = Some 0
  ∧ stores w4 !! "key" = Some 1
  ∧ ∀ name b args,
      select "key" w4 !! name = Some b →
      bs_store b = Some 0
      ∧ result_of (callSelect b args w4) = bs_selector b (VObj 0 []) args.
Proof.
  pose proof (bindings_outlive_reregistration extIdle extIdle_quiet "key"
                valueReducer valueReducer
                {["getValue" := SelFunction getValue]}
                {["setValue" := setValue]} emptyWorld) as H.
  cbv zeta in H. destruct H as (_ & _ & H3 & H4 & _ & _ & _ & Hsel & _).
  intros w3 w4. split; [exact H3|]. split; [exact H4|]. exact Hsel.
Defined.

Lemma select_dispatch_unregistered_witness :
  let ops := [OpRegisterStore "key" (valueStore valueReducer);
              OpSubscribe (FExt 0);
              OpDispatch "key" "setValue" [VNum 1];
              OpSelect "other" "getValue" []] in
  select "other" (runOps extIdle ops emptyWorld) = ∅
  ∧ dispatch "other" (runOps extIdle ops emptyWorld) = Undefined
  ∧ dispatch "toString" (runOps extIdle ops emptyWorld) = Inherited "toString".
Proof.
  intros ops.
  destruct (select_dispatch_unregistered extIdle "other" ops) as [Hsel Hact].
  destruct (select_dispatch_unregistered extIdle "toString" ops) as [_ Hact'].
  split; [|split].
  - apply Hsel; [intros n args; apply extIdle_preserves.. | reflexivity].
  - apply Hact; [intros n args; apply extIdle_preserves.. | reflexivity].
  - apply Hact'; [intros n args; apply extIdle_preserves.. | reflexivity].
Defined.

(** On the module as loaded, with no actions registered at all,
    [dispatch( 'constructor' )] is not [undefined]: [actions] is a plain
    object and the read finds the member it inherits. *)
Lemma dispatch_constructor_not_undefined :
  dispatch "constructor" emptyWorld = Inherited "constructor"
  ∧ dispatch "constructor" emptyWorld ≠ Undefined.
Proof. by split. Qed.


Lemma extIdle_selectors (n : nat) (args : list Value) (w : World) :
  selectors (world_of (extIdle n args w)) = selectors w.
Proof. reflexivity. Qed.

Lemma extIdle_resolvers (c : nat) (rs : Dict Resolver) (n : nat)
    (args : list Value) :
  preserves (resolversAt c rs) (extIdle n args).
Proof. by intros w. Qed.


Lemma registerStore_requires_reducer_witness :
  registerStore "key" (mkStoreOptions None (Some {["setValue" := setValue]}) None)
                valueWorld
  = (Throw (TypeError "Must specify store reducer"), valueWorld, []).
Proof.
  apply (registerStore_requires_reducer "key"
           (mkStoreOptions None (Some {["setValue" := setValue]}) None) valueWorld).
  reflexivity.
Defined.

Lemma subscribe_unsubscribe_witness :
  ∃ u, result_of (subscribe (FExt 1) busWorld) = Ok u
     ∧ listeners (world_of (unsubscribe u busWorld)) = [FExt 0; FExt 2]
     ∧ listeners (world_of (unsubscribe u (world_of (unsubscribe u busWorld))))
       = [FExt 0; FExt 2].
Proof.
  destruct (subscribe_unsubscribe (FExt 1) busWorld) as (u & Hu & _ & Hany & _).
  exists u. split; [exact Hu|].
  destruct (Hany busWorld) as (_ & H1 & _).
  destruct (Hany (world_of (unsubscribe u busWorld))) as (_ & H2 & _).
  rewrite H2, H1. split; vm_compute; reflexivity.
Defined.

(** * Further properties *)

(** ** Registering selectors and actions *)

Section Registering.

Variable ext : nat → list Value → M unit.

(** Registering selectors under a key (not the name of a member of
    [Object.prototype]; no reducer registered under [__proto__] and none of
    the selectors named [__proto__]) replaces the selectors the key had:
    after two
    registrations [select( key )] has exactly the names of the second, each
    bound to the store the key had at that time; a name of the first
    registration only is gone, and calling it is a TypeError unless it is
    the name of a member of [Object.prototype]; the selectors of every other
    key, the stores, the actions and the bus are as before; and calling a
    registered name returns what the client's selector returns on the state
    of that store. *)
Theorem registerSelectors_replaces (reducerKey : string)
    (first second : gmap string SelectorSpec) (w : World) :
  inherited reducerKey = false →
  stores w !! "__proto__" = None →
  second !! "__proto__" = None →
  let w2 := world_of (registerSelectors reducerKey second
              (world_of (registerSelectors reducerKey first w))) in
  (∀ name, select reducerKey w2 !! name
           = (fun spec => mkBoundSelect (stores w !! reducerKey) (selectorOf spec))
             <$> second !! name)
  ∧ (∀ name args, second !! name = None → inherited name = false →
       selectValue reducerKey name args w2
       = (Throw (TypeError "not a function"), w2, []))
  ∧ (∀ name spec l s args,
       second !! name = Some spec →
       stores w !! reducerKey = Some l →
       heap w !! l = Some s →
       selectValue reducerKey name args w2
       = (selectorOf spec (st_state s) args, w2, []))
  ∧ (∀ other, other ≠ reducerKey → select other w2 = select other w)
  ∧ heap w2 = heap w ∧ stores w2 = stores w ∧ actions w2 = actions w
  ∧ listeners w2 = listeners w.
Proof.
  intros _ _ _ w2.
  assert (Hsel : ∀ name, select reducerKey w2 !! name
           = (fun spec => mkBoundSelect (stores w !! reducerKey) (selectorOf spec))
             <$> second !! name).
  { intros name. subst w2. unfold select. simpl.
    rewrite lookup_insert_eq. simpl. rewrite !lookup_fmap.
    by destruct (second !! name) as [[f|f effect]|]. }
  split; [exact Hsel|]. split; [|split; [|split]].
  - intros name args Hname Hinh. unfold selectValue, bind, getW. simpl.
    rewrite Hsel, Hname. simpl. unfold getProperty. by rewrite Hinh.
  - intros name spec l s args Hname Hl Hs.
    unfold selectValue, bind, getW. simpl. rewrite Hsel, Hname. simpl.
    unfold callSelect. simpl. rewrite Hl. unfold bind, getState, bind, getStore.
    change (heap w2) with (heap w). rewrite Hs. simpl. unfold liftR.
    by destruct (selectorOf spec (st_state s) args).
  - intros other Hother. subst w2. unfold select. simpl.
    by rewrite !lookup_insert_ne.
  - done.
Qed.

(** Registering actions under a key replaces the actions the key had, and a
    registered action dispatches what its creator returns to the store the
    key had at registration: with listeners that leave the stores alone and
    no action named [__proto__], [dispatch( key )[ name ]( ...args )] makes
    the state of that store what its reducer returns for the action and
    changes no other store and no registry; a name that was not in the
    registration and is not the name of a member of [Object.prototype] is a
    TypeError and changes nothing. *)
Theorem registerActions_binds (reducerKey name : string)
    (newActions : gmap string (list Value → Result Action)) (w : World) :
  quiet ext →
  newActions !! "__proto__" = None →
  let w1 := world_of (registerActions reducerKey newActions w) in
  (∀ args, newActions !! name = None → inherited name = false →
     dispatchAction ext reducerKey name args w1
     = (Throw (TypeError "not a function"), w1, []))
  ∧ (∀ creator args action l s,
       newActions !! name = Some creator →
       creator args = Ok action →
       stores w !! reducerKey = Some l →
       heap w !! l = Some s →
       let next := st_reducer s (st_state s) action in
       let w2 := world_of (dispatchAction ext reducerKey name args w1) in
       heap w2 !! l = Some (mkStore (st_reducer s) next next)
       ∧ (∀ l', l' ≠ l → heap w2 !! l' = heap w !! l')
       ∧ stores w2 = stores w ∧ selectors w2 = selectors w
       ∧ actions w2 = actions w1).
Proof.
  intros Hquiet _ w1.
  assert (Hact : dispatch reducerKey w1
                 = Own (mkActionEntry (stores w !! reducerKey) <$> newActions)).
  { subst w1. unfold dispatch. simpl. by rewrite lookup_insert_eq. }
  split.
  - intros args Hname Hinh. unfold dispatchAction, bind, getW. simpl.
    rewrite Hact, lookup_fmap, Hname. simpl. unfold getProperty. by rewrite Hinh.
  - intros creator args action l s Hname Hcreate Hl Hs next w2.
    assert (Hw2 : w2 = world_of (store_dispatch ext l action w1)).
    { subst w2. unfold dispatchAction, bind at 1, getW. simpl.
      rewrite Hact, lookup_fmap, Hname. simpl.
      unfold callAction, bind, liftR, world_of. simpl. rewrite Hl. simpl.
      rewrite Hcreate.
      by destruct (store_dispatch ext l action w1) as [[[] ?] ?]. }
    pose proof (store_dispatch_registry ext Hquiet l action w1 s Hs) as Hreg.
    rewrite <- Hw2 in Hreg. cbv zeta in Hreg. injection Hreg as Hheap Hst Hsel Hac.
    change (heap w1) with (heap w) in Hheap.
    assert (Hlt : l < length (heap w)) by (by eapply lookup_lt_Some).
    rewrite Hheap. split; [by rewrite list_lookup_insert_eq|].
    split; [intros l' Hl'; by rewrite list_lookup_insert_ne|]. done.
Qed.

End Registering.

(** ** Selectors and actions registered before their store *)

Section Unbound.

Variable ext : nat → list Value → M unit.
Variable reducerKey : string.

Lemma selectorsAt_bindings (m : gmap string SelectorEntry) :
  bindings_only (selectorsAt reducerKey m).
Proof. intros w w' Hs _. unfold selectorsAt. by rewrite Hs. Qed.

Lemma actionsAt_bindings (m : gmap string ActionEntry) :
  bindings_only (actionsAt reducerKey m).
Proof. intros w w' _ Ha. unfold actionsAt. by rewrite Ha. Qed.

Lemma selectorsAt_runOp (m : gmap string SelectorEntry) (op : Op) :
  (∀ n args, preserves (selectorsAt reducerKey m) (ext n args)) →
  registersSelectors reducerKey op = false →
  preserves (selectorsAt reducerKey m) (runOp ext op).
Proof.
  intros Hext Hop.
  destruct op;
    try (apply bindings_runOp; [apply selectorsAt_bindings | done | done]).
  - intros w Hw. simpl. rewrite discard_world. unfold selectorsAt.
    by rewrite registerStore_selectors.
  - intros w Hw. simpl in *. apply bool_decide_eq_false in Hop.
    unfold selectorsAt. simpl. by rewrite lookup_insert_ne.
  - intros w Hw. exact Hw.
Qed.

Lemma actionsAt_runOp (m : gmap string ActionEntry) (op : Op) :
  (∀ n args, preserves (actionsAt reducerKey m) (ext n args)) →
  registersActions reducerKey op = false →
  preserves (actionsAt reducerKey m) (runOp ext op).
Proof.
  intros Hext Hop.
  destruct op;
    try (apply bindings_runOp; [apply actionsAt_bindings | done | done]).
  - intros w Hw. simpl. rewrite discard_world. unfold actionsAt.
    by rewrite registerStore_actions.
  - intros w Hw. exact Hw.
  - intros w Hw. simpl in *. apply bool_decide_eq_false in Hop.
    unfold actionsAt. simpl. by rewrite lookup_insert_ne.
Qed.

(** Selectors registered under a key that has no store yet are bound to
    [undefined] for good: after any history of calls that does not register
    selectors under the key again (it may well register the reducer), calling
    one of them is a TypeError and changes nothing. *)
Theorem selectors_before_store_throw (newSelectors : gmap string SelectorSpec)
    (ops : list Op) (name : string) (spec : SelectorSpec) (args : list Value)
    (w : World) :
  stores w !! reducerKey = None →
  newSelectors !! name = Some spec →
  (∀ m n a, preserves (selectorsAt reducerKey m) (ext n a)) →
  forallb (fun op => negb (registersSelectors reducerKey op)) ops = true →
  let w' := runOps ext ops (world_of (registerSelectors reducerKey newSelectors w)) in
  selectValue reducerKey name args w'
  = (Throw (TypeError "store is undefined"), w', []).
Proof.
  intros Hstore Hname Hext Hops w'.
  set (m := (fun selector =>
               match selector with
               | SelFunction f => mkSelectorEntry (mkBoundSelect None f) None
               | SelObject f effect => mkSelectorEntry (mkBoundSelect None f) effect
               end) <$> newSelectors).
  assert (Hm : selectorsAt reducerKey m w').
  { subst w'. eapply runOps_preserves; [|exact Hops|].
    - intros op Hop. apply selectorsAt_runOp; [apply Hext|].
      by apply negb_true_iff.
    - unfold selectorsAt, registerSelectors, bind, world_of. simpl.
      rewrite lookup_insert_eq, Hstore. reflexivity. }
  unfold selectValue, bind, getW. simpl. unfold select. rewrite Hm. simpl.
  subst m. rewrite !lookup_fmap, Hname. simpl. by destruct spec.
Qed.

(** The same for actions: an action registered under a key that has no
    store yet never dispatches.  After any history that does not register
    actions under the key again, calling it with arguments its creator
    accepts is a TypeError, and no store and no listener has been touched. *)
Theorem actions_before_store_throw
    (newActions : gmap string (list Value → Result Action))
    (ops : list Op) (name : string) (creator : list Value → Result Action)
    (args : list Value) (action : Action) (w : World) :
  stores w !! reducerKey = None →
  newActions !! name = Some creator →
  creator args = Ok action →
  (∀ m n a, preserves (actionsAt reducerKey m) (ext n a)) →
  forallb (fun op => negb (registersActions reducerKey op)) ops = true →
  let w' := runOps ext ops (world_of (registerActions reducerKey newActions w)) in
  dispatchAction ext reducerKey name args w'
  = (Throw (TypeError "store is undefined"), w', []).
Proof.
  intros Hstore Hname Hcreate Hext Hops w'.
  set (m := mkActionEntry None <$> newActions).
  assert (Hm : actionsAt reducerKey m w').
  { subst w'. eapply runOps_preserves; [|exact Hops|].
    - intros op Hop. apply actionsAt_runOp; [apply Hext|].
      by apply negb_true_iff.
    - unfold actionsAt, registerActions, bind, world_of. simpl.
      rewrite lookup_insert_eq, Hstore. reflexivity. }
  unfold dispatchAction, bind, getW. simpl. unfold dispatch. rewrite Hm.
  simpl. subst m. by rewrite lookup_fmap, Hname.
Qed.

End Unbound.

(** ** Change detection stays in step *)

Lemma settled_registry_only : registry_only settled.
Proof.
  intros v v' Hr Hv. injection Hr as Hh _ _ _. unfold settled. by rewrite <- Hh.
Qed.

Lemma settled_store_dispatch (ext : nat → list Value → M unit) (l : nat)
    (action : Action) :
  (∀ n args, preserves settled (ext n args)) →
  preserves settled (store_dispatch ext l action).
Proof.
  intros Hext w Hw.
  destruct (heap w !! l) as [s|] eqn:Hs.
  - assert (Hl : l < length (heap w)) by (by eapply lookup_lt_Some).
    rewrite (store_dispatch_unfold ext l action w s Hs). simpl.
    set (next := st_reducer s (st_state s) action).
    set (w1 := set_heap _ (set_heap _ w)).
    assert (Hw1 : settled w1).
    { intros l' s'. subst w1. simpl. rewrite list_insert_insert_eq.
      destruct (decide (l' = l)) as [->|Hne].
      - rewrite list_lookup_insert_eq by done. by intros [= <-].
      - rewrite list_lookup_insert_ne by done. apply Hw. }
    destruct (strict_eq next (st_lastState s)); [done|].
    assert (Hg : settled (world_of (globalListener ext w1))).
    { apply preserves_globalListener; [apply settled_registry_only|done..]. }
    unfold world_of in *.
    by destruct (globalListener ext w1) as [[[[]|e] w2] t].
  - unfold store_dispatch, bind, getStore. by rewrite Hs.
Qed.

Lemma settled_runOp (ext : nat → list Value → M unit) (op : Op) :
  (∀ n args, preserves settled (ext n args)) →
  preserves settled (runOp ext op).
Proof.
  intros Hext.
  assert (Hd : ∀ A (m : M A), preserves settled m → preserves settled (discard m)).
  { intros A m Hm. unfold discard. pres. }
  assert (Hnew : ∀ k reducer, preserves settled (registerReducer k reducer)).
  { intros k reducer w Hw l' s. simpl.
    intros [Hs|[_ Hs]]%lookup_app_Some; [by eapply Hw|].
    destruct (l' - length (heap w)); simpl in Hs; [|done]. by injection Hs as <-. }
  assert (Hsel : ∀ k newSelectors, preserves settled (registerSelectors k newSelectors)).
  { by intros k newSelectors w Hw. }
  assert (Hact : ∀ k newActions, preserves settled (registerActions k newActions)).
  { by intros k newActions w Hw. }
  destruct op;
    try (apply preserves_ui_runOp;
         [apply settled_registry_only | exact Hext | done]);
    simpl; try apply Hd; auto.
  - unfold registerStore. destruct (opt_reducer options); [|apply preserves_throw].
    pres; auto.
  - unfold dispatchAction, callAction. pres; by apply settled_store_dispatch.
  - by apply settled_store_dispatch.
Qed.

Lemma settled_clientFn (table : nat → list Value → World → list Op)
    (k n : nat) (args : list Value) :
  preserves settled (clientFn table k n args).
Proof.
  revert n args. induction k as [|k IH]; intros n args w Hw; [done|].
  simpl. apply preserves_forEach; [|done].
  intros op. by apply settled_runOp.
Qed.

(** Whatever clients do through the module, from the moment it is loaded
    (registering, dispatching, subscribing, mounting, with listeners and
    effects that call back into the module to any depth), the [lastState]
    kept by the subscriber of every store is the state of that store once
    the call is over: the next dispatch is compared with the state it
    really started from.  This holds as well after a call that threw. *)
Theorem lastState_in_step (table : nat → list Value → World → list Op)
    (k : nat) (ops : list Op) :
  ∀ l s, heap (runOps (clientFn table k) ops emptyWorld) !! l = Some s →
         st_lastState s = st_state s.
Proof.
  change (settled (runOps (clientFn table k) ops emptyWorld)).
  apply (runOps_preserves (clientFn table k) settled (fun _ => true)).
  - intros op _. apply settled_runOp. intros n args. apply settled_clientFn.
  - by induction ops.
  - by intros l s.
Qed.

(** ** withSelect: selecting, re-rendering, unmounting *)

Lemma strict_eq_refl (v : Value) : strict_eq v v = true.
Proof. destruct v; simpl; try done; by apply bool_decide_eq_true. Qed.

Lemma get_NoDup {A} (o : Dict A) (k : string) (v : A) :
  NoDup (keys o) → (k, v) ∈ o → get o k = Some v.
Proof.
  unfold keys. induction o as [|[k' v'] o IH]; simpl.
  - by intros _ ?%elem_of_nil.
  - intros [Hk' Hnd]%NoDup_cons [Heq|Hin]%elem_of_cons.
    + injection Heq as -> ->. by rewrite bool_decide_eq_true_2.
    + case_bool_decide as Hkk; [|by apply IH].
      subst k'. exfalso. apply Hk'. apply list_elem_of_fmap. by exists (k, v).
Qed.

Lemma isShallowEqual_refl (o : Obj) : NoDup (keys o) → isShallowEqual o o = true.
Proof.
  intros Hnd. unfold isShallowEqual. rewrite bool_decide_eq_true_2 by done. simpl.
  apply forallb_forall. intros [k v] Hin. simpl.
  apply list_elem_of_In in Hin. rewrite (get_NoDup o k v Hnd Hin).
  apply strict_eq_refl.
Qed.

(** What a mapping function can select depends on the stores and the
    selectors only. *)
Lemma selectFn_registry (w w' : World) :
  heap w' = heap w → selectors w' = selectors w → selectFn w' = selectFn w.
Proof.
  intros Hh Hs. extensionality reducerKey. extensionality name.
  extensionality args. unfold selectFn, select. rewrite Hs.
  destruct (_ !! name) as [b|]; simpl; [|by destruct (inherited name)].
  unfold callSelect. destruct (bs_store b) as [l|]; [|done].
  unfold result_of, bind, getState, bind, getStore. rewrite Hh.
  destruct (heap w !! l); [|done]. simpl. unfold liftR.
  by destruct (bs_selector b _ args).
Qed.

(** What [runSelection] amounts to for an instance that is not unmounting
    and whose mapping function returns. *)
Lemma Select_runSelection_unfold (c : nat) (i : SelectInst) (props : option Obj)
    (r : option Obj) (w : World) :
  selectInsts w !! c = Some i →
  si_isUnmounting i = false →
  si_mapStateToProps i (selectFn w) (default (si_props i) props) = Ok r →
  let next := default [] r in
  Select_runSelection c props w
  = if isShallowEqualOpt next (si_mergeProps i) then (Ok tt, w, [])
    else (Ok tt,
          (if si_unmounted i then w
           else set_selectInsts (fun l => alter (fun i =>
                  mkSelectInst (si_mapStateToProps i) (si_props i) (Some next)
                               (si_unsubscribe i) (si_isUnmounting i)
                               (si_unmounted i)) c l) w),
          [EvSetStateSelect c (si_unmounted i) next]).
Proof.
  intros Hi Hu Hmap next.
  unfold Select_runSelection, bind, getSelectInst, getW, liftR.
  simpl in Hmap |- *. rewrite Hi. simpl. rewrite Hu, Hmap. simpl. fold next.
  destruct (isShallowEqualOpt next (si_mergeProps i)); simpl; [done|].
  unfold Select_setState, bind, getSelectInst, emit. simpl. rewrite Hi. simpl.
  by destruct (si_unmounted i).
Qed.

(** A dispatch reaching a mounted [withSelect] component, the only listener
    on the bus.  If the reducer returns the state the store had, nothing is
    notified.  If it returns another state, the component is notified once,
    and it re-renders exactly when the props its mapping function derives
    from the new state are not shallowly equal to the ones it holds: then
    [setState] is called once, with the derived props; if they are
    shallowly equal there is no [setState], although the state of the store
    has changed. *)
Theorem Select_rerenders_iff_props_changed (ext : nat → list Value → M unit)
    (l c : nat) (action : Action) (s : Store) (i : SelectInst) (r : option Obj)
    (w : World) :
  heap w !! l = Some s →
  listeners w = [FSelectRun c] →
  selectInsts w !! c = Some i →
  si_isUnmounting i = false →
  si_unmounted i = false →
  let state := st_reducer s (st_state s) action in
  let w1 := set_heap (fun h => <[l:=mkStore (st_reducer s) state state]> h) w in
  si_mapStateToProps i (selectFn w1) (si_props i) = Ok r →
  let next := default [] r in
  let run := store_dispatch ext l action w in
  result_of run = Ok action
  ∧ trace_of run
    = (if strict_eq state (st_lastState s) then []
       else [EvGlobalListener
               [EvListener (FSelectRun c)
                  (if isShallowEqualOpt next (si_mergeProps i) then []
                   else [EvSetStateSelect c false next])]])
  ∧ registry (world_of run)
    = (<[l:=mkStore (st_reducer s) state state]> (heap w),
       stores w, selectors w, actions w)
  ∧ listeners (world_of run) = listeners w.
Proof.
  intros Hs Hls Hi Hu Hm state w1 Hmap next run. subst run.
  rewrite (store_dispatch_unfold ext l action w s Hs). cbv zeta. fold state.
  set (w1' := set_heap _ (set_heap _ w)).
  destruct (strict_eq state (st_lastState s)).
  { unfold result_of, trace_of, world_of, registry. simpl.
    by rewrite list_insert_insert_eq. }
  assert (Hmap' : si_mapStateToProps i (selectFn w1') (default (si_props i) None)
                  = Ok r).
  { rewrite (selectFn_registry w1 w1'); [done| |done].
    subst w1' w1. simpl. by rewrite list_insert_insert_eq. }
  assert (Hg : globalListener ext w1'
               = (Ok tt, world_of (Select_runSelection c None w1'),
                  [EvGlobalListener
                     [EvListener (FSelectRun c)
                        (trace_of (Select_runSelection c None w1'))]])).
  { rewrite globalListener_unfold.
    change (listeners w1') with (listeners w). rewrite Hls.
    cbn [forEach]. unfold bind, callListener, traced, ret, world_of, trace_of.
    by destruct (Select_runSelection c None w1') as [[[[]|e] w2] t] eqn:Hrun;
      [|rewrite (Select_runSelection_unfold c i None r w1' Hi Hu Hmap') in Hrun;
        destruct (isShallowEqualOpt _ _)]. }
  rewrite Hg, (Select_runSelection_unfold c i None r w1' Hi Hu Hmap'). fold next.
  rewrite Hm.
  destruct (isShallowEqualOpt next (si_mergeProps i)); unfold result_of, trace_of,
    world_of, registry; simpl; by rewrite list_insert_insert_eq.
Qed.

Lemma without_absent {A} `{EqDecision A} (l : list A) (x : A) :
  x ∉ l → without l x = l.
Proof.
  unfold without. induction l as [|y l IH]; [done|].
  intros [Hy Hl]%not_elem_of_cons. rewrite filter_cons.
  case_decide; [by rewrite IH|congruence].
Qed.

(** What mounting a [withSelect] component amounts to. *)
Lemma Select_mount_unfold mapStateToProps (props : Obj) (w : World) :
  let c := length (selectInsts w) in
  let w' := set_selectInsts (fun l => alter (fun i =>
              mkSelectInst (si_mapStateToProps i) (si_props i) (si_mergeProps i)
                           (Some (FSelectRun c)) (si_isUnmounting i)
                           (si_unmounted i)) c l)
            (set_listeners (fun ls => ls ++ [FSelectRun c])
            (set_selectInsts (fun l =>
               l ++ [mkSelectInst mapStateToProps props None None false false]) w)) in
  selectInsts w' !! c
  = Some (mkSelectInst mapStateToProps props None (Some (FSelectRun c)) false false)
  ∧ Select_mount mapStateToProps props w
    = match Select_runSelection c None w' with
      | (Ok _, w2, t) => (Ok c, w2, t ++ [])
      | (Throw e, w2, t) => (Throw e, w2, t)
      end.
Proof.
  intros c w'. split.
  - subst w'. simpl. rewrite list_lookup_alter_eq. by rewrite list_lookup_middle.
  - unfold Select_mount, Select_constructor, Select_componentWillMount,
      Select_subscribe, subscribe, updSelectInst, bind, getW, modifyW, ret.
    simpl. fold c. fold w'.
    by destruct (Select_runSelection c None w') as [[[[]|e] w2] t].
Qed.

(** A mount whose mapping function returns. *)
Lemma Select_mount_ok mapStateToProps (props : Obj) (m : option Obj) (w : World) :
  mapStateToProps (selectFn w) props = Ok m →
  let c := length (selectInsts w) in
  let r := Select_mount mapStateToProps props w in
  let next := default [] m in
  result_of r = Ok c
  ∧ trace_of r = [EvSetStateSelect c false next]
  ∧ listeners (world_of r) = listeners w ++ [FSelectRun c]
  ∧ registry (world_of r) = registry w
  ∧ selectInsts (world_of r)
    = selectInsts w
      ++ [mkSelectInst mapStateToProps props (Some next)
                       (Some (FSelectRun c)) false false].
Proof.
  intros Hm c r next. subst r.
  destruct (Select_mount_unfold mapStateToProps props w) as [Hi Hmount].
  fold c in Hi, Hmount. rewrite Hmount. clear Hmount.
  set (w' := set_selectInsts _ (set_listeners _ (set_selectInsts _ w))) in *.
  set (i0 := mkSelectInst mapStateToProps props None (Some (FSelectRun c))
                          false false) in *.
  assert (Hfn : selectFn w' = selectFn w) by (by apply selectFn_registry).
  assert (Hm' : si_mapStateToProps i0 (selectFn w') (default (si_props i0) None)
                = Ok m) by (by rewrite Hfn).
  rewrite (Select_runSelection_unfold c i0 None m w' Hi eq_refl Hm').
  fold next. unfold result_of, trace_of, world_of. simpl.
  split; [done|]. split; [done|]. split; [done|]. split; [done|].
  subst w'. simpl.
  rewrite !(alter_app_r_alt _ (selectInsts w)) by (subst c; lia).
  by replace (c - length (selectInsts w)) with 0 by (subst c; lia).
Qed.


(** Mounting and then unmounting a [withSelect] component leaves the bus,
    the registries and the stores as they were; what stays is the instance,
    flagged as unmounting. *)
Theorem Select_mount_unmount_restores mapStateToProps (props : Obj)
    (m : option Obj) (w : World) :
  mapStateToProps (selectFn w) props = Ok m →
  FSelectRun (length (selectInsts w)) ∉ listeners w →
  let c := length (selectInsts w) in
  let w1 := world_of (Select_mount mapStateToProps props w) in
  let r := Select_unmount c w1 in
  result_of r = Ok tt
  ∧ trace_of r = []
  ∧ listeners (world_of r) = listeners w
  ∧ registry (world_of r) = registry w
  ∧ unmounting c (world_of r).
Proof.
  intros Hm Hfresh c w1 r.
  destruct (Select_mount_ok mapStateToProps props m w Hm)
    as (_ & _ & Hls & Hreg & Hinsts).
  fold c w1 in Hls, Hreg, Hinsts.
  assert (Hi : selectInsts w1 !! c
               = Some (mkSelectInst mapStateToProps props (Some (default [] m))
                                    (Some (FSelectRun c)) false false)).
  { rewrite Hinsts. by apply list_lookup_middle. }
  subst r. unfold Select_unmount, Select_componentWillUnmount, updSelectInst,
    bind, getSelectInst. simpl. rewrite Hi. simpl.
  unfold result_of, trace_of, world_of. simpl.
  split; [done|]. split; [done|]. split.
  { rewrite Hls, without_app, without_self, app_nil_r. by apply without_absent. }
  split; [exact Hreg|].
  unfold unmounting. simpl. rewrite !list_lookup_alter_eq, Hi. simpl. by eexists.
Qed.

Section Unmounted.

Variable ext : nat → list Value → M unit.
Variable c : nat.
Hypothesis ext_unmounting : ∀ n args, preserves (unmounting c) (ext n args).

Lemma unmounting_frame (f : World → World) :
  (∀ w, selectInsts (f w) = selectInsts w) →
  preserves (unmounting c) (modifyW f).
Proof.
  intros Hf. apply preserves_modifyW. intros w (i & Hi & Hu).
  exists i. by rewrite Hf.
Qed.

Lemma unmounting_alter (c' : nat) (g : SelectInst → SelectInst) :
  (∀ i, si_isUnmounting i = true → si_isUnmounting (g i) = true) →
  preserves (unmounting c) (updSelectInst c' g).
Proof.
  intros Hg. apply preserves_modifyW. intros w (i & Hi & Hu). unfold unmounting.
  simpl. destruct (decide (c' = c)) as [->|Hne].
  - rewrite list_lookup_alter_eq, Hi. simpl. eexists. split; [done|]. by apply Hg.
  - rewrite list_lookup_alter_ne by done. by exists i.
Qed.

Lemma unmounting_append (x : SelectInst) :
  preserves (unmounting c) (modifyW (set_selectInsts (fun l => l ++ [x]))).
Proof.
  apply preserves_modifyW. intros w (i & Hi & Hu). exists i. split; [|done].
  simpl. by apply lookup_app_l_Some.
Qed.

Local Ltac upres :=
  repeat first
    [ pres_step
    | apply unmounting_append
    | apply unmounting_alter; intros ? ?; simpl; solve [assumption | reflexivity]
    | apply unmounting_frame; intros []; reflexivity ].

(** No call of the module clears the flag of an unmounting instance. *)
Lemma unmounting_runOp (op : Op) : preserves (unmounting c) (runOp ext op).
Proof.
  destruct op; simpl;
    unfold discard, registerStore, registerReducer, registerSelectors,
      registerActions, subscribe, unsubscribe, selectValue, dispatchAction,
      callAction, store_dispatch, storeSubscriber, setStore, globalListener,
      callListener, callSelect, getState,
      Select_mount, Select_constructor, Select_componentWillMount,
      Select_subscribe, Select_update, Select_componentWillReceiveProps,
      Select_unmount, Select_componentWillUnmount, Select_runSelection,
      Select_setState, unsubscribe, subscribe,
      Data_mount, Data_constructor, Data_componentWillMount, Data_subscribe,
      Data_update, Data_componentWillReceiveProps, Data_unmount,
      Data_componentWillUnmount, Data_runResolvers, Data_resolve,
      Data_runSideEffects, Data_runSelection, Data_setState, updDataInst,
      callSelect, getState, unsubscribe, subscribe;
    upres.
Qed.

(** Once [componentWillUnmount] of a [withSelect] instance has run, nothing
    that happens later brings it back: after any history of calls, a
    notification reaching its [runSelection] (one already on its way, say)
    returns without calling the mapping function, without [setState] and
    without any change, and so do new props. *)
Theorem Select_unmounted_is_inert (i : SelectInst) (f : fn) (ops : list Op)
    (w : World) :
  selectInsts w !! c = Some i →
  si_unsubscribe i = Some f →
  let w' := runOps ext ops (world_of (Select_componentWillUnmount c w)) in
  (f ∉ listeners (world_of (Select_componentWillUnmount c w)))
  ∧ (∀ props, Select_runSelection c props w' = (Ok tt, w', []))
  ∧ callListener ext (FSelectRun c) w'
    = (Ok tt, w', [EvListener (FSelectRun c) []])
  ∧ (∀ nextProps, Select_componentWillReceiveProps c nextProps w'
                  = (Ok tt, w', [])).
Proof.
  intros Hi Hf w'.
  destruct (Select_componentWillUnmount_latches c i f w Hi Hf)
    as (w0 & i0 & Hrun & Hls & Hi0 & Hu0).
  assert (Hw0 : world_of (Select_componentWillUnmount c w) = w0)
    by (by rewrite Hrun).
  subst w'. rewrite Hw0. clear Hw0 Hrun.
  assert (Hw' : unmounting c (runOps ext ops w0)).
  { eapply (runOps_preserves ext (unmounting c) (fun _ => true)).
    - intros op _. apply unmounting_runOp.
    - by induction ops.
    - by exists i0. }
  destruct Hw' as (i' & Hi' & Hu').
  assert (Hsel : ∀ props, Select_runSelection c props (runOps ext ops w0)
                          = (Ok tt, runOps ext ops w0, [])).
  { intros props. by eapply Select_runSelection_unmounting. }
  split; [rewrite Hls; apply without_not_elem|]. split; [exact Hsel|]. split.
  - unfold callListener, traced. by rewrite Hsel.
  - intros nextProps. unfold Select_componentWillReceiveProps, bind, getSelectInst.
    rewrite Hi'. simpl. destruct (negb _); [|done]. by rewrite Hsel.
Qed.

End Unmounted.

(** ** withData: what a notification selects *)

Lemma callSelect_pure (b : BoundSelect) (args : list Value) (w : World) :
  callSelect b args w = (result_of (callSelect b args w), w, []).
Proof.
  unfold callSelect. destruct (bs_store b) as [l|]; [|done].
  unfold result_of, bind, getState, bind, getStore.
  destruct (heap w !! l) as [s|]; [|done]. simpl. unfold liftR.
  by destruct (bs_selector b (st_state s) args).
Qed.

Lemma selectAll_cons (k : string) (r : Resolver) (rs : Dict Resolver) (w : World) :
  selectAll ((k, r) :: rs) w
  = match selectors w !! r_reducerKey r with
    | None => (Throw (TypeError "selectors[ reducerKey ] is undefined"), w, [])
    | Some m =>
        match m !! r_key r with
        | None => (Throw (TypeError "selector is undefined"), w, [])
        | Some selector =>
            match result_of (callSelect (se_select selector) (r_args r) w) with
            | Throw e => (Throw e, w, [])
            | Ok v =>
                match selectAll rs w with
                | (Ok rest, w', t) => (Ok ((k, v) :: rest), w', t ++ [])
                | (Throw e, w', t) => (Throw e, w', t)
                end
            end
        end
    end.
Proof.
  unfold selectAll. simpl. unfold bind at 1, bind at 1, selectorEntry.
  destruct (selectors w !! r_reducerKey r) as [m|]; simpl; [|done].
  destruct (m !! r_key r) as [selector|]; simpl; [|done].
  rewrite callSelect_pure.
  destruct (result_of (callSelect (se_select selector) (r_args r) w)) as [v|e];
    simpl; [|done].
  unfold bind. by destruct (mapValuesM rs _ w) as [[[rest|e] w'] t].
Qed.

(** Selecting reads: it leaves the world alone and records nothing; the
    values come in the order of the prop keys. *)
Lemma selectAll_pure (rs : Dict Resolver) (w : World) :
  selectAll rs w = (result_of (selectAll rs w), w, [])
  ∧ ∀ ns, result_of (selectAll rs w) = Ok ns → keys ns = keys rs.
Proof.
  induction rs as [|[k r] rs [IH IHk]]; [by split; [|intros ns [= <-]]|].
  rewrite selectAll_cons.
  destruct (selectors w !! r_reducerKey r) as [m|]; [|by split].
  destruct (m !! r_key r) as [selector|]; [|by split].
  destruct (result_of (callSelect _ _ w)) as [v|e]; [|by split].
  rewrite IH.
  destruct (result_of (selectAll rs w)) as [rest|e]; simpl; [|by split].
  split; [done|]. intros ns [= <-]. unfold keys in *. simpl.
  f_equal. by apply IHk.
Qed.

(** What is selected depends on the stores and the selectors only. *)
Lemma selectAll_registry (rs : Dict Resolver) (w w' : World) :
  heap w' = heap w → selectors w' = selectors w →
  result_of (selectAll rs w') = result_of (selectAll rs w).
Proof.
  intros Hh Hs. induction rs as [|[k r] rs IH]; [done|].
  rewrite !selectAll_cons, Hs.
  destruct (selectors w !! r_reducerKey r) as [m|]; [|done].
  destruct (m !! r_key r) as [selector|]; [|done].
  assert (Hc : result_of (callSelect (se_select selector) (r_args r) w')
               = result_of (callSelect (se_select selector) (r_args r) w)).
  { unfold callSelect. destruct (bs_store _) as [l|]; [|done].
    unfold result_of, bind, getState, bind, getStore. rewrite Hh.
    destruct (heap w !! l) as [s|]; [|done]. simpl. unfold liftR.
    by destruct (bs_selector _ (st_state s) _). }
  rewrite Hc. destruct (result_of (callSelect _ _ w)) as [v|e]; [|done].
  destruct (selectAll_pure rs w) as [Hp _].
  destruct (selectAll_pure rs w') as [Hp' _].
  rewrite Hp, Hp', IH.
  by destruct (result_of (selectAll rs w)).
Qed.

(** What [runSelection] amounts to when every selector returns. *)
Lemma Data_runSelection_unfold (c : nat) (i : DataInst) (newState : Obj)
    (w : World) :
  dataInsts w !! c = Some i →
  result_of (selectAll (di_resolvers i) w) = Ok newState →
  Data_runSelection c w
  = if isShallowEqual newState (di_state i) then (Ok tt, w, [])
    else (Ok tt,
          (if di_unmounted i then w
           else set_dataInsts (fun l => alter (fun i =>
                  mkDataInst (di_mapStateToProps i) (di_props i)
                             (spread (di_state i) newState) (di_resolvers i)
                             (di_unsubscribe i) (di_unmounted i)) c l) w),
          [EvSetStateData c (di_unmounted i) newState]).
Proof.
  intros Hi Hsel. unfold Data_runSelection.
  change (mapValuesM (di_resolvers ?i) _) with (selectAll (di_resolvers i)).
  unfold bind at 1, getDataInst. rewrite Hi. simpl.
  unfold bind at 1.
  change (mapValuesM (di_resolvers i) _) with (selectAll (di_resolvers i)).
  destruct (selectAll_pure (di_resolvers i) w) as [Hp _]. rewrite Hp, Hsel. simpl.
  unfold bind at 1, getDataInst. rewrite Hi. simpl.
  destruct (isShallowEqual newState (di_state i)); simpl; [done|].
  unfold Data_setState, bind, getDataInst, emit. simpl. rewrite Hi. simpl.
  by destruct (di_unmounted i).
Qed.

Lemma keys_spread {A} (a b : Dict A) :
  keys (spread a b)
  = keys a ++ filter (fun k => k ∉ keys a) (keys b).
Proof.
  unfold spread, keys. rewrite fmap_app. f_equal.
  - induction a as [|[k v] a IH]; [done|]. simpl. by f_equal.
  - induction b as [|[k v] b IH]; [done|].
    rewrite filter_cons, fmap_cons, filter_cons. simpl.
    assert (Hiff : hasOwnProperty a k = false ↔ k ∉ a.*1).
    { unfold hasOwnProperty. destruct (get a k) eqn:Hg.
      - split; [done|]. intros Hn. apply get_None_keys in Hn. congruence.
      - split; [|done]. intros _. by apply get_None_keys. }
    repeat case_decide; simpl; try (by f_equal); tauto.
Qed.

Lemma NoDup_keys_spread {A} (a b : Dict A) :
  NoDup (keys a) → NoDup (keys b) → NoDup (keys (spread a b)).
Proof.
  intros Ha Hb. rewrite keys_spread. apply NoDup_app. split; [done|]. split.
  - intros k Hk [Hn _]%list_elem_of_filter. by apply Hn.
  - by apply NoDup_filter.
Qed.

Lemma spread_empty (b : Obj) : spread [] b = b.
Proof.
  unfold spread. simpl. induction b as [|[k v] b IH]; [done|].
  rewrite filter_cons. simpl. by rewrite IH.
Qed.

(** A shallowly equal pair of objects has the same number of keys, and the
    keys of the first are keys of the second. *)
Lemma isShallowEqual_keys (a b : Obj) :
  isShallowEqual a b = true →
  length a = length b ∧ ∀ k, k ∈ keys a → k ∈ keys b.
Proof.
  unfold isShallowEqual. intros [Hlen Hall]%andb_prop.
  apply bool_decide_eq_true in Hlen. split; [done|].
  intros k [[k' v] [-> Hin]]%list_elem_of_fmap. simpl.
  rewrite forallb_forall in Hall. apply list_elem_of_In in Hin.
  specialize (Hall _ Hin). simpl in Hall.
  apply get_Some_keys. by destruct (get b k').
Qed.

(** An object is shallowly equal to a state it has just been merged into,
    when the state had no key of its own. *)
Lemma isShallowEqual_spread (state ns : Obj) :
  NoDup (keys state) → NoDup (keys ns) →
  (∀ k, k ∈ keys state → k ∈ keys ns) →
  isShallowEqual ns (spread state ns) = true.
Proof.
  intros Hs Hn Hsub. unfold isShallowEqual. apply andb_true_intro. split.
  - apply bool_decide_eq_true.
    assert (Hperm : keys ns ≡ₚ keys (spread state ns)).
    { apply NoDup_Permutation; [done|by apply NoDup_keys_spread|].
      intros k. rewrite keys_spread, elem_of_app, list_elem_of_filter.
      split; [|intros [?|[_ ?]]; auto].
      intros Hk. destruct (decide (k ∈ keys state)); auto. }
    apply Permutation_length in Hperm. unfold keys in Hperm.
    by rewrite !length_fmap in Hperm.
  - apply forallb_forall. intros [k v] Hin. simpl. apply list_elem_of_In in Hin.
    rewrite get_spread, (get_NoDup ns k v Hn Hin). apply strict_eq_refl.
Qed.

(** While the state of a mounted [withData] component holds a key that its
    resolvers no longer have, no notification finds the selected values
    shallowly equal to the state: with the stores as they are, every
    notification calls [setState] with the same values again, and the key
    stays.  ([setState] merges; it never removes a key.) *)
Theorem Data_stale_key_rerenders (c : nat) (i : DataInst) (newState : Obj)
    (n : nat) (w : World) :
  staleKey c w →
  dataInsts w !! c = Some i →
  result_of (selectAll (di_resolvers i) w) = Ok newState →
  let wn := Nat.iter n (fun w' => world_of (Data_runSelection c w')) w in
  Data_runSelection c wn
  = (Ok tt, world_of (Data_runSelection c wn), [EvSetStateData c false newState])
  ∧ staleKey c (world_of (Data_runSelection c wn)).
Proof.
  intros Hstale Hi Hsel wn.
  assert (Hstep : ∀ w' i',
    staleKey c w' → dataInsts w' !! c = Some i' →
    di_resolvers i' = di_resolvers i →
    heap w' = heap w → selectors w' = selectors w →
    let w1 := world_of (Data_runSelection c w') in
    Data_runSelection c w' = (Ok tt, w1, [EvSetStateData c false newState])
    ∧ staleKey c w1
    ∧ (∃ i1, dataInsts w1 !! c = Some i1 ∧ di_resolvers i1 = di_resolvers i)
    ∧ heap w1 = heap w ∧ selectors w1 = selectors w).
  { intros w' i' (i0 & k & Hi0 & Hm & Hns & Hnr & Hk & Hnk) Hi' Hrs Hh Hs w1.
    rewrite Hi' in Hi0. injection Hi0 as <-.
    assert (Hsel' : result_of (selectAll (di_resolvers i') w') = Ok newState).
    { by rewrite Hrs, (selectAll_registry _ w w'). }
    subst w1. rewrite (Data_runSelection_unfold c i' newState w' Hi' Hsel').
    destruct (selectAll_pure (di_resolvers i') w') as [_ Hkeys].
    specialize (Hkeys newState Hsel').
    destruct (isShallowEqual newState (di_state i')) eqn:Heq.
    { exfalso. apply isShallowEqual_keys in Heq as [Hlen Hsub].
      apply Hnk. rewrite <- Hkeys.
      assert (Hperm : keys newState ≡ₚ keys (di_state i')).
      { apply submseteq_length_Permutation.
        - apply NoDup_submseteq; [by rewrite Hkeys|done].
        - unfold keys. rewrite !length_fmap. lia. }
      by rewrite Hperm. }
    rewrite Hm. unfold world_of. simpl. split; [done|]. split; [|split; [|done]].
    - exists (mkDataInst (di_mapStateToProps i') (di_props i')
                (spread (di_state i') newState) (di_resolvers i')
                (di_unsubscribe i') (di_unmounted i')), k.
      split; [simpl; by rewrite list_lookup_alter_eq, Hi'|].
      split; [exact Hm|].
      split; [apply (NoDup_keys_spread (di_state i') newState);
              [done|by rewrite Hkeys]|].
      split; [exact Hnr|]. split; [|exact Hnk].
      change (k ∈ keys (spread (di_state i') newState)).
      rewrite keys_spread. apply elem_of_app. by left.
    - simpl. eexists. rewrite list_lookup_alter_eq, Hi'. simpl. by split. }
  assert (Hinv : staleKey c wn
                 ∧ (∃ i', dataInsts wn !! c = Some i'
                          ∧ di_resolvers i' = di_resolvers i)
                 ∧ heap wn = heap w ∧ selectors wn = selectors w).
  { subst wn. induction n as [|n IH]; simpl.
    - split; [done|]. split; [by exists i|done].
    - destruct IH as (Hst & (i' & Hi' & Hrs) & Hh & Hs).
      destruct (Hstep _ i' Hst Hi' Hrs Hh Hs) as (_ & H1 & H2 & H3 & H4). done. }
  destruct Hinv as (Hst & (i' & Hi' & Hrs) & Hh & Hs).
  destruct (Hstep _ i' Hst Hi' Hrs Hh Hs) as (H0 & H1 & _). by split.
Qed.

(** While every key of the state of a [withData] component is a key of its
    resolvers, a notification that finds a difference leaves the state
    holding the selected values, under the keys of the resolvers and no
    other; one that finds none leaves the state as it is and records
    nothing.  Resolvers, registries and the bus are untouched. *)
Theorem Data_runSelection_holds_selected (c : nat) (i : DataInst)
    (newState : Obj) (w : World) :
  dataInsts w !! c = Some i →
  di_unmounted i = false →
  (∀ k, k ∈ keys (di_state i) → k ∈ keys (di_resolvers i)) →
  result_of (selectAll (di_resolvers i) w) = Ok newState →
  let run := Data_runSelection c w in
  result_of run = Ok tt
  ∧ registry (world_of run) = registry w
  ∧ listeners (world_of run) = listeners w
  ∧ ∃ i1, dataInsts (world_of run) !! c = Some i1
        ∧ di_resolvers i1 = di_resolvers i
        ∧ (isShallowEqual newState (di_state i) = true →
             di_state i1 = di_state i ∧ trace_of run = [])
        ∧ (isShallowEqual newState (di_state i) = false →
             trace_of run = [EvSetStateData c false newState]
             ∧ (∀ k, get (di_state i1) k = get newState k)
             ∧ ∀ k, k ∈ keys (di_state i1) ↔ k ∈ keys (di_resolvers i)).
Proof.
  intros Hi Hm Hsub Hsel run. subst run.
  destruct (selectAll_pure (di_resolvers i) w) as [_ Hkeys].
  specialize (Hkeys newState Hsel).
  rewrite (Data_runSelection_unfold c i newState w Hi Hsel).
  destruct (isShallowEqual newState (di_state i)) eqn:Heq.
  - unfold result_of, world_of, trace_of. simpl.
    split; [done|]. split; [done|]. split; [done|]. exists i. by repeat split.
  - rewrite Hm. unfold result_of, world_of, trace_of. simpl.
    split; [done|]. split; [done|]. split; [done|].
    eexists. split; [by rewrite list_lookup_alter_eq, Hi|]. simpl.
    split; [done|]. split; [done|]. intros _. split; [done|]. split.
    + intros k. rewrite get_spread. destruct (get newState k) as [v|] eqn:Hk; [done|].
      apply get_None_keys. intros Hin. apply Hsub in Hin. rewrite <- Hkeys in Hin.
      by apply get_None_keys in Hk.
    + intros k. rewrite keys_spread, elem_of_app, list_elem_of_filter, Hkeys.
      split; [intros [?|[_ ?]]; auto|].
      intros Hk. destruct (decide (k ∈ keys (di_state i))); auto.
Qed.

Section Inert.

Variable ext : nat → list Value → M unit.
Hypothesis ext_inert : inert ext.

(** With inert effects, running the effects of resolvers whose selectors
    all return changes nothing. *)
Lemma Data_runSideEffects_inert (p : Resolver → string → bool)
    (rs : Dict Resolver) (ns : Obj) (w : World) :
  result_of (selectAll rs w) = Ok ns →
  ∃ t, Data_runSideEffects ext (omitBy p rs) w = (Ok tt, w, t).
Proof.
  revert ns. induction rs as [|[k r] rs IH]; intros ns Hsel.
  - by exists [].
  - rewrite selectAll_cons in Hsel.
    destruct (selectors w !! r_reducerKey r) as [m|] eqn:Hm; [|done].
    destruct (m !! r_key r) as [selector|] eqn:Hs; [|done].
    destruct (result_of (callSelect _ _ w)) as [v|e]; [|done].
    destruct (selectAll_pure rs w) as [Hp _]. rewrite Hp in Hsel.
    destruct (result_of (selectAll rs w)) as [rest|e] eqn:Hrest; [|done].
    destruct (IH rest eq_refl) as [t Ht].
    unfold omitBy in *. rewrite filter_cons. simpl.
    case_decide; [|by exists t].
    rewrite Data_runSideEffects_cons, Hm, Hs.
    destruct (se_effect selector) as [n|]; [|by exists t].
    rewrite ext_inert, Ht. by eexists.
Qed.


End Inert.

(** ** withDispatch: when the prop names change *)

Lemma bindProxies_fresh (old : Dict nat) (propNames bound : list string)
    (k : string) (f : nat) :
  get (bindProxies old propNames bound).1 k = Some f →
  get old k = None →
  length bound ≤ f.
Proof.
  revert bound. induction propNames as [|p ps IH]; intros bound; simpl; [done|].
  destruct (get old p) as [g|] eqn:Hp.
  - specialize (IH bound). destruct (bindProxies old ps bound) as [r b].
    simpl in *. case_bool_decide; [congruence|done].
  - specialize (IH (bound ++ [p])).
    destruct (bindProxies old ps (bound ++ [p])) as [r b]. simpl in *.
    case_bool_decide.
    + intros [= <-] _. done.
    + intros Hk Hold. specialize (IH Hk Hold). rewrite length_app in IH.
      simpl in IH. lia.
Qed.

Section DispatchRenames.

Variable mapDispatchToProps : DispatchFn → Obj → Result (Dict Dispatcher).

(** Re-rendering a [withDispatch] component whose mapping function now
    returns other prop names, the component having no callback named
    [hasOwnProperty] so far: nothing is called, the callbacks handed to the
    wrapped component are under exactly the new names; a name that was
    there before keeps its function; a new name gets a function the
    instance has never made before, so none that was ever handed out; two
    names never share a function; and every function made so far stays
    bound to its name. *)
Theorem Dispatch_update_renames (w : World) (nextProps : Obj) (i : DispatchInst)
    (m : Dict Dispatcher) :
  proxiesBound i →
  get (dp_proxyProps i) "hasOwnProperty" = None →
  mapDispatchToProps (dispatchFn w) nextProps = Ok m →
  ∃ i', Dispatch_update mapDispatchToProps nextProps i w = (Ok i', w, [])
      ∧ dp_props i' = nextProps
      ∧ proxiesBound i'
      ∧ keys (dp_proxyProps i') = keys m
      ∧ (∀ k f, get (dp_proxyProps i) k = Some f → k ∈ keys m →
                get (dp_proxyProps i') k = Some f)
      ∧ (∀ k, k ∉ keys m → get (dp_proxyProps i') k = None)
      ∧ (∀ k f, get (dp_proxyProps i') k = Some f →
                get (dp_proxyProps i) k = None →
                dp_bound i !! f = None
                ∧ ∀ k0, get (dp_proxyProps i) k0 ≠ Some f)
      ∧ (∀ k1 k2 f, get (dp_proxyProps i') k1 = Some f →
                    get (dp_proxyProps i') k2 = Some f → k1 = k2)
      ∧ dp_bound i `prefix_of` dp_bound i'.
Proof.
  intros Hbound Hown Hm.
  unfold Dispatch_update, Dispatch_componentWillUpdate, Dispatch_setProxyProps,
    bind, getW, liftR, ret.
  cbn [fst snd]. rewrite Hm, (Dispatch_bindProxies_ordinary _ _ _ _ _ Hown).
  destruct (bindProxies_spec (dp_proxyProps i) (keys m) (dp_bound i))
    as (Hkeys & Hpre & Hold & Hnew).
  pose proof (bindProxies_fresh (dp_proxyProps i) (keys m) (dp_bound i)) as Hfresh.
  destruct (bindProxies (dp_proxyProps i) (keys m) (dp_bound i)) as [r b].
  simpl in *. eexists. split; [reflexivity|]. simpl.
  assert (Hbound' : ∀ k f, get r k = Some f → b !! f = Some k).
  { intros k f Hk. destruct (Hnew k f Hk) as [Hk'|[_ Hf]]; [|done].
    eapply prefix_lookup_Some; [|exact Hpre]. by apply Hbound. }
  split; [done|]. split; [exact Hbound'|]. split; [done|]. split; [exact Hold|].
  split; [|split; [|split; [|done]]].
  - intros k Hk. apply get_None_keys. by rewrite Hkeys.
  - intros k f Hk Hnone. specialize (Hfresh k f Hk Hnone).
    split; [by apply lookup_ge_None|].
    intros k0 Hk0. apply Hbound in Hk0. apply lookup_lt_Some in Hk0. lia.
  - intros k1 k2 f H1 H2. apply Hbound' in H1, H2. congruence.
Qed.

(** A callback whose prop name the mapping function has stopped returning
    still exists for whoever kept it, but calling it is a TypeError and
    dispatches nothing, unless the name is the name of a member of
    [Object.prototype]. *)
Theorem Dispatch_dropped_callback_throws (w w' : World) (nextProps : Obj)
    (i i' : DispatchInst) (m' : Dict Dispatcher) (k : string) (f : nat)
    (args : list Value) :
  proxiesBound i →
  get (dp_proxyProps i) k = Some f →
  result_of (Dispatch_update mapDispatchToProps nextProps i w) = Ok i' →
  mapDispatchToProps (dispatchFn w') nextProps = Ok m' →
  k ∉ keys m' →
  inherited k = false →
  Dispatch_callProxy mapDispatchToProps i' f args w'
  = (Throw (TypeError "not a function"), w', []).
Proof.
  intros Hbound Hf Hupd Hm' Hk Hinh.
  assert (Hi' : dp_props i' = nextProps ∧ dp_bound i `prefix_of` dp_bound i').
  { unfold result_of, Dispatch_update, Dispatch_componentWillUpdate,
      Dispatch_setProxyProps, bind, getW, liftR, ret in Hupd.
    cbn [fst snd] in Hupd.
    destruct (mapDispatchToProps (dispatchFn w) nextProps) as [m|e]; [|done].
    destruct (Dispatch_bindProxies _ i (keys m) (dp_bound i) w)
      as [[[rb|e] w2] t2] eqn:Hb; [|done].
    simpl in Hupd. injection Hupd as <-. simpl. split; [done|].
    by eapply Dispatch_bindProxies_bound. }
  destruct Hi' as [Hprops Hpre].
  unfold Dispatch_callProxy.
  rewrite (prefix_lookup_Some _ _ _ _ (Hbound k f Hf) Hpre).
  unfold Dispatch_proxyDispatch, bind, getW, liftR. simpl.
  rewrite Hprops, Hm'. simpl.
  apply get_None_keys in Hk. rewrite Hk. unfold getProperty. by rewrite Hinh.
Qed.

End DispatchRenames.

(** ** withSelect and withData: new props *)

Lemma Select_update_unfold (c : nat) (i : SelectInst) (nextProps : Obj) (w : World) :
  selectInsts w !! c = Some i →
  let setProps := set_selectInsts (fun l => alter (fun i =>
        mkSelectInst (si_mapStateToProps i) nextProps (si_mergeProps i)
                     (si_unsubscribe i) (si_isUnmounting i) (si_unmounted i)) c l) in
  Select_update c nextProps w
  = if isShallowEqual nextProps (si_props i) then (Ok tt, setProps w, [])
    else match Select_runSelection c (Some nextProps) w with
         | (Ok _, w1, t) => (Ok tt, setProps w1, t ++ [])
         | (Throw e, w1, t) => (Throw e, w1, t)
         end.
Proof.
  intros Hi setProps.
  unfold Select_update, Select_componentWillReceiveProps, updSelectInst, modifyW,
    bind, getSelectInst.
  rewrite Hi. simpl.
  destruct (isShallowEqual nextProps (si_props i)); simpl; [done|].
  by destruct (Select_runSelection c (Some nextProps) w) as [[[[]|e] w1] t].
Qed.

Lemma Data_update_unfold (ext : nat → list Value → M unit) (c : nat)
    (i : DataInst) (nextProps : Obj) (w : World) :
  dataInsts w !! c = Some i →
  let setProps := set_dataInsts (fun l => alter (fun i =>
        mkDataInst (di_mapStateToProps i) nextProps (di_state i)
                   (di_resolvers i) (di_unsubscribe i) (di_unmounted i)) c l) in
  Data_update ext c nextProps w
  = if isShallowEqual nextProps (di_props i) then (Ok tt, setProps w, [])
    else match Data_runResolvers ext c (Some nextProps) w with
         | (Ok _, w1, t) => (Ok tt, setProps w1, t ++ [])
         | (Throw e, w1, t) => (Throw e, w1, t)
         end.
Proof.
  intros Hi setProps.
  unfold Data_update, Data_componentWillReceiveProps, updDataInst, modifyW.
  unfold bind at 1, bind at 1, getDataInst. rewrite Hi. simpl.
  destruct (isShallowEqual nextProps (di_props i)); simpl; [done|].
  by destruct (Data_runResolvers ext c (Some nextProps) w) as [[[[]|e] w1] t].
Qed.

(** New props for a mounted [withSelect] component.  If they are not
    shallowly equal to the current ones, the mapping function is run on the
    new props and the component then holds props derived from them;
    if they are shallowly equal, nothing is derived anew and nothing is
    recorded.  Either way the instance has the new props afterwards. *)
Theorem Select_update_derives_from_next_props (c : nat) (i : SelectInst)
    (nextProps : Obj) (r : option Obj) (w : World) :
  selectInsts w !! c = Some i →
  si_isUnmounting i = false →
  si_unmounted i = false →
  si_mapStateToProps i (selectFn w) nextProps = Ok r →
  NoDup (keys (default [] r)) →
  let run := Select_update c nextProps w in
  result_of run = Ok tt
  ∧ registry (world_of run) = registry w
  ∧ listeners (world_of run) = listeners w
  ∧ ∃ i1, selectInsts (world_of run) !! c = Some i1
        ∧ si_props i1 = nextProps
        ∧ (isShallowEqual nextProps (si_props i) = false →
             isShallowEqualOpt (default [] r) (si_mergeProps i1) = true)
        ∧ (isShallowEqual nextProps (si_props i) = true →
             si_mergeProps i1 = si_mergeProps i ∧ trace_of run = []).
Proof.
  intros Hi Hu Hm Hmap Hnd run. subst run.
  rewrite (Select_update_unfold c i nextProps w Hi).
  destruct (isShallowEqual nextProps (si_props i)) eqn:Hprops.
  - unfold result_of, world_of, trace_of. simpl.
    rewrite list_lookup_alter_eq, Hi. simpl.
    split; [done|]. split; [done|]. split; [done|].
    eexists. split; [done|]. simpl. by split.
  - rewrite (Select_runSelection_unfold c i (Some nextProps) r w Hi Hu Hmap).
    rewrite Hm.
    destruct (isShallowEqualOpt (default [] r) (si_mergeProps i)) eqn:Heq;
      unfold result_of, world_of, trace_of; simpl.
    + rewrite list_lookup_alter_eq, Hi. simpl.
      split; [done|]. split; [done|]. split; [done|].
      eexists. split; [done|]. simpl. by split.
    + rewrite !list_lookup_alter_eq, Hi. simpl.
      split; [done|]. split; [done|]. split; [done|].
      eexists. split; [done|]. simpl. split; [done|]. split; [|done].
      intros _. by apply isShallowEqual_refl.
Qed.

Section Narrowing.

Variable ext : nat → list Value → M unit.
Hypothesis ext_inert : inert ext.


End Narrowing.

(** ** The further properties at concrete inputs *)

Lemma registerSelectors_replaces_witness :
  let w2 := world_of (registerSelectors "key" {["getValue" := SelFunction getValue]}
              (world_of (registerSelectors "key"
                 {["getOther" := SelFunction getValue]} valueWorld))) in
  selectValue "key" "getOther" [] w2 = (Throw (TypeError "not a function"), w2, [])
  ∧ selectValue "key" "getValue" [] w2 = (Ok VUndefined, w2, []).
Proof.
  intros w2.
  destruct (registerSelectors_replaces "key"
              {["getOther" := SelFunction getValue]}
              {["getValue" := SelFunction getValue]} valueWorld)
    as (_ & Hmiss & Hcall & _); [reflexivity ..|].
  split.
  - apply Hmiss; reflexivity.
  - apply (Hcall "getValue" (SelFunction getValue) 0
             (mkStore valueReducer (VObj 0 []) (VObj 0 []))); reflexivity.
Defined.

Lemma registerActions_binds_witness :
  let w1 := world_of (registerActions "key" {["setValue" := setValue]} valueWorld) in
  let w2 := world_of (dispatchAction extIdle "key" "setValue" [VNum 5] w1) in
  heap w2 !! 0
  = Some (mkStore valueReducer (VObj 1 [("value", VNum 5)])
                  (VObj 1 [("value", VNum 5)]))
  ∧ dispatchAction extIdle "key" "reset" [] w1
    = (Throw (TypeError "not a function"), w1, []).
Proof.
  intros w1 w2.
  destruct (registerActions_binds extIdle "key" "setValue"
              {["setValue" := setValue]} valueWorld extIdle_quiet)
    as [_ Hcall]; [reflexivity|].
  destruct (registerActions_binds extIdle "key" "reset"
              {["setValue" := setValue]} valueWorld extIdle_quiet)
    as [Hmiss _]; [reflexivity|].
  split.
  - destruct (Hcall setValue [VNum 5] (setAction 5) 0
                (mkStore valueReducer (VObj 0 []) (VObj 0 [])))
      as (H & _); [reflexivity..|]. exact H.
  - apply Hmiss; reflexivity.
Defined.

Lemma selectors_before_store_throw_witness :
  let w' := runOps extIdle lateReducerOps
              (world_of (registerSelectors "late"
                           {["getValue" := SelFunction getValue]} emptyWorld)) in
  stores w' !! "late" = Some 0
  ∧ selectValue "late" "getValue" [] w'
    = (Throw (TypeError "store is undefined"), w', []).
Proof.
  intros w'. split; [reflexivity|].
  apply (selectors_before_store_throw extIdle "late"
           {["getValue" := SelFunction getValue]} lateReducerOps "getValue"
           (SelFunction getValue) [] emptyWorld); try reflexivity.
  intros m n a. apply extIdle_preserves.
Defined.

Lemma actions_before_store_throw_witness :
  let w' := runOps extIdle lateReducerOps
              (world_of (registerActions "late" {["setValue" := setValue]}
                                         emptyWorld)) in
  stores w' !! "late" = Some 0
  ∧ dispatchAction extIdle "late" "setValue" [VNum 5] w'
    = (Throw (TypeError "store is undefined"), w', []).
Proof.
  intros w'. split; [reflexivity|].
  apply (actions_before_store_throw extIdle "late" {["setValue" := setValue]}
           lateReducerOps "setValue" setValue [VNum 5] (setAction 5) emptyWorld);
    try reflexivity.
  intros m n a. apply extIdle_preserves.
Defined.

Lemma lastState_in_step_witness :
  heap (runOps (clientFn answerTable 3)
          [OpRegisterStore "key" (valueStore valueReducer);
           OpSubscribe (FExt 0);
           OpDispatch "key" "setValue" [VNum 1]] emptyWorld) !! 0
  = Some (mkStore valueReducer (VObj 2 [("value", VNum 2)])
                  (VObj 2 [("value", VNum 2)]))
  ∧ st_lastState (mkStore valueReducer (VObj 2 [("value", VNum 2)])
                          (VObj 2 [("value", VNum 2)]))
    = st_state (mkStore valueReducer (VObj 2 [("value", VNum 2)])
                        (VObj 2 [("value", VNum 2)])).
Proof.
  assert (H : heap (runOps (clientFn answerTable 3)
          [OpRegisterStore "key" (valueStore valueReducer);
           OpSubscribe (FExt 0);
           OpDispatch "key" "setValue" [VNum 1]] emptyWorld) !! 0
      = Some (mkStore valueReducer (VObj 2 [("value", VNum 2)])
                      (VObj 2 [("value", VNum 2)]))) by (vm_compute; reflexivity).
  split; [exact H|].
  exact (lastState_in_step answerTable 3 _ 0 _ H).
Defined.

Local Ltac decided := refine (bool_decide_unpack _ _); vm_compute; exact I.

Lemma Select_rerenders_iff_props_changed_witness :
  trace_of (store_dispatch extIdle 0 (setAction 5) selectMounted)
  = [EvGlobalListener
       [EvListener (FSelectRun 0) [EvSetStateSelect 0 false [("value", VNum 5)]]]].
Proof.
  destruct (Select_rerenders_iff_props_changed extIdle 0 0 (setAction 5)
              (mkStore valueReducer (VObj 0 []) (VObj 0 []))
              (mkSelectInst selectValueProp [] (Some [("value", VUndefined)])
                            (Some (FSelectRun 0)) false false)
              (Some [("value", VNum 5)]) selectMounted)
    as (_ & Htrace & _); [vm_compute; reflexivity ..|].
  exact Htrace.
Defined.


Lemma Select_mount_unmount_restores_witness :
  let w1 := world_of (Select_mount selectValueProp [] valueWorld) in
  listeners w1 = [FSelectRun 0]
  ∧ listeners (world_of (Select_unmount 0 w1)) = listeners valueWorld
  ∧ unmounting 0 (world_of (Select_unmount 0 w1)).
Proof.
  intros w1. split; [reflexivity|].
  destruct (Select_mount_unmount_restores selectValueProp []
              (Some [("value", VUndefined)]) valueWorld)
    as (_ & _ & Hls & _ & Hu).
  - vm_compute. reflexivity.
  - apply not_elem_of_nil.
  - split; [exact Hls|exact Hu].
Defined.

Lemma Select_unmounted_is_inert_witness :
  let w' := runOps extIdle
              [OpDispatch "key" "setValue" [VNum 5]; OpSelectUpdate 0 [("x", VNum 1)]]
              (world_of (Select_componentWillUnmount 0 selectMounted)) in
  Select_runSelection 0 None w' = (Ok tt, w', [])
  ∧ callListener extIdle (FSelectRun 0) w'
    = (Ok tt, w', [EvListener (FSelectRun 0) []]).
Proof.
  intros w'.
  destruct (Select_unmounted_is_inert extIdle 0
              (fun n args => extIdle_preserves (unmounting 0) n args)
              (mkSelectInst selectValueProp [] (Some [("value", VUndefined)])
                            (Some (FSelectRun 0)) false false)
              (FSelectRun 0)
              [OpDispatch "key" "setValue" [VNum 5]; OpSelectUpdate 0 [("x", VNum 1)]]
              selectMounted)
    as (_ & Hsel & Hcall & _); try (vm_compute; reflexivity).
  split; [apply Hsel|exact Hcall].
Defined.

Lemma Data_stale_key_rerenders_witness :
  di_state <$> dataInsts narrowedScene !! 0
  = Some [("value", VUndefined); ("extra", VUndefined)]
  ∧ trace_of (Data_runSelection 0
       (Nat.iter 3 (fun w' => world_of (Data_runSelection 0 w')) narrowedScene))
    = [EvSetStateData 0 false [("value", VUndefined)]].
Proof.
  split; [vm_compute; reflexivity|].
  set (i := mkDataInst widthProps [] [("value", VUndefined); ("extra", VUndefined)]
              [("value", mkResolver [] "getValue" "key")] (Some (FDataRun 0)) false).
  assert (Hi : dataInsts narrowedScene !! 0 = Some i) by (vm_compute; reflexivity).
  destruct (Data_stale_key_rerenders 0 i [("value", VUndefined)] 3 narrowedScene)
    as [Hrun _].
  - exists i, "extra". split; [exact Hi|]. split; [reflexivity|].
    split; [decided|]. split; [decided|]. split; decided.
  - exact Hi.
  - vm_compute. reflexivity.
  - cbv zeta in Hrun. by rewrite Hrun.
Defined.

Lemma Data_runSelection_holds_selected_witness :
  let w := world_of (dispatchAction extIdle "key" "setValue" [VNum 5]
                       (set_listeners (fun _ => [])
                          (world_of (Data_mount extIdle readValue [] valueWorld)))) in
  trace_of (Data_runSelection 0 w) = [EvSetStateData 0 false [("value", VNum 5)]]
  ∧ di_state <$> dataInsts (world_of (Data_runSelection 0 w)) !! 0
    = Some [("value", VNum 5)].
Proof.
  intros w.
  set (i := mkDataInst readValue [] [("value", VUndefined)]
              [("value", mkResolver [] "getValue" "key")] (Some (FDataRun 0)) false).
  destruct (Data_runSelection_holds_selected 0 i [("value", VNum 5)] w)
    as (_ & _ & _ & i1 & _ & _ & _ & Hdiff);
    [first [vm_compute; reflexivity | (intros k Hk; exact Hk)] .. |].
  destruct Hdiff as (Htrace & _); [vm_compute; reflexivity|].
  split; [exact Htrace|]. vm_compute. reflexivity.
Defined.

Lemma extIdle_inert : inert extIdle.
Proof. by intros n args w. Qed.


Lemma Dispatch_update_renames_witness :
  ∃ i0 i1 i2,
    result_of (Dispatch_mount guardedProps [] valueWorld) = Ok i0
    ∧ Dispatch_update guardedProps [("readOnly", VBool true)] i0 valueWorld
      = (Ok i1, valueWorld, [])
    ∧ Dispatch_update guardedProps [] i1 valueWorld = (Ok i2, valueWorld, [])
    ∧ dp_proxyProps i0 = [("onChange", 0)]
    ∧ dp_proxyProps i1 = []
    ∧ get (dp_proxyProps i2) "onChange" = Some 1.
Proof.
  set (i0 := mkDispatchInst [] [("onChange", 0)] ["onChange"]).
  assert (Hb0 : proxiesBound i0).
  { intros k f. simpl. case_bool_decide; [|done]. by intros [= <-]; subst. }
  destruct (Dispatch_update_renames guardedProps valueWorld
              [("readOnly", VBool true)] i0 [] Hb0)
    as (i1 & Hi1 & _ & Hb1 & Hk1 & _ & Hdrop1 & _);
    [reflexivity | vm_compute; reflexivity|].
  assert (Hp1 : dp_proxyProps i1 = []).
  { destruct (dp_proxyProps i1); [done|discriminate Hk1]. }
  assert (Hm2 : ∃ m, guardedProps (dispatchFn valueWorld) [] = Ok m
                     ∧ keys m = ["onChange"]).
  { eexists. split; [vm_compute; reflexivity|reflexivity]. }
  destruct Hm2 as (m & Hm & Hkm).
  destruct (Dispatch_update_renames guardedProps valueWorld [] i1 m Hb1)
    as (i2 & Hi2 & _ & Hb2 & Hk2 & _ & _ & _ & _ & _);
    [by rewrite Hp1 | exact Hm |].
  exists i0, i1, i2. split; [vm_compute; reflexivity|]. split; [exact Hi1|].
  split; [exact Hi2|]. split; [done|]. split; [exact Hp1|].
  vm_compute in Hi1. injection Hi1 as <-. vm_compute in Hi2.
  injection Hi2 as <-. reflexivity.
Defined.

Lemma Dispatch_dropped_callback_throws_witness :
  ∃ i1,
    result_of (Dispatch_update guardedProps [("readOnly", VBool true)]
                 (mkDispatchInst [] [("onChange", 0)] ["onChange"]) valueWorld)
    = Ok i1
    ∧ Dispatch_callProxy guardedProps i1 0 [VNum 5] valueWorld
      = (Throw (TypeError "not a function"), valueWorld, []).
Proof.
  eexists. split; [vm_compute; reflexivity|].
  apply (Dispatch_dropped_callback_throws guardedProps valueWorld valueWorld
           [("readOnly", VBool true)]
           (mkDispatchInst [] [("onChange", 0)] ["onChange"]) _ [] "onChange" 0).
  - intros k f. simpl. case_bool_decide; [|done]. by intros [= <-]; subst.
  - reflexivity.
  - vm_compute. reflexivity.
  - vm_compute. reflexivity.
  - apply not_elem_of_nil.
  - reflexivity.
Defined.

Lemma Select_update_derives_from_next_props_witness :
  let run := Select_update 0 [("x", VNum 1)] selectMounted in
  result_of run = Ok tt
  ∧ (si_props <$> selectInsts (world_of run) !! 0) = Some [("x", VNum 1)].
Proof.
  intros run.
  destruct (Select_update_derives_from_next_props 0
              (mkSelectInst selectValueProp [] (Some [("value", VUndefined)])
                            (Some (FSelectRun 0)) false false)
              [("x", VNum 1)] (Some [("value", VUndefined)]) selectMounted)
    as (Hres & _ & _ & i1 & Hi1 & Hp & _);
    [first [vm_compute; reflexivity | decided] .. |].
  fold run in Hres, Hi1. split; [exact Hres|]. by rewrite Hi1, <- Hp.
Defined.


(** ** The lint configuration *)

Lemma isDigit_not_special (c : Ascii.ascii) : isDigit c = true → isRegExpChar c = false.
Proof. destruct c as [[] [] [] [] [] [] [] []]; done. Qed.

Lemma isDigit_not_dot (c : Ascii.ascii) :
  isDigit c = true → Ascii.eqb c "."%char = false.
Proof. destruct c as [[] [] [] [] [] [] [] []]; done. Qed.

Lemma escapeRegExp_digits (s : string) : allDigits s = true → escapeRegExp s = s.
Proof.
  induction s as [|c s IH]; [done|]. simpl. intros [Hc Hs]%andb_prop.
  by rewrite (isDigit_not_special c Hc), IH.
Qed.

Lemma escapeRegExp_app (a b : string) :
  escapeRegExp (a +:+ b) = escapeRegExp a +:+ escapeRegExp b.
Proof.
  induction a as [|c a IH]; [done|]. simpl. rewrite IH. by destruct (isRegExpChar c).
Qed.

Lemma string_app_assoc (a b c : string) : (a +:+ b) +:+ c = a +:+ b +:+ c.
Proof.
  induction a as [|x a IH]; [done|].
  change (String x ((a +:+ b) +:+ c) = String x (a +:+ b +:+ c)). by f_equal.
Qed.

Lemma allDigits_dot (x c : string) : allDigits (x +:+ "." +:+ c) = false.
Proof.
  induction x as [|a x IH]; [done|]. simpl. rewrite IH. apply andb_false_r.
Qed.

Lemma digitsToEnd_dot (x c : string) : digitsToEnd (x +:+ "." +:+ c) = false.
Proof.
  destruct x as [|a x]; [done|]. unfold digitsToEnd.
  change (String a x +:+ "." +:+ c) with (String a (x +:+ "." +:+ c)).
  simpl. rewrite allDigits_dot. apply andb_false_r.
Qed.

Lemma stripPatch_cons (a : ascii) (s : string) :
  stripPatch (String a s)
  = if Ascii.eqb a "."%char && digitsToEnd s then EmptyString
    else String a (stripPatch s).
Proof. reflexivity. Qed.

Lemma stripPatch_suffix (x c : string) :
  digitsToEnd c = true → stripPatch (x +:+ "." +:+ c) = x.
Proof.
  intros Hc. induction x as [|a x IH].
  - change ("" +:+ "." +:+ c) with (String "."%char c).
    by rewrite stripPatch_cons, Hc.
  - change (String a x +:+ "." +:+ c) with (String a (x +:+ "." +:+ c)).
    by rewrite stripPatch_cons, digitsToEnd_dot, andb_false_r, IH.
Qed.

Lemma stripPatch_none (s : string) :
  (∀ x c, s = x +:+ "." +:+ c → digitsToEnd c = false) → stripPatch s = s.
Proof.
  induction s as [|a s IH]; [done|]. intros Hs. rewrite stripPatch_cons.
  destruct (Ascii.eqb a "."%char && digitsToEnd s) eqn:Hm.
  - apply andb_prop in Hm as [Ha Hd]. apply Ascii.eqb_eq in Ha. subst a.
    by rewrite (Hs "" s eq_refl) in Hd.
  - f_equal. apply IH. intros x c ->. apply (Hs (String a x) c). done.
Qed.

(** The pattern the linter builds from the version of the package.  A
    trailing dot-and-digits group of the version is dropped, whatever comes
    before it, and only that; a version that does not end in one is kept
    whole.  For a version of three groups of digits the pattern is the
    major and minor number with the dot escaped, followed by an optional
    dot-and-digits group. *)
Theorem majorMinorRegExp_of_version (major minor patch : string) :
  allDigits major = true → allDigits minor = true → digitsToEnd patch = true →
  majorMinorRegExp (major +:+ "." +:+ minor +:+ "." +:+ patch)
  = major +:+ "\." +:+ minor +:+ "(\.\d+)?"
  ∧ (∀ before, stripPatch (before +:+ "." +:+ patch) = before)
  ∧ (∀ version,
       (∀ x c, version = x +:+ "." +:+ c → digitsToEnd c = false) →
       majorMinorRegExp version = escapeRegExp version +:+ "(\.\d+)?").
Proof.
  intros Hmajor Hminor Hpatch. split; [|split].
  - unfold majorMinorRegExp.
    replace (major +:+ "." +:+ minor +:+ "." +:+ patch)
      with ((major +:+ "." +:+ minor) +:+ "." +:+ patch)
      by (by rewrite !string_app_assoc).
    rewrite (stripPatch_suffix _ patch Hpatch), !escapeRegExp_app.
    rewrite (escapeRegExp_digits major Hmajor), (escapeRegExp_digits minor Hminor).
    change (escapeRegExp ".") with "\.". by rewrite !string_app_assoc.
  - intros before. by apply stripPatch_suffix.
  - intros version Hv. unfold majorMinorRegExp. by rewrite stripPatch_none.
Qed.

Example majorMinorRegExp_2_5_0 : majorMinorRegExp "2.5.0" = "2\.5(\.\d+)?".
Proof. reflexivity. Qed.

Example majorMinorRegExp_rc : majorMinorRegExp "2.5.0-rc.1" = "2\.5\.0-rc(\.\d+)?".
Proof. reflexivity. Qed.

Lemma majorMinorRegExp_of_version_witness :
  majorMinorRegExp ("12" +:+ "." +:+ "0" +:+ "." +:+ "34") = "12\.0(\.\d+)?".
Proof.
  apply (majorMinorRegExp_of_version "12" "0" "34"); reflexivity.
Defined.
